(** * betterprompt: segmentation, alignment and three-way merge

    A shallow embedding of the TypeScript sources of betterprompt
    (segmentation/index.ts, utils/similarity.ts, utils/hash.ts,
    alignment/index.ts, merge/word-merge.ts, merge/index.ts) together with
    the properties its specification states about them.

    Conventions.
    - A JavaScript string is a [string]: a sequence of 8-bit code units
      (the Latin-1 range of UTF-16).  Every pattern of the sources ([\s],
      [\w], [\d], [A-Z], the punctuation classes) is decided on code units.
    - A JavaScript number that is an index or a length is a [nat]; a number
      that is a score or a vector component is a binary64 [float], with the
      kernel's IEEE 754 operations.
    - An array is a [list]; a [Map<number, V>] is a [gmap nat V].
    - A thrown [Error] is the [Throw] case of [result]. *)

From Stdlib Require Import ZArith List String Ascii Bool Lia.
From Stdlib Require Import Floats Sorting.Sorted.
From stdpp Require Import gmap list strings pretty.

Local Open Scope string_scope.
Local Open Scope list_scope.

(** ** JavaScript string primitives *)

Module JS.

(** Results of calls that may throw. *)
Inductive result (A : Type) : Type :=
| Ok (a : A)
| Throw (message : string).
Arguments Ok {A} a.
Arguments Throw {A} message.

Definition code (c : ascii) : nat := nat_of_ascii c.

Definition in_range (lo hi : nat) (c : ascii) : bool :=
  (lo <=? code c)%nat && (code c <=? hi)%nat.

(** [\s]: TAB, LF, VT, FF, CR, SPACE and NBSP are the white space and line
    terminator code units below 256. *)
Definition isSpace (c : ascii) : bool :=
  in_range 9 13 c || (code c =? 32)%nat || (code c =? 160)%nat.

(** [\d] *)
Definition isDigit (c : ascii) : bool := in_range 48 57 c.

(** [[A-Z]] *)
Definition isUpper (c : ascii) : bool := in_range 65 90 c.

(** [\w] = [[A-Za-z0-9_]] *)
Definition isWordChar (c : ascii) : bool :=
  isDigit c || isUpper c || (code c =? 95)%nat || in_range 97 122 c.

(** A string is truthy when it is not empty. *)
Definition truthy (s : string) : bool :=
  match s with EmptyString => false | String _ _ => true end.

Definition char (c : ascii) : string := String c EmptyString.

(** [arr.length > 0] *)
Definition nonempty {A} (l : list A) : bool :=
  match l with [] => false | _ => true end.

(** [arr.join("")] *)
Definition join (l : list string) : string := foldr String.append "" l.

(** [s.trimStart()], [s.trimEnd()], [s.trim()] *)
Fixpoint trimStart (s : string) : string :=
  match s with
  | String c s' => if isSpace c then trimStart s' else s
  | EmptyString => EmptyString
  end.

Fixpoint trimEnd (s : string) : string :=
  match s with
  | String c s' =>
      match trimEnd s' with
      | EmptyString => if isSpace c then EmptyString else char c
      | t => String c t
      end
  | EmptyString => EmptyString
  end.

Definition trim (s : string) : string := trimEnd (trimStart s).

(** [/\s/.test(s)] *)
Fixpoint hasSpace (s : string) : bool :=
  match s with
  | String c s' => isSpace c || hasSpace s'
  | EmptyString => false
  end.

(** [s.slice(from)] and [s.slice(from, to)] for indices inside the string. *)
Fixpoint sdrop (n : nat) (s : string) : string :=
  match n, s with
  | S n', String _ s' => sdrop n' s'
  | _, _ => s
  end.

Fixpoint stake (n : nat) (s : string) : string :=
  match n, s with
  | S n', String c s' => String c (stake n' s')
  | _, _ => EmptyString
  end.

Definition slice (from to : nat) (s : string) : string :=
  stake (to - from) (sdrop from s).

(** [s.startsWith(p)] *)
Fixpoint startsWith (p s : string) : bool :=
  match p, s with
  | EmptyString, _ => true
  | String a p', String b s' => bool_decide (a = b) && startsWith p' s'
  | String _ _, EmptyString => false
  end.

(** [s.endsWith(p)] *)
Definition endsWith (p s : string) : bool :=
  (String.length p <=? String.length s)%nat
  && bool_decide (sdrop (String.length s - String.length p) s = p).

(** [s.indexOf(p, from)], [None] for -1. *)
Fixpoint indexOf_from (p s : string) (pos : nat) : option nat :=
  if startsWith p s then Some pos
  else match s with
       | String _ s' => indexOf_from p s' (S pos)
       | EmptyString => None
       end.

Definition indexOf (p s : string) (from : nat) : option nat :=
  if (from <=? String.length s)%nat then indexOf_from p (sdrop from s) from
  else indexOf_from p EmptyString (String.length s).

(** [s.includes(p)] *)
Definition includes (p s : string) : bool :=
  match indexOf p s 0 with Some _ => true | None => false end.

(** [GetSubstitution] for a search string, which has no captures: in the
    replacement [$$] stands for a dollar sign, [$&] for the matched text,
    [$`] for the text before the match and [$'] for the text after it; a
    dollar sign before anything else stands for itself. *)
Fixpoint getSubstitution (matched before after template : string) : string :=
  match template with
  | EmptyString => EmptyString
  | String c rest =>
      if bool_decide (c = "$"%char) then
        match rest with
        | String d rest' =>
            if bool_decide (d = "$"%char) then
              String "$" (getSubstitution matched before after rest')
            else if bool_decide (d = "&"%char) then
              matched +:+ getSubstitution matched before after rest'
            else if bool_decide (d = "`"%char) then
              before +:+ getSubstitution matched before after rest'
            else if bool_decide (d = "'"%char) then
              after +:+ getSubstitution matched before after rest'
            else String c (getSubstitution matched before after rest)
        | EmptyString => String c EmptyString
        end
      else String c (getSubstitution matched before after rest)
  end.

(** [s.replace(search, replacement)] with two strings: the first occurrence
    of [search] gives way to the substitution of [replacement]. *)
Definition replace (search replacement s : string) : string :=
  match indexOf search s 0 with
  | None => s
  | Some pos =>
      let before := stake pos s in
      let after := sdrop (pos + String.length search) s in
      before +:+ getSubstitution search before after replacement +:+ after
  end.

(** A string without dollar sign. *)
Fixpoint dollar_free (s : string) : bool :=
  match s with
  | EmptyString => true
  | String c rest => negb (bool_decide (c = "$"%char)) && dollar_free rest
  end.

(** A string of white space only: [s.trim() === ""]. *)
Fixpoint blank (s : string) : bool :=
  match s with
  | String c s' => isSpace c && blank s'
  | EmptyString => true
  end.

(** [p] occurs in [s]. *)
Definition occurs_in (p s : string) : Prop :=
  exists before after, s = before +:+ p +:+ after.

(** A string that is empty or begins with something else than white space. *)
Definition starts_solid (s : string) : Prop :=
  match s with String c _ => isSpace c = false | EmptyString => True end.

End JS.

(** ** Word-level three-way merge (merge/word-merge.ts) *)

Module WordMerge.
Import JS.

Definition token := string.

(** [tokenize]: the loop over the characters of [text], with its three
    variables [tokens], [current] and [inWord]. *)
Definition push_truthy (tokens : list token) (current : string) : list token :=
  if truthy current then tokens ++ [current] else tokens.

Fixpoint tokenize_loop (text : string) (tokens : list token)
    (current : string) (inWord : bool) : list token :=
  match text with
  | EmptyString => push_truthy tokens current
  | String c rest =>
      let isWord := isWordChar c in
      if isWord && negb inWord then
        tokenize_loop rest (push_truthy tokens current) (char c) true
      else if negb isWord && inWord then
        tokenize_loop rest (push_truthy tokens current) (char c) false
      else
        tokenize_loop rest tokens (current +:+ char c) inWord
  end.

Definition tokenize (text : string) : list token :=
  tokenize_loop text [] "" false.

(** [lcs]: the table [dp] is a list of rows; [dp[i]?.[j] ?? 0] is
    [dp_get dp i j]. *)
Definition dp_get (dp : list (list nat)) (i j : nat) : nat :=
  default 0 (dp !! i ≫= (.!! j)).

(** Cells [j], [j+1], ... of row [i], from the part [b[j-1..]] of [b], the
    cells [j-1..] of row [i-1] and the cell [j-1] of row [i]. *)
Fixpoint lcs_row (ai : token) (b : list token) (prev : list nat) (left : nat)
    : list nat :=
  match b, prev with
  | bj :: b', diag :: ((up :: _) as prev') =>
      let v := if bool_decide (ai = bj) then diag + 1 else Nat.max up left in
      v :: lcs_row ai b' prev' v
  | _, _ => []
  end.

Fixpoint lcs_rows (a b : list token) (prev : list nat) : list (list nat) :=
  match a with
  | [] => []
  | ai :: a' =>
      let row := 0 :: lcs_row ai b prev 0 in
      row :: lcs_rows a' b row
  end.

Definition lcs_table (a b : list token) : list (list nat) :=
  let row0 := replicate (S (length b)) 0 in
  row0 :: lcs_rows a b row0.

(** The backtracking loop [while (i > 0 && j > 0)]; every turn lowers
    [i + j], so [i + j] turns are enough. *)
Fixpoint lcs_backtrack (fuel : nat) (a b : list token) (dp : list (list nat))
    (i j : nat) (result : list token) : list token :=
  match fuel, i, j with
  | S fuel', S i', S j' =>
      if bool_decide (a !! i' = b !! j') then
        lcs_backtrack fuel' a b dp i' j'
          (match a !! i' with Some t => t :: result | None => result end)
      else if (dp_get dp i j' <? dp_get dp i' j)%nat then
        lcs_backtrack fuel' a b dp i' j result
      else
        lcs_backtrack fuel' a b dp i j' result
  | _, _, _ => result
  end.

Definition lcs (a b : list token) : list token :=
  let m := length a in
  let n := length b in
  lcs_backtrack (m + n) a b (lcs_table a b) m n [].

Inductive DiffType := Keep | Delete | Insert.

Record DiffOp := mkDiffOp { op_type : DiffType; op_tokens : list token }.

#[global] Instance DiffType_eq_dec : EqDecision DiffType.
Proof. solve_decision. Defined.

(** The two inner loops of [diff2]: the elements of [xs] (the part of the
    array from the running index on) up to the first one equal to
    [common[ci]], all of them when [ci] is past the end of [common]. *)
Fixpoint collect (c : option token) (xs : list token)
    : list token * list token :=
  match xs with
  | [] => ([], [])
  | x :: xs' =>
      if bool_decide (c = Some x) then ([], xs)
      else let '(taken, rest) := collect c xs' in (x :: taken, rest)
  end.

Definition op_if_nonempty (t : DiffType) (tokens : list token) : list DiffOp :=
  match tokens with [] => [] | _ => [mkDiffOp t tokens] end.

(** The outer loop of [diff2].  [original], [modified] and [common] are the
    parts of the three arrays from [oi], [mi] and [ci] on.  A turn that finds
    [common] exhausted consumes both arrays, so it is the last one. *)
Fixpoint diff2_loop (original modified common : list token) : list DiffOp :=
  match original, modified with
  | [], [] => []
  | _, _ =>
      let '(deletions, original') := collect (head common) original in
      let '(insertions, modified') := collect (head common) modified in
      op_if_nonempty Delete deletions ++ op_if_nonempty Insert insertions ++
      match common with
      | c :: common' =>
          mkDiffOp Keep [c] :: diff2_loop (tail original') (tail modified') common'
      | [] => []
      end
  end.

Definition diff2 (original modified : list token) : list DiffOp :=
  diff2_loop original modified (lcs original modified).

(** [ChangeInfo]; [insertionBefore] is declared by the source and never
    written or read. *)
Record ChangeInfo := mkChange {
  deleted : bool;
  insertionAfter : option (list token)
}.

Record Changes := mkChanges {
  aIdx : nat;
  changes : gmap nat ChangeInfo;
  insertionAtStart : list token
}.

Definition set_insertionAfter (c : ChangeInfo) (tokens : list token) : ChangeInfo :=
  mkChange (deleted c) (Some tokens).

(** [for (j ...) { changes.set(aIdx, { deleted: true }); aIdx++; }] *)
Fixpoint mark_deleted (n : nat) (idx : nat) (m : gmap nat ChangeInfo)
    : nat * gmap nat ChangeInfo :=
  match n with
  | 0 => (idx, m)
  | S n' => mark_deleted n' (S idx) (<[idx := mkChange true None]> m)
  end.

(** One turn of the loop [for (const op of abDiff)]. *)
Definition process_op (st : Changes) (op : DiffOp) : Changes :=
  match op_type op with
  | Insert =>
      if (aIdx st =? 0)%nat && (size (changes st) =? 0)%nat then
        mkChanges (aIdx st) (changes st) (op_tokens op)
      else if (0 <? aIdx st)%nat then
        let prevChange :=
          default (mkChange false None) (changes st !! (aIdx st - 1)) in
        mkChanges (aIdx st)
          (<[aIdx st - 1 := set_insertionAfter prevChange (op_tokens op)]> (changes st))
          (insertionAtStart st)
      else st
  | Delete =>
      let '(idx, m) := mark_deleted (length (op_tokens op)) (aIdx st) (changes st) in
      mkChanges idx m (insertionAtStart st)
  | Keep =>
      mkChanges (aIdx st + length (op_tokens op)) (changes st) (insertionAtStart st)
  end.

Definition extract_changes (ops : list DiffOp) : Changes :=
  foldl process_op (mkChanges 0 ∅ []) ops.

Record ConflictRange := mkRange {
  range_start : nat;
  range_end : nat;
  range_b : string;
  range_c : string
}.

Record WordMergeResult := mkResult {
  merged : string;
  hasConflict : bool;
  conflictRanges : list ConflictRange
}.

(** The three variables of the merging loop. *)
Record MergeState := mkState {
  st_merged : list token;
  st_hasConflict : bool;
  st_ranges : list ConflictRange
}.

(** [bChange?.deleted ?? false] and [bChange?.insertionAfter ?? []] *)
Definition deleted_at (m : gmap nat ChangeInfo) (i : nat) : bool :=
  match m !! i with Some c => deleted c | None => false end.

Definition insertAfter_at (m : gmap nat ChangeInfo) (i : nat) : list token :=
  match m !! i with
  | Some c => default [] (insertionAfter c)
  | None => []
  end.

Definition conflict_marker (bContent cContent : string) : string :=
  "<<<" +:+ bContent +:+ "|" +:+ cContent +:+ ">>>".

(** The test of the source for conflicting insertions. *)
Definition insertions_conflict (bInsertAfter cInsertAfter : list token) : bool :=
  nonempty bInsertAfter && nonempty cInsertAfter
  && negb (bool_decide (join bInsertAfter = join cInsertAfter)).

(** One turn of [for (let i = 0; i < tokensA.length; i++)]. *)
Definition merge_step (bChanges cChanges : gmap nat ChangeInfo)
    (st : MergeState) (i : nat) (aToken : token) : MergeState :=
  let bDeleted := deleted_at bChanges i in
  let cDeleted := deleted_at cChanges i in
  let merged1 :=
    if negb bDeleted && negb cDeleted then st_merged st ++ [aToken]
    else st_merged st in
  let bInsertAfter := insertAfter_at bChanges i in
  let cInsertAfter := insertAfter_at cChanges i in
  if nonempty bInsertAfter || nonempty cInsertAfter then
    if insertions_conflict bInsertAfter cInsertAfter then
      let start := length merged1 in
      let bContent := join bInsertAfter in
      let cContent := join cInsertAfter in
      mkState (merged1 ++ [conflict_marker bContent cContent]) true
        (st_ranges st ++ [mkRange start (start + 1) bContent cContent])
    else
      mkState (merged1 ++ bInsertAfter ++ cInsertAfter)
        (st_hasConflict st) (st_ranges st)
  else mkState merged1 (st_hasConflict st) (st_ranges st).

Fixpoint merge_loop (bChanges cChanges : gmap nat ChangeInfo)
    (st : MergeState) (i : nat) (tokensA : list token) : MergeState :=
  match tokensA with
  | [] => st
  | aToken :: rest =>
      merge_loop bChanges cChanges
        (merge_step bChanges cChanges st i aToken) (S i) rest
  end.

(** The merging part of [wordMerge3Way], on token arrays. *)
Definition merge_tokens (tokensA tokensB tokensC : list token) : MergeState :=
  let b := extract_changes (diff2 tokensA tokensB) in
  let c := extract_changes (diff2 tokensA tokensC) in
  let start :=
    if nonempty (insertionAtStart b) || nonempty (insertionAtStart c)
    then insertionAtStart b ++ insertionAtStart c else [] in
  merge_loop (changes b) (changes c) (mkState start false []) 0 tokensA.

Definition wordMerge3Way (a b c : string) : WordMergeResult :=
  let st := merge_tokens (tokenize a) (tokenize b) (tokenize c) in
  mkResult (join (st_merged st)) (st_hasConflict st) (st_ranges st).

Definition canMergeWithoutConflict (a b c : string) : bool :=
  negb (hasConflict (wordMerge3Way a b c)).

(** *** Notions used to state the properties of the merge

    What one turn of the merging loop appends for the A-token at [i]: the
    token itself, then the insertions recorded after it. *)
Definition kept_part (bChanges cChanges : gmap nat ChangeInfo) (i : nat)
    (aToken : token) : list token :=
  if deleted_at bChanges i || deleted_at cChanges i then [] else [aToken].

Definition inserted_part (bChanges cChanges : gmap nat ChangeInfo) (i : nat)
    : list token :=
  let bInsertAfter := insertAfter_at bChanges i in
  let cInsertAfter := insertAfter_at cChanges i in
  if insertions_conflict bInsertAfter cInsertAfter
  then [conflict_marker (join bInsertAfter) (join cInsertAfter)]
  else bInsertAfter ++ cInsertAfter.

Fixpoint expected_from (bChanges cChanges : gmap nat ChangeInfo) (i : nat)
    (tokensA : list token) : list token :=
  match tokensA with
  | [] => []
  | aToken :: rest =>
      kept_part bChanges cChanges i aToken ++ inserted_part bChanges cChanges i
      ++ expected_from bChanges cChanges (S i) rest
  end.

Definition conflict_at (bChanges cChanges : gmap nat ChangeInfo) (i : nat) : bool :=
  insertions_conflict (insertAfter_at bChanges i) (insertAfter_at cChanges i).

Fixpoint ops_source (ops : list DiffOp) : list token :=
  match ops with
  | [] => []
  | op :: rest =>
      match op_type op with
      | Insert => ops_source rest
      | _ => op_tokens op ++ ops_source rest
      end
  end.

Fixpoint ops_target (ops : list DiffOp) : list token :=
  match ops with
  | [] => []
  | op :: rest =>
      match op_type op with
      | Delete => ops_target rest
      | _ => op_tokens op ++ ops_target rest
      end
  end.

Fixpoint deleted_positions (ops : list DiffOp) (idx : nat) : list nat :=
  match ops with
  | [] => []
  | op :: rest =>
      match op_type op with
      | Insert => deleted_positions rest idx
      | Delete =>
          seq idx (length (op_tokens op))
          ++ deleted_positions rest (idx + length (op_tokens op))
      | Keep => deleted_positions rest (idx + length (op_tokens op))
      end
  end.

(** The two literal insertion strings recorded when the insertions after the
    A-token at [i] conflict. *)
Definition conflict_contents (bChanges cChanges : gmap nat ChangeInfo) (i : nat)
    : list (string * string) :=
  if conflict_at bChanges cChanges i
  then [(join (insertAfter_at bChanges i), join (insertAfter_at cChanges i))]
  else [].

Definition range_contents (r : ConflictRange) : string * string :=
  (range_b r, range_c r).

(** The range [r] covers exactly one token of [tokens]: its inline marker. *)
Definition marks (tokens : list token) (r : ConflictRange) : Prop :=
  range_end r = range_start r + 1
  /\ tokens !! range_start r = Some (conflict_marker (range_b r) (range_c r)).

(** The shape of the edit scripts [diff2] returns: no operation is empty,
    and an insertion never follows an insertion directly. *)
Fixpoint well_shaped (after_insert : bool) (ops : list DiffOp) : bool :=
  match ops with
  | [] => true
  | op :: rest =>
      nonempty (op_tokens op) &&
      match op_type op with
      | Insert => negb after_insert && well_shaped true rest
      | _ => well_shaped false rest
      end
  end.

(** The positions at which the token arrays [xs] and [ys] differ, and
    whether a token is a word (a run of word characters). *)
Definition changed_positions (xs ys : list token) : list nat :=
  filter (fun i => xs !! i <> ys !! i) (seq 0 (length xs)).

Definition is_word (t : token) : bool :=
  match t with String ch _ => isWordChar ch | EmptyString => false end.

(** [b] and [c] change disjoint word tokens of [a]: both keep the number of
    tokens of [a], replace words by words, and no position is changed by
    both. *)
Definition change_disjoint_words (a b c : string) : bool :=
  let tokensA := tokenize a in
  let tokensB := tokenize b in
  let tokensC := tokenize c in
  let word_at (xs : list token) (i : nat) :=
    match xs !! i with Some t => is_word t | None => false end in
  let bChanged := changed_positions tokensA tokensB in
  let cChanged := changed_positions tokensA tokensC in
  (length tokensB =? length tokensA)%nat
  && (length tokensC =? length tokensA)%nat
  && nonempty bChanged && nonempty cChanged
  && forallb (fun i => word_at tokensA i && word_at tokensB i) bChanged
  && forallb (fun i => word_at tokensA i && word_at tokensC i) cChanged
  && forallb (fun i => negb (bool_decide (i ∈ cChanged))) bChanged.

(** The side [b] replaces a single token of [a], or it puts in nothing but
    tokens that occur nowhere in [a]. *)
Definition single_or_fresh (a b : string) : bool :=
  let tokensA := tokenize a in
  let tokensB := tokenize b in
  let changed := changed_positions tokensA tokensB in
  (length changed =? 1)%nat
  || forallb (fun i => match tokensB !! i with
                       | Some t => negb (bool_decide (t ∈ tokensA))
                       | None => true
                       end) changed.

(** For two token arrays of one length: the tokens they have in common
    place by place, and the edit script that keeps those and replaces every
    other token of [xs] by the token of [ys] in its place. *)
Definition common_tokens (xs ys : list token) : list token :=
  fst <$> filter (fun xy => xy.1 = xy.2) (zip xs ys).

Definition replace_script (xs ys : list token) : list DiffOp :=
  flat_map (fun xy => if bool_decide (xy.1 = xy.2) then [mkDiffOp Keep [xy.1]]
                      else [mkDiffOp Delete [xy.1]; mkDiffOp Insert [xy.2]])
    (zip xs ys).

(** *** Invariants of the loop of [extract_changes] *)

(** [tracks st src]: the state has walked the A-tokens [src], and holds no
    entry at or beyond its index. *)
Definition tracks (st : Changes) (src : list token) : Prop :=
  aIdx st = length src /\ forall k, aIdx st <= k -> changes st !! k = None.

(** [settled st src]: nothing is recorded yet at the current insertion point. *)
Definition settled (st : Changes) (src : list token) : Prop :=
  (src = [] -> insertionAtStart st = [])
  /\ forall i, S i = aIdx st -> insertAfter_at (changes st) i = [].

Definition rendered (st : Changes) (src : list token) : list token :=
  insertionAtStart st ++ expected_from (changes st) ∅ 0 src.

(** [fresh_from st]: no entry at or beyond the running index. *)
Definition fresh_from (st : Changes) : Prop :=
  forall k, aIdx st <= k -> changes st !! k = None.

(** An edit script without insertions. *)
Definition no_insert (ops : list DiffOp) : bool :=
  forallb (fun op => negb (bool_decide (op_type op = Insert))) ops.

(** The length of a longest common subsequence by its recurrence, on
    sequences written last token first (the prefixes the table [dp] is
    indexed by), and the row of the table for one prefix of [a]: the values
    of [G] on the prefixes of [b] that extend [yb] by the tokens of [rest]. *)
Fixpoint lcs_length (x y : list token) {struct x} : nat :=
  match x with
  | [] => 0
  | cx :: x' =>
      (fix inner (y : list token) : nat :=
         match y with
         | [] => 0
         | cy :: y' =>
             if bool_decide (cx = cy) then S (lcs_length x' y')
             else Nat.max (lcs_length x' y) (inner y')
         end) y
  end.

Fixpoint dp_row_of (G : list token -> nat) (yb : list token) (rest : list token)
    : list nat :=
  G yb ::
  match rest with
  | t :: rest' => dp_row_of G (t :: yb) rest'
  | [] => []
  end.

End WordMerge.

(** ** Data model (types/index.ts) *)

Module Types.

Inductive Metadata :=
| Heading (level : nat)
| ListItem (ordered : bool)
| CodeBlock
| ConflictMarker (conflictId : string).

Record SemanticUnit := mkUnit {
  content : string;
  hash : string;
  index : nat;
  start : nat;
  end_ : nat;
  prefix : string;
  suffix : string;
  metadata : option Metadata
}.

Inductive PairType := Match | Modification | Insertion | Deletion.

(** [source] and [target] are [null] when [None]. *)
Record AlignedPair := mkPair {
  source : option SemanticUnit;
  target : option SemanticUnit;
  similarity : float;
  type : PairType
}.

Record AlignmentResult := mkAlignment {
  pairs : list AlignedPair;
  unmatchedSource : list SemanticUnit;
  unmatchedTarget : list SemanticUnit
}.

Inductive Strategy := Sequential | Semantic | Hybrid.

(** [AlignmentOptions]: every field is optional. *)
Record AlignmentOptions := mkOptions {
  strategy : option Strategy;
  matchThreshold : option float
}.

#[global] Instance Metadata_eq_dec : EqDecision Metadata.
Proof. solve_decision. Defined.

#[global] Instance PairType_eq_dec : EqDecision PairType.
Proof. solve_decision. Defined.

#[global] Instance SemanticUnit_eq_dec : EqDecision SemanticUnit.
Proof. solve_decision. Defined.

(** The invariant of the data model on the shape of a pair. *)
Definition well_shaped_pair (p : AlignedPair) : Prop :=
  match type p with
  | Insertion => source p = None /\ is_Some (target p)
  | Deletion => is_Some (source p) /\ target p = None
  | Match | Modification => is_Some (source p) /\ is_Some (target p)
  end.

End Types.

(** ** Similarity (utils/similarity.ts) *)

Module Similarity.
Import JS.
Local Open Scope float_scope.

(** The loop of [cosineSimilarity] with its accumulators [dotProduct],
    [normA] and [normB]; the two arrays have the same length. *)
Fixpoint cosine_sums (a b : list float) (dotProduct normA normB : float)
    : float * float * float :=
  match a, b with
  | aVal :: a', bVal :: b' =>
      cosine_sums a' b' (dotProduct + aVal * bVal)
        (normA + aVal * aVal) (normB + bVal * bVal)
  | _, _ => (dotProduct, normA, normB)
  end.

Definition cosineSimilarity (a b : list float) : result float :=
  if negb (length a =? length b)%nat then
    Throw ("Vector dimensions must match: " +:+ pretty (length a) +:+ " vs "
           +:+ pretty (length b))
  else
    let '(dotProduct, normA, normB) := cosine_sums a b 0 0 0 in
    let magnitude := sqrt normA * sqrt normB in
    if magnitude =? 0 then Ok 0 else Ok (dotProduct / magnitude).

(** The dot product and the sums of squares the loop accumulates, each on
    its own. *)
Definition dot_product (a b : list float) : float :=
  foldl (fun acc '(x, y) => acc + x * y) 0 (zip a b).

Definition sum_squares (v : list float) : float :=
  foldl (fun acc x => acc + x * x) 0 v.

Definition is_zero (x : float) : Prop := x = 0 \/ x = -0.

(** A number that is neither NaN nor an infinity. *)
Definition is_finite (x : float) : bool :=
  match classify x with
  | NaN | PInf | NInf => false
  | _ => true
  end.

(** *** levenshteinDistance

    The cells [1], [2], ... of row [i] of [matrix], for the code unit
    [b.charAt(i - 1)]: [a] is the part of [a] that is left, [prev] the part
    of row [i - 1] from the diagonal cell on, [left] the cell just filled. *)
Fixpoint lev_row (bc : ascii) (a : string) (prev : list nat) (left : nat)
    : list nat :=
  match a, prev with
  | String ac a', diag :: ((up :: _) as prev') =>
      let v :=
        if bool_decide (bc = ac) then diag
        else Nat.min (diag + 1)%nat (Nat.min (left + 1)%nat (up + 1)%nat) in
      v :: lev_row bc a' prev' v
  | _, _ => []
  end.

(** Rows [i], [i + 1], ...: row [i] starts with the cell [matrix[i][0] = i]. *)
Fixpoint lev_rows (a b : string) (i : nat) (prev : list nat)
    : list (list nat) :=
  match b with
  | EmptyString => []
  | String bc b' =>
      let row := i :: lev_row bc a prev i in
      row :: lev_rows a b' (S i) row
  end.

(** Row 0 is [0, 1, ..., a.length]. *)
Definition lev_matrix (a b : string) : list (list nat) :=
  let row0 := seq 0%nat (S (String.length a)) in
  row0 :: lev_rows a b 1%nat row0.

Definition lev_cell (a b : string) (i j : nat) : nat :=
  default 0%nat (lev_matrix a b !! i ≫= (.!! j)).

(** [matrix[b.length]![a.length]!] *)
Definition levenshteinDistance (a b : string) : nat :=
  lev_cell a b (String.length b) (String.length a).

(** *** Notions used to state the properties of the distance

    The edit distance by its recurrence, on sequences written last code
    unit first (the prefixes the matrix is indexed by), and the row of the
    matrix for one prefix of [b]: the values of [G] on the prefixes of [a]
    that extend [ya] by the code units of [rest]. *)
Fixpoint edit_distance (x y : list ascii) {struct x} : nat :=
  match x with
  | [] => length y
  | cx :: x' =>
      (fix inner (y : list ascii) : nat :=
         match y with
         | [] => length x
         | cy :: y' =>
             if bool_decide (cx = cy) then edit_distance x' y'
             else S (Nat.min (edit_distance x' y')
                       (Nat.min (inner y') (edit_distance x' y)))
         end) y
  end.

Fixpoint row_of (G : list ascii -> nat) (ya : list ascii) (rest : string)
    : list nat :=
  G ya ::
  match rest with
  | String ac rest' => row_of G (ac :: ya) rest'
  | EmptyString => []
  end.

End Similarity.

(** ** Alignment (alignment/index.ts) *)

Module Alignment.
Import JS Types Similarity.

(** [DEFAULT_OPTIONS] and [{ ...DEFAULT_OPTIONS, ...options }]. *)
Record ResolvedOptions := mkResolved {
  opt_strategy : Strategy;
  opt_matchThreshold : float
}.

Definition resolve_options (options : AlignmentOptions) : ResolvedOptions :=
  mkResolved (default Hybrid (strategy options))
    (default 0.75%float (matchThreshold options)).

(** [similarityMatrix[i]![j]!]; a cell that is missing reads as NaN, which
    like [undefined] fails every comparison. *)
Definition sim_at (similarityMatrix : list (list float)) (i j : nat) : float :=
  default nan (similarityMatrix !! i ≫= (.!! j)).

(** *** sequentialAlign *)

(** The entries of the [backtrack] table; [NoAction] is the empty string. *)
Inductive Action := NoAction | ActMatch | ActDelete | ActInsert.

#[global] Instance Action_eq_dec : EqDecision Action.
Proof. solve_decision. Defined.

(** A cell of the two tables [dp] and [backtrack]. *)
Record Cell := mkCell { score : float; action : Action }.

(** [dp[i]?.[j] ?? 0] on a row, and on the table. *)
Definition row_score (row : list Cell) (j : nat) : float :=
  default 0%float (score <$> row !! j).

Definition dp_at (table : list (list Cell)) (i j : nat) : float :=
  default 0%float (score <$> (table !! i ≫= (.!! j))).

(** [backtrack[i]?.[j]] *)
Definition action_at (table : list (list Cell)) (i j : nat) : Action :=
  default NoAction (action <$> (table !! i ≫= (.!! j))).

(** The three-way choice of the inner loop, with its tie-break. *)
Definition choose (matchScore deleteScore insertScore : float) : Cell :=
  if (deleteScore <=? matchScore)%float && (insertScore <=? matchScore)%float
  then mkCell matchScore ActMatch
  else if (insertScore <=? deleteScore)%float
  then mkCell deleteScore ActDelete
  else mkCell insertScore ActInsert.

Definition matchPenalty : float := (-0.5)%float.
Definition gapPenalty : float := 0x1.999999999999ap-4%float.

Definition fill_cell (matchThreshold sim diagonal up left : float) : Cell :=
  let matchScore :=
    (diagonal + (if matchThreshold <=? sim then sim else matchPenalty))%float in
  let deleteScore := (up - gapPenalty)%float in
  let insertScore := (left - gapPenalty)%float in
  choose matchScore deleteScore insertScore.

(** The cells [j], [j+1], ... of row [i] ([cols] of them), from row [i-1]
    and the cell to the left. *)
Fixpoint fill_row (similarityMatrix : list (list float)) (matchThreshold : float)
    (i : nat) (prev : list Cell) (j cols : nat) (left : Cell) : list Cell :=
  match cols with
  | 0 => []
  | S cols' =>
      let cell :=
        fill_cell matchThreshold (sim_at similarityMatrix (i - 1) (j - 1))
          (row_score prev (j - 1)) (row_score prev j) (score left) in
      cell :: fill_row similarityMatrix matchThreshold i prev (S j) cols' cell
  end.

(** Row [i >= 1]: [dp[i][0]] stays 0 and [backtrack[i][0]] is "delete". *)
Definition table_row (similarityMatrix : list (list float)) (matchThreshold : float)
    (n i : nat) (prev : list Cell) : list Cell :=
  let first := mkCell 0%float ActDelete in
  first :: fill_row similarityMatrix matchThreshold i prev 1 n first.

Fixpoint fill_rows (similarityMatrix : list (list float)) (matchThreshold : float)
    (n i rows : nat) (prev : list Cell) : list (list Cell) :=
  match rows with
  | 0 => []
  | S rows' =>
      let row := table_row similarityMatrix matchThreshold n i prev in
      row :: fill_rows similarityMatrix matchThreshold n (S i) rows' row
  end.

(** Row 0: [dp[0][j]] is 0, [backtrack[0][0]] is empty and [backtrack[0][j]]
    is "insert". *)
Definition row_zero (n : nat) : list Cell :=
  mkCell 0%float NoAction :: replicate n (mkCell 0%float ActInsert).

Definition fill_table (similarityMatrix : list (list float)) (matchThreshold : float)
    (m n : nat) : list (list Cell) :=
  row_zero n :: fill_rows similarityMatrix matchThreshold n 1 m (row_zero n).

(** A pair as the loops build it.  Its [source] and [target] fields are
    references to objects of the arrays [source] and [target]: beside the
    pair with the fields of the two units, the model keeps the index each
    reference was read at ([source[i - 1]] and [target[j - 1]]), which is
    what [hybridAlign] hands to [indexOf]. *)
Record PairObject := mkObject {
  pair_of : AlignedPair;
  source_ref : option nat;
  target_ref : option nat
}.

(** The loop [while (i > 0 || j > 0)]: every turn lowers [i + j]. *)
Fixpoint seq_backtrack (fuel : nat) (source target : list SemanticUnit)
    (similarityMatrix : list (list float)) (matchThreshold : float)
    (table : list (list Cell)) (i j : nat) (acc : list PairObject)
    : list PairObject :=
  match fuel with
  | 0 => acc
  | S fuel' =>
      if (0 <? i)%nat || (0 <? j)%nat then
        let act := action_at table i j in
        if bool_decide (act = ActMatch) && (0 <? i)%nat && (0 <? j)%nat then
          let sim := sim_at similarityMatrix (i - 1) (j - 1) in
          seq_backtrack fuel' source target similarityMatrix matchThreshold table
            (i - 1) (j - 1)
            (mkObject
               (mkPair (source !! (i - 1)) (target !! (j - 1)) sim
                  (if (matchThreshold <=? sim)%float then Match else Modification))
               (Some (i - 1)) (Some (j - 1))
             :: acc)
        else if bool_decide (act = ActDelete) && (0 <? i)%nat then
          seq_backtrack fuel' source target similarityMatrix matchThreshold table
            (i - 1) j
            (mkObject (mkPair (source !! (i - 1)) None 0%float Deletion)
               (Some (i - 1)) None
             :: acc)
        else if (0 <? j)%nat then
          seq_backtrack fuel' source target similarityMatrix matchThreshold table
            i (j - 1)
            (mkObject (mkPair None (target !! (j - 1)) 0%float Insertion)
               None (Some (j - 1))
             :: acc)
        else acc
      else acc
  end.

(** The array [pairs] at the end of the loop. *)
Definition sequential_pairs (source target : list SemanticUnit)
    (similarityMatrix : list (list float)) (opts : ResolvedOptions)
    : list PairObject :=
  let m := length source in
  let n := length target in
  let table := fill_table similarityMatrix (opt_matchThreshold opts) m n in
  seq_backtrack (m + n) source target similarityMatrix
    (opt_matchThreshold opts) table m n [].

Definition sequentialAlign (source target : list SemanticUnit)
    (similarityMatrix : list (list float)) (opts : ResolvedOptions)
    : AlignmentResult :=
  mkAlignment
    (map pair_of (sequential_pairs source target similarityMatrix opts))
    [] [].

(** *** Array.prototype.sort

    A stable sort; [after x y] says that the comparator is positive on
    [(x, y)], so that [x] has to come after [y]. *)
Fixpoint sort_insert {A} (after : A -> A -> bool) (x : A) (sorted : list A)
    : list A :=
  match sorted with
  | [] => [x]
  | y :: rest =>
      if after y x then x :: sorted else y :: sort_insert after x rest
  end.

Definition stable_sort {A} (after : A -> A -> bool) (l : list A) : list A :=
  foldl (fun sorted x => sort_insert after x sorted) [] l.

(** *** semanticAlign *)

Record Candidate := mkCandidate { cand_i : nat; cand_j : nat; cand_sim : float }.

(** The two nested loops collecting the candidates. *)
Definition candidates_of (m n : nat) (similarityMatrix : list (list float))
    (matchThreshold : float) : list Candidate :=
  flat_map (fun i =>
    flat_map (fun j =>
      let sim := sim_at similarityMatrix i j in
      if (matchThreshold <=? sim)%float then [mkCandidate i j sim] else [])
      (seq 0 n))
    (seq 0 m).

(** [candidates.sort((a, b) => b.sim - a.sim)] *)
Definition sort_candidates (candidates : list Candidate) : list Candidate :=
  stable_sort (fun a b => (0 <? cand_sim b - cand_sim a)%float) candidates.

Record Greedy := mkGreedy {
  g_pairs : list AlignedPair;
  matchedSource : gset nat;
  matchedTarget : gset nat
}.

Definition greedy_step (source target : list SemanticUnit) (g : Greedy)
    (c : Candidate) : Greedy :=
  if bool_decide (cand_i c ∉ matchedSource g)
     && bool_decide (cand_j c ∉ matchedTarget g)
  then mkGreedy
         (g_pairs g ++
          [mkPair (source !! cand_i c) (target !! cand_j c) (cand_sim c)
             (if (0x1.fae147ae147aep-1 <=? cand_sim c)%float then Match
              else Modification)])
         ({[cand_i c]} ∪ matchedSource g) ({[cand_j c]} ∪ matchedTarget g)
  else g.

(** [a.target?.index ?? a.source?.index ?? 0] *)
Definition pair_position (p : AlignedPair) : nat :=
  match target p with
  | Some t => index t
  | None => match source p with Some s => index s | None => 0 end
  end.

Definition semanticAlign (source target : list SemanticUnit)
    (similarityMatrix : list (list float)) (opts : ResolvedOptions)
    : AlignmentResult :=
  let candidates :=
    sort_candidates
      (candidates_of (length source) (length target) similarityMatrix
         (opt_matchThreshold opts)) in
  let g := foldl (greedy_step source target) (mkGreedy [] ∅ ∅) candidates in
  let deletions :=
    flat_map (fun i =>
      if bool_decide (i ∉ matchedSource g)
      then [mkPair (source !! i) None 0%float Deletion] else [])
      (seq 0 (length source)) in
  let insertions :=
    flat_map (fun j =>
      if bool_decide (j ∉ matchedTarget g)
      then [mkPair None (target !! j) 0%float Insertion] else [])
      (seq 0 (length target)) in
  mkAlignment
    (stable_sort (fun a b => (pair_position b <? pair_position a)%nat)
       (g_pairs g ++ deletions ++ insertions))
    [] [].

(** *** hybridAlign

    The pairs of the sequential result are objects that the arrays
    [deletions] and [insertions] share with [seqResult.pairs]: the store is
    the array of pairs, and a reference to a pair is an index into it. *)
Definition refs_of_type (t : PairType) (store : list PairObject) : list nat :=
  filter (fun k => type <$> (pair_of <$> store !! k) = Some t)
    (seq 0 (length store)).

(** [arr.indexOf(x)] for the object [x] that was read at [arr[ref]], [None]
    for -1.  [indexOf] compares objects by identity, and an array may hold
    one object at several indices or two objects with the same fields:
    [address k] is the address of the object at index [k] of the array, and
    the result is the first index that holds the object of index [ref]. *)
Definition indexOf_object (address : nat -> nat) (len ref : nat) : option nat :=
  fst <$> list_find (fun k => address k = address ref) (seq 0 len).

(** An array built by pushing a new object at every index, as [segment]
    builds its units: no two indices hold the same object. *)
Definition distinct_objects : nat -> nat := fun k => k.

(** The body of the inner loop, for the deletion at [del] and the insertion
    at [ins]. *)
Definition move_step (sourceAddress targetAddress : nat -> nat)
    (source target : list SemanticUnit)
    (similarityMatrix : list (list float)) (matchThreshold : float)
    (del : nat) (store : list PairObject) (ins : nat) : list PairObject :=
  match store !! del, store !! ins with
  | Some delPair, Some insPair =>
      match Types.source (pair_of delPair), source_ref delPair,
            Types.target (pair_of insPair), target_ref insPair with
      | Some delSource, Some delSourceAt, Some insTarget, Some insTargetAt =>
          match indexOf_object sourceAddress (length source) delSourceAt,
                indexOf_object targetAddress (length target) insTargetAt with
          | Some srcIdx, Some tgtIdx =>
              let sim := sim_at similarityMatrix srcIdx tgtIdx in
              if (matchThreshold <=? sim)%float then
                let store1 :=
                  <[del := mkObject
                             (mkPair (Some delSource) (Some insTarget) sim
                                Modification)
                             (Some delSourceAt) (Some insTargetAt)]> store in
                match store1 !! ins with
                | Some insPair1 =>
                    <[ins := mkObject
                               (mkPair (Some delSource)
                                  (Types.target (pair_of insPair1))
                                  (similarity (pair_of insPair1)) Modification)
                               (Some delSourceAt) (target_ref insPair1)]> store1
                | None => store1
                end
              else store
          | _, _ => store
          end
      | _, _, _, _ => store
      end
  | _, _ => store
  end.

Definition detect_moves (sourceAddress targetAddress : nat -> nat)
    (source target : list SemanticUnit)
    (similarityMatrix : list (list float)) (matchThreshold : float)
    (store : list PairObject) : list PairObject :=
  let deletions := refs_of_type Deletion store in
  let insertions := refs_of_type Insertion store in
  foldl (fun st del =>
           foldl (move_step sourceAddress targetAddress source target
                    similarityMatrix matchThreshold del)
             st insertions)
    store deletions.

(** [`${p.source?.hash ?? "null"}-${p.target?.hash ?? "null"}`] *)
Definition pair_key (p : AlignedPair) : string :=
  let part (u : option SemanticUnit) :=
    match u with Some v => hash v | None => "null" end in
  part (source p) +:+ "-" +:+ part (target p).

Fixpoint dedupe (seen : gset string) (ps : list AlignedPair) : list AlignedPair :=
  match ps with
  | [] => []
  | p :: rest =>
      if bool_decide (pair_key p ∈ seen) then dedupe seen rest
      else p :: dedupe ({[pair_key p]} ∪ seen) rest
  end.

Definition hybridAlign (sourceAddress targetAddress : nat -> nat)
    (source target : list SemanticUnit)
    (similarityMatrix : list (list float)) (opts : ResolvedOptions)
    : AlignmentResult :=
  let seqPairs := sequential_pairs source target similarityMatrix opts in
  let store :=
    detect_moves sourceAddress targetAddress source target similarityMatrix
      (opt_matchThreshold opts) seqPairs in
  mkAlignment (dedupe ∅ (map pair_of store)) [] [].

(** *** align *)

(** The embedding provider: [embed(texts)], which may fail. *)
Definition EmbeddingProvider := list string -> result (list (list float)).

(** One row of the similarity matrix; [cosineSimilarity] may throw. *)
Fixpoint matrix_row (srcEmb : option (list float))
    (targetEmbeddings : list (list float)) (n j : nat)
    : result (list float) :=
  match n with
  | 0 => Ok []
  | S n' =>
      let cell :=
        match srcEmb, targetEmbeddings !! j with
        | Some s, Some t => cosineSimilarity s t
        | _, _ => Ok 0%float
        end in
      match cell with
      | Throw message => Throw message
      | Ok v =>
          match matrix_row srcEmb targetEmbeddings n' (S j) with
          | Throw message => Throw message
          | Ok row => Ok (v :: row)
          end
      end
  end.

Fixpoint matrix_rows (sourceEmbeddings targetEmbeddings : list (list float))
    (m n i : nat) : result (list (list float)) :=
  match m with
  | 0 => Ok []
  | S m' =>
      match matrix_row (sourceEmbeddings !! i) targetEmbeddings n 0 with
      | Throw message => Throw message
      | Ok row =>
          match matrix_rows sourceEmbeddings targetEmbeddings m' n (S i) with
          | Throw message => Throw message
          | Ok rows => Ok (row :: rows)
          end
      end
  end.

(** [align]; [sourceAddress] and [targetAddress] give the addresses of the
    objects of the two arrays, for [indexOf] in [hybridAlign]. *)
Definition align (sourceAddress targetAddress : nat -> nat)
    (source target : list SemanticUnit)
    (options : AlignmentOptions) (provider : EmbeddingProvider)
    : result AlignmentResult :=
  let opts := resolve_options options in
  match source, target with
  | [], [] => Ok (mkAlignment [] [] [])
  | [], _ =>
      Ok (mkAlignment
            (map (fun t => mkPair None (Some t) 0%float Insertion) target)
            [] [])
  | _, [] =>
      Ok (mkAlignment
            (map (fun s => mkPair (Some s) None 0%float Deletion) source)
            [] [])
  | _, _ =>
      match provider (map content source ++ map content target) with
      | Throw message => Throw message
      | Ok allEmbeddings =>
          let sourceEmbeddings := take (length source) allEmbeddings in
          let targetEmbeddings := drop (length source) allEmbeddings in
          match matrix_rows sourceEmbeddings targetEmbeddings
                  (length source) (length target) 0 with
          | Throw message => Throw message
          | Ok similarityMatrix =>
              Ok match opt_strategy opts with
                 | Sequential =>
                     sequentialAlign source target similarityMatrix opts
                 | Semantic =>
                     semanticAlign source target similarityMatrix opts
                 | Hybrid =>
                     hybridAlign sourceAddress targetAddress source target
                       similarityMatrix opts
                 end
          end
      end
  end.

(** *** Notions used to state the properties of the alignment

    [from_match_cell]: the pair [p] was read off a cell [(i, j)] whose
    backtrack entry is "match", and is tagged by the threshold rule. *)
Definition from_match_cell (source target : list SemanticUnit)
    (similarityMatrix : list (list float)) (matchThreshold : float)
    (table : list (list Cell)) (p : AlignedPair) : Prop :=
  exists i j,
    1 <= i <= length source /\ 1 <= j <= length target
    /\ action_at table i j = ActMatch
    /\ Types.source p = source !! (i - 1)
    /\ Types.target p = target !! (j - 1)
    /\ similarity p = sim_at similarityMatrix (i - 1) (j - 1)
    /\ type p = (if (matchThreshold <=? similarity p)%float
                 then Match else Modification).

Definition tagged_by_rule (source target : list SemanticUnit)
    (similarityMatrix : list (list float)) (matchThreshold : float)
    (table : list (list Cell)) (p : AlignedPair) : Prop :=
  match type p with
  | Match | Modification =>
      from_match_cell source target similarityMatrix matchThreshold table p
  | Insertion | Deletion => similarity p = 0%float
  end.

(** The pairs read off the table on the way back from the cell [(i, j)] to
    the cell [(0, 0)], in the order of the texts.  A cell whose entry is
    "match" gives the pair of [source[i - 1]] and [target[j - 1]], a
    [Match] when the similarity reaches the threshold and a [Modification]
    otherwise, and leads to [(i - 1, j - 1)]; an entry "delete" gives the
    deletion of [source[i - 1]] and leads to [(i - 1, j)]; an entry
    "insert" gives the insertion of [target[j - 1]] and leads to
    [(i, j - 1)]. *)
Inductive path_pairs (source target : list SemanticUnit)
    (similarityMatrix : list (list float)) (matchThreshold : float)
    (table : list (list Cell)) : nat -> nat -> list AlignedPair -> Prop :=
| path_start :
    path_pairs source target similarityMatrix matchThreshold table 0 0 []
| path_match i j ps :
    action_at table (S i) (S j) = ActMatch ->
    path_pairs source target similarityMatrix matchThreshold table i j ps ->
    path_pairs source target similarityMatrix matchThreshold table (S i) (S j)
      (ps ++ [mkPair (source !! i) (target !! j) (sim_at similarityMatrix i j)
                (if (matchThreshold <=? sim_at similarityMatrix i j)%float
                 then Match else Modification)])
| path_delete i j ps :
    action_at table (S i) j = ActDelete ->
    path_pairs source target similarityMatrix matchThreshold table i j ps ->
    path_pairs source target similarityMatrix matchThreshold table (S i) j
      (ps ++ [mkPair (source !! i) None 0%float Deletion])
| path_insert i j ps :
    action_at table i (S j) = ActInsert ->
    path_pairs source target similarityMatrix matchThreshold table i j ps ->
    path_pairs source target similarityMatrix matchThreshold table i (S j)
      (ps ++ [mkPair None (target !! j) 0%float Insertion]).

(** The pairs of [ps] whose key no earlier pair of [ps] has. *)
Definition first_of_key (ps : list AlignedPair) : list AlignedPair :=
  snd <$> filter (fun kp => pair_key kp.2 ∉ pair_key <$> take kp.1 ps)
            (imap pair ps).

(** The pair [semanticAlign] pushes for a candidate it accepts. *)
Definition candidate_pair (source target : list SemanticUnit) (c : Candidate)
    : AlignedPair :=
  mkPair (source !! cand_i c) (target !! cand_j c) (cand_sim c)
    (if (0x1.fae147ae147aep-1 <=? cand_sim c)%float then Match
     else Modification).

End Alignment.

(** ** Hashing (utils/hash.ts) *)

Module Hash.
Import JS.
Local Open Scope Z_scope.

(** One turn of the FNV-1a loop on 32-bit integers:
    [hash ^= code; hash = Math.imul(hash, 16777619)]. *)
Definition fnv_step (hash : Z) (c : ascii) : Z :=
  (Z.lxor hash (Z.of_nat (code c)) * 16777619) mod 2 ^ 32.

Fixpoint fnv_loop (input : string) (hash : Z) : Z :=
  match input with
  | EmptyString => hash
  | String c rest => fnv_loop rest (fnv_step hash c)
  end.

Definition hex_digit (d : Z) : ascii :=
  if d <? 10 then ascii_of_nat (Z.to_nat (48 + d))
  else ascii_of_nat (Z.to_nat (87 + d)).

(** [(hash >>> 0).toString(16).padStart(8, "0")] *)
Fixpoint hex_fixed (digits : nat) (n : Z) (acc : string) : string :=
  match digits with
  | O => acc
  | S digits' => hex_fixed digits' (n / 16) (String (hex_digit (n mod 16)) acc)
  end.

Definition createHash (input : string) : string :=
  hex_fixed 8 (fnv_loop input 2166136261) "".

(** [[0-9a-f]] *)
Definition isHexDigit (c : ascii) : bool :=
  in_range 48 57 c || in_range 97 102 c.

End Hash.

(** ** Segmentation (segmentation/index.ts) *)

Module Segmentation.
Import JS Types.

(** *** String.prototype.split with a regular expression

    [matcher prev2 prev1 rest] is the sticky match at the position whose
    two preceding code units are [prev2] and [prev1] and whose remaining
    text is [rest]: the length of the match, if there is one.  The loop is
    the one of the language definition: a non-empty match closes the piece
    and is skipped; an empty match closes a non-empty piece, and the code
    unit at the position opens the next one. *)
Fixpoint split_loop (matcher : option ascii -> option ascii -> string -> option nat)
    (rest : string) (prev2 prev1 : option ascii) (current : string)
    (skip : nat) (pieces : list string) : list string :=
  match rest with
  | EmptyString => pieces ++ [current]
  | String c rest' =>
      match skip with
      | S skip' =>
          split_loop matcher rest' prev1 (Some c) current skip' pieces
      | O =>
          match matcher prev2 prev1 rest with
          | Some (S len) =>
              split_loop matcher rest' prev1 (Some c) "" len (pieces ++ [current])
          | Some O =>
              split_loop matcher rest' prev1 (Some c) (char c) 0
                (if truthy current then pieces ++ [current] else pieces)
          | None =>
              split_loop matcher rest' prev1 (Some c) (current +:+ char c) 0 pieces
          end
      end
  end.

Definition split_regex (matcher : option ascii -> option ascii -> string -> option nat)
    (text : string) : list string :=
  split_loop matcher text None None "" 0 [].

(** The length of the run of white space at the head of a string. *)
Fixpoint space_run (s : string) : nat :=
  match s with
  | String c s' => if isSpace c then S (space_run s') else 0
  | EmptyString => 0
  end.

(** [[.!?]] *)
Definition isTerminator (c : ascii) : bool :=
  bool_decide (c = "."%char) || bool_decide (c = "!"%char)
  || bool_decide (c = "?"%char).

Definition after_terminator (prev1 : option ascii) : bool :=
  match prev1 with Some c => isTerminator c | None => false end.

Definition newline : ascii := ascii_of_nat 10.

(** [SENTENCE_BOUNDARY]:
    [(?<=[.!?])\s+(?=[A-Z])|(?<=[.!?])(?=\s*$)|(?<=\n\n)]. *)
Definition sentence_boundary (prev2 prev1 : option ascii) (rest : string)
    : option nat :=
  let run := space_run rest in
  if after_terminator prev1 && (0 <? run)%nat
     && match sdrop run rest with
        | String c _ => isUpper c
        | EmptyString => false
        end
  then Some run
  else if after_terminator prev1 && (run =? String.length rest)%nat
  then Some 0
  else if bool_decide (prev2 = Some newline) && bool_decide (prev1 = Some newline)
  then Some 0
  else None.

(** [ABBREVIATIONS] *)
Definition ABBREVIATIONS : list string :=
  ["Mr."; "Mrs."; "Ms."; "Dr."; "Prof."; "Sr."; "Jr."; "vs."; "etc."; "i.e.";
   "e.g."; "cf."; "al."; "Fig."; "fig."; "Vol."; "vol."; "No."; "no."; "pp.";
   "p."].

(** [/[\s,;:(]$/.test(s)] *)
Fixpoint ends_with_separator (s : string) : bool :=
  match s with
  | EmptyString => false
  | String c EmptyString =>
      isSpace c || bool_decide (c = ","%char) || bool_decide (c = ";"%char)
      || bool_decide (c = ":"%char) || bool_decide (c = "("%char)
  | String _ s' => ends_with_separator s'
  end.

Definition endsWithAbbr (buffer : string) : bool :=
  let trimmedBuffer := trimEnd buffer in
  existsb (fun abbr =>
    endsWith abbr trimmedBuffer
    && let beforeAbbr :=
         stake (String.length trimmedBuffer - String.length abbr) trimmedBuffer in
       ((String.length beforeAbbr =? 0)%nat || ends_with_separator beforeAbbr))
    ABBREVIATIONS.

(** The loop of [splitSentences] that joins the parts an abbreviation
    split, with its variables [sentences] and [buffer]. *)
Fixpoint merge_abbreviations (parts : list string) (sentences : list string)
    (buffer : string) : list string :=
  match parts with
  | [] => if truthy buffer then sentences ++ [buffer] else sentences
  | part :: rest =>
      let buffer' := buffer +:+ (if truthy buffer then " " else "") +:+ part in
      if endsWithAbbr buffer' then merge_abbreviations rest sentences buffer'
      else merge_abbreviations rest (sentences ++ [buffer']) ""
  end.

Definition keep_nonblank (parts : list string) : list string :=
  List.filter (fun s => truthy (trim s)) parts.

Definition splitSentences (text : string) : list string :=
  merge_abbreviations (keep_nonblank (split_regex sentence_boundary text)) [] "".

(** The position after the last line feed in the first [n] code units. *)
Fixpoint last_newline (n : nat) (s : string) : option nat :=
  match n, s with
  | S n', String c s' =>
      match last_newline n' s' with
      | Some k => Some (S k)
      | None => if bool_decide (c = newline) then Some 1 else None
      end
  | _, _ => None
  end.

(** [/\n\s*\n/] *)
Definition paragraph_boundary (prev2 prev1 : option ascii) (rest : string)
    : option nat :=
  match rest with
  | String c rest' =>
      if bool_decide (c = newline) then
        S <$> last_newline (space_run rest') rest'
      else None
  | EmptyString => None
  end.

Definition splitParagraphs (text : string) : list string :=
  keep_nonblank (split_regex paragraph_boundary text).

(** [text.split("\n")] and [lines.join("\n")] *)
Fixpoint split_lines (text : string) (current : string) : list string :=
  match text with
  | EmptyString => [current]
  | String c rest =>
      if bool_decide (c = newline) then current :: split_lines rest ""
      else split_lines rest (current +:+ char c)
  end.

Fixpoint join_lines (lines : list string) : string :=
  match lines with
  | [] => ""
  | [line] => line
  | line :: rest => line +:+ char newline +:+ join_lines rest
  end.

Fixpoint hash_run (s : string) : nat :=
  match s with
  | String c s' => if bool_decide (c = "#"%char) then S (hash_run s') else 0
  | EmptyString => 0
  end.

(** [/^#{1,6}\s/.test(s)] *)
Definition isHeading (s : string) : bool :=
  let k := hash_run s in
  (1 <=? k)%nat && (k <=? 6)%nat
  && match sdrop k s with String c _ => isSpace c | EmptyString => false end.

Fixpoint sections_loop (lines : list string) (sections : list string)
    (currentSection : list string) : list string :=
  match lines with
  | [] =>
      if nonempty currentSection then
        let content := trim (join_lines currentSection) in
        if truthy content then sections ++ [content] else sections
      else sections
  | line :: rest =>
      if isHeading line && nonempty currentSection then
        sections_loop rest (sections ++ [join_lines currentSection]) [line]
      else sections_loop rest sections (currentSection ++ [line])
  end.

Definition splitMarkdownSections (text : string) : list string :=
  sections_loop (split_lines text "") [] [].

(** *** splitPreservingCodeBlocks *)

Definition fence : string := "```".

Definition nul : ascii := ascii_of_nat 0.

(** ["\u0000CODE_BLOCK_"] *)
Definition placeholder : string := String nul "CODE_BLOCK_".

(** The lazy body of [/```[\s\S]*?```/]: the text up to and including the
    first closing fence of [s], and what follows it. *)
Fixpoint close_fence (s : string) (body : string) : option (string * string) :=
  if startsWith fence s then Some (body +:+ fence, sdrop 3 s)
  else match s with
       | String c s' => close_fence s' (body +:+ char c)
       | EmptyString => None
       end.

(** [text.replace(codeBlockPattern, ...)]: every code block, from left to
    right, gives way to its placeholder and joins [codeBlocks].  The fuel
    is the length of the text: each turn consumes at least one code unit. *)
Fixpoint extract_code_blocks (fuel : nat) (text : string)
    (codeBlocks : list string) (out : string) : string * list string :=
  match fuel with
  | O => (out +:+ text, codeBlocks)
  | S fuel' =>
      match text with
      | EmptyString => (out, codeBlocks)
      | String c rest =>
          match
            (if startsWith fence text then close_fence (sdrop 3 text) fence
             else None)
          with
          | Some (block, after) =>
              extract_code_blocks fuel' after (codeBlocks ++ [block])
                (out +:+ placeholder +:+ pretty (length codeBlocks) +:+ char nul)
          | None => extract_code_blocks fuel' rest codeBlocks (out +:+ char c)
          end
      end
  end.

(** [\d+] at the head of a string: its value and what follows. *)
Fixpoint digits_run (s : string) : string :=
  match s with
  | String c s' => if isDigit c then String c (digits_run s') else ""
  | EmptyString => ""
  end.

(** [parseInt(idx, 10)] on a run of digits *)
Definition parseInt (digits : string) : nat :=
  foldl (fun n c => 10 * n + (code c - 48)) 0 (list_ascii_of_string digits).

(** [part.replace(/\u0000CODE_BLOCK_(\d+)\u0000/g, ...)] *)
Fixpoint restore_code_blocks (fuel : nat) (part : string)
    (codeBlocks : list string) (out : string) : string :=
  match fuel with
  | O => out +:+ part
  | S fuel' =>
      match part with
      | EmptyString => out
      | String c rest =>
          let afterName := sdrop (String.length placeholder) part in
          let digits := digits_run afterName in
          let afterDigits := sdrop (String.length digits) afterName in
          if startsWith placeholder part && truthy digits
             && startsWith (char nul) afterDigits
          then
            restore_code_blocks fuel' (sdrop 1 afterDigits) codeBlocks
              (out +:+ default "" (codeBlocks !! parseInt digits))
          else restore_code_blocks fuel' rest codeBlocks (out +:+ char c)
      end
  end.

Definition splitPreservingCodeBlocks (text : string)
    (splitter : string -> list string) : list string :=
  let '(processedText, codeBlocks) :=
    extract_code_blocks (String.length text) text [] "" in
  map (fun part => restore_code_blocks (String.length part) part codeBlocks "")
    (splitter processedText).

(** *** segment *)

(** [toLowerCase] on the code units below 256. *)
Definition lower (c : ascii) : ascii :=
  if isUpper c || (in_range 192 222 c && negb (code c =? 215)%nat)
  then ascii_of_nat (code c + 32) else c.

Fixpoint toLowerCase (s : string) : string :=
  match s with
  | String c s' => String (lower c) (toLowerCase s')
  | EmptyString => EmptyString
  end.

(** [s.replace(/\s+/g, " ")] *)
Fixpoint collapse_spaces (s : string) (inRun : bool) : string :=
  match s with
  | String c s' =>
      if isSpace c then
        if inRun then collapse_spaces s' true
        else String " " (collapse_spaces s' true)
      else String c (collapse_spaces s' false)
  | EmptyString => EmptyString
  end.

(** [s.replace(/[^\w\s]/g, "")] *)
Fixpoint strip_punctuation (s : string) : string :=
  match s with
  | String c s' =>
      if isWordChar c || isSpace c then String c (strip_punctuation s')
      else strip_punctuation s'
  | EmptyString => EmptyString
  end.

Definition normalizeForHash (text : string) : string :=
  trim (strip_punctuation (collapse_spaces (toLowerCase text) false)).

(** [extractWhitespace]: the white space at the head, the white space at the
    tail, and the slice between them. *)
Definition extractWhitespace (text : string) : string * string * string :=
  let prefix := stake (space_run text) text in
  let suffix := sdrop (String.length (trimEnd text)) text in
  let content :=
    slice (String.length prefix) (String.length text - String.length suffix)
      text in
  (prefix, content, suffix).

Inductive Granularity := Sentence | Paragraph | Section | Clause.

Record SegmentationOptions := mkSegOptions {
  granularity : option Granularity;
  preserveMarkdown : option bool
}.

Definition default_options : SegmentationOptions := mkSegOptions None None.

Record SegmentationResult := mkSegmentation {
  units : list SemanticUnit;
  original : string
}.

(** The markdown tag of a unit, read off its trimmed content. *)
Definition markdown_metadata (normalizedContent : string) : option Metadata :=
  if isHeading normalizedContent then Some (Heading (hash_run normalizedContent))
  else if match normalizedContent with
          | String c (String d _) =>
              (bool_decide (c = "-"%char) || bool_decide (c = "*"%char)
               || bool_decide (c = "+"%char)) && isSpace d
          | _ => false
          end
  then Some (ListItem false)
  else if let digits := digits_run normalizedContent in
          truthy digits
          && match sdrop (String.length digits) normalizedContent with
             | String c (String d _) => bool_decide (c = "."%char) && isSpace d
             | _ => false
             end
  then Some (ListItem true)
  else if startsWith fence normalizedContent then Some CodeBlock
  else None.

(** The loop of [segment] over [rawParts], with its variables [units] and
    [currentOffset]. *)
Fixpoint segment_loop (text : string) (markdown : bool) (rawParts : list string)
    (units : list SemanticUnit) (currentOffset : nat)
    : list SemanticUnit * nat :=
  match rawParts with
  | [] => (units, currentOffset)
  | raw :: rest =>
      if negb (truthy raw) then
        segment_loop text markdown rest units currentOffset
      else
        match indexOf raw text currentOffset with
        | None => segment_loop text markdown rest units currentOffset
        | Some idx =>
            let '(prefix, content, suffix) := extractWhitespace raw in
            let normalizedContent := trim content in
            if negb (truthy normalizedContent) then
              segment_loop text markdown rest units currentOffset
            else
              let unit :=
                mkUnit normalizedContent
                  (Hash.createHash (normalizeForHash normalizedContent))
                  (length units) idx (idx + String.length raw)
                  (slice currentOffset idx text +:+ prefix) suffix
                  (if markdown then markdown_metadata normalizedContent
                   else None) in
              segment_loop text markdown rest (units ++ [unit])
                (idx + String.length raw)
        end
  end.

(** [lastUnit.suffix += text.slice(currentOffset)] *)
Definition append_suffix (u : SemanticUnit) (more : string) : SemanticUnit :=
  mkUnit (content u) (hash u) (index u) (start u) (end_ u) (prefix u)
    (suffix u +:+ more) (metadata u).

Definition segment (text : string) (options : SegmentationOptions)
    : SegmentationResult :=
  let markdown := default true (preserveMarkdown options) in
  let splitter :=
    match default Sentence (granularity options) with
    | Section => splitMarkdownSections
    | Paragraph => splitParagraphs
    | Sentence | Clause => splitSentences
    end in
  let rawParts :=
    if markdown then splitPreservingCodeBlocks text splitter
    else splitter text in
  let '(units, currentOffset) := segment_loop text markdown rawParts [] 0 in
  let units' :=
    match List.rev units with
    | lastUnit :: before =>
        if (currentOffset <? String.length text)%nat then
          List.rev before
          ++ [append_suffix lastUnit
                (sdrop currentOffset text)]
        else units
    | [] => units
    end in
  mkSegmentation units' text.

(** [reconstruct]: the loop with its variable [result]; [prev] is the unit
    before the current one, if any. *)
Fixpoint reconstruct_loop (units : list SemanticUnit)
    (prev : option SemanticUnit) (result : string) : string :=
  match units with
  | [] => result
  | unit :: rest =>
      let spacing :=
        match prev with
        | Some prevUnit =>
            if truthy result
               && negb (hasSpace (suffix prevUnit) || hasSpace (prefix unit))
            then " " else ""
        | None => ""
        end in
      reconstruct_loop rest (Some unit)
        (result +:+ spacing +:+ prefix unit +:+ content unit +:+ suffix unit)
  end.

Definition reconstruct (units : list SemanticUnit) : string :=
  reconstruct_loop units None "".

(** *** Notions used to state the properties of the segmentation

    The text a unit stands for, and whether every two neighbours have white
    space between them, so that [reconstruct] adds none. *)
Definition whole (u : SemanticUnit) : string :=
  prefix u +:+ content u +:+ suffix u.

(** What [segment] makes sure of for a unit of [text]: a content that is
    not empty and has no white space at its ends, the hash of that content,
    and offsets inside the text. *)
Definition unit_ok (text : string) (u : SemanticUnit) : Prop :=
  truthy (content u) = true /\ trim (content u) = content u
  /\ hash u = Hash.createHash (normalizeForHash (content u))
  /\ start u <= end_ u /\ end_ u <= String.length text.

Fixpoint well_spaced (units : list SemanticUnit) : bool :=
  match units with
  | u :: rest =>
      match rest with
      | v :: _ => hasSpace (suffix u) || hasSpace (prefix v)
      | [] => true
      end && well_spaced rest
  | [] => true
  end.

End Segmentation.

(** ** Three-way merge (merge/index.ts) *)

Module Merge.
Import JS Types Segmentation Alignment.

Inductive ConflictStrategy := PreferA | PreferB | PreferC | Concatenate | Defer.

#[global] Instance ConflictStrategy_eq_dec : EqDecision ConflictStrategy.
Proof. solve_decision. Defined.

Record MergeOptions := mkMergeOptions {
  conflictStrategy : option ConflictStrategy
}.

(** [normalizeStrategy] *)
Definition normalizeStrategy (strategy : option ConflictStrategy)
    : ConflictStrategy :=
  default PreferC strategy.

Record Conflict := mkConflict {
  id : string;
  conflict_a : string;
  conflict_b : string;
  conflict_c : string;
  context_before : string;
  context_after : string;
  aToB : float;
  aToC : float;
  bToC : float
}.

(** The [source] of a resolution: "base", "user", "ancestor", "merged" or
    "external". *)
Inductive ResolutionSource := Base | User | Ancestor | Merged | External.

#[global] Instance ResolutionSource_eq_dec : EqDecision ResolutionSource.
Proof. solve_decision. Defined.

Record Resolution := mkResolution {
  conflictId : string;
  resolved : string;
  resolution_source : ResolutionSource;
  confidence : float
}.

(** [stats]; its field [conflicts] is [stats_conflicts] here. *)
Record Stats := mkStats {
  unchanged : nat;
  upgraded : nat;
  preserved : nat;
  removed : nat;
  stats_conflicts : nat;
  autoResolved : nat
}.

Record MergeResult := mkMergeResult {
  merged : string;
  conflicts : list Conflict;
  resolutions : list Resolution;
  stats : Stats
}.

(** [formatConflictMarker] *)
Definition formatConflictMarker (conflict : Conflict) : string :=
  "<<<<<<< B" +:+ char newline +:+ conflict_b conflict +:+ char newline
  +:+ "=======" +:+ char newline +:+ conflict_c conflict +:+ char newline
  +:+ ">>>>>>> C".

(** [tryAutoResolve]; [None] is [null]. *)
Definition tryAutoResolve (conflict : Conflict) (strategy : ConflictStrategy)
    : option Resolution :=
  let bIsEmpty := negb (truthy (trim (conflict_b conflict))) in
  let cIsEmpty := negb (truthy (trim (conflict_c conflict))) in
  let similar := (0x1.e666666666666p-1 <? bToC conflict)%float in
  let bSubsumesC :=
    includes (conflict_c conflict) (conflict_b conflict) || similar in
  let cSubsumesB :=
    includes (conflict_b conflict) (conflict_c conflict) || similar in
  if negb bIsEmpty && negb cIsEmpty && bSubsumesC && negb cSubsumesB then
    Some (mkResolution (id conflict) (conflict_b conflict) Base
            0x1.ccccccccccccdp-1%float)
  else if negb bIsEmpty && negb cIsEmpty && cSubsumesB && negb bSubsumesC then
    Some (mkResolution (id conflict) (conflict_c conflict) User
            0x1.ccccccccccccdp-1%float)
  else
    match strategy with
    | PreferA =>
        Some (mkResolution (id conflict) (conflict_a conflict) Ancestor
                0x1.6666666666666p-1%float)
    | PreferB =>
        Some (mkResolution (id conflict) (conflict_b conflict) Base
                0x1.6666666666666p-1%float)
    | PreferC =>
        Some (mkResolution (id conflict) (conflict_c conflict) User
                0x1.6666666666666p-1%float)
    | Concatenate =>
        Some (mkResolution (id conflict)
                (conflict_b conflict +:+ char newline +:+ conflict_c conflict)
                Merged 0.5%float)
    | Defer => None
    end.

(** *** The variables of [merge] *)

Record State := mkMergeState {
  mergedUnits : list SemanticUnit;
  st_conflicts : list Conflict;
  st_resolutions : list Resolution;
  st_stats : Stats;
  processedBUnits : gset string;
  processedCUnits : gset string;
  generated : nat
}.

Definition push_unit (u : SemanticUnit) (st : State) : State :=
  mkMergeState (mergedUnits st ++ [u]) (st_conflicts st) (st_resolutions st)
    (st_stats st) (processedBUnits st) (processedCUnits st) (generated st).

Definition push_conflict (c : Conflict) (st : State) : State :=
  mkMergeState (mergedUnits st) (st_conflicts st ++ [c]) (st_resolutions st)
    (st_stats st) (processedBUnits st) (processedCUnits st) (generated st).

Definition push_resolution (r : Resolution) (st : State) : State :=
  mkMergeState (mergedUnits st) (st_conflicts st) (st_resolutions st ++ [r])
    (st_stats st) (processedBUnits st) (processedCUnits st) (generated st).

Definition with_stats (f : Stats -> Stats) (st : State) : State :=
  mkMergeState (mergedUnits st) (st_conflicts st) (st_resolutions st)
    (f (st_stats st)) (processedBUnits st) (processedCUnits st) (generated st).

Definition processB (h : string) (st : State) : State :=
  mkMergeState (mergedUnits st) (st_conflicts st) (st_resolutions st)
    (st_stats st) ({[h]} ∪ processedBUnits st) (processedCUnits st)
    (generated st).

Definition processC (h : string) (st : State) : State :=
  mkMergeState (mergedUnits st) (st_conflicts st) (st_resolutions st)
    (st_stats st) (processedBUnits st) ({[h]} ∪ processedCUnits st)
    (generated st).

Definition count_generated (st : State) : State :=
  mkMergeState (mergedUnits st) (st_conflicts st) (st_resolutions st)
    (st_stats st) (processedBUnits st) (processedCUnits st) (S (generated st)).

Definition inc_unchanged (s : Stats) : Stats :=
  mkStats (S (unchanged s)) (upgraded s) (preserved s) (removed s)
    (stats_conflicts s) (autoResolved s).
Definition inc_upgraded (s : Stats) : Stats :=
  mkStats (unchanged s) (S (upgraded s)) (preserved s) (removed s)
    (stats_conflicts s) (autoResolved s).
Definition inc_preserved (s : Stats) : Stats :=
  mkStats (unchanged s) (upgraded s) (S (preserved s)) (removed s)
    (stats_conflicts s) (autoResolved s).
Definition inc_removed (s : Stats) : Stats :=
  mkStats (unchanged s) (upgraded s) (preserved s) (S (removed s))
    (stats_conflicts s) (autoResolved s).
Definition inc_conflicts (s : Stats) : Stats :=
  mkStats (unchanged s) (upgraded s) (preserved s) (removed s)
    (S (stats_conflicts s)) (autoResolved s).
Definition inc_autoResolved (s : Stats) : Stats :=
  mkStats (unchanged s) (upgraded s) (preserved s) (removed s)
    (stats_conflicts s) (S (autoResolved s)).

(** [if (change?.target) processed.add(change.target.hash)] *)
Definition processB_target (change : option AlignedPair) (st : State) : State :=
  match change ≫= target with Some t => processB (hash t) st | None => st end.

Definition processC_target (change : option AlignedPair) (st : State) : State :=
  match change ≫= target with Some t => processC (hash t) st | None => st end.

(** The lookup maps [aToB] and [aToC]: a later pair replaces an earlier one
    with the same source hash. *)
Definition by_source_hash (ps : list AlignedPair) : gmap string AlignedPair :=
  foldl (fun m p =>
           match source p with Some s => <[hash s := p]> m | None => m end)
    ∅ ps.

(** [bChanged] and [cChanged] *)
Definition changed (aUnit : SemanticUnit) (change : option AlignedPair) : bool :=
  match change with
  | None => false
  | Some p =>
      bool_decide (type p = Modification) || bool_decide (type p = Deletion)
      || match target p with
         | Some t => negb (bool_decide (content t = content aUnit))
         | None => false
         end
  end.

(** The insertion that stands for the new content of a deleted unit: one
    at the same index, or else the first one not yet processed. *)
Definition find_insertion (ps : list AlignedPair) (processed : gset string)
    (aUnit : SemanticUnit) : option SemanticUnit :=
  let unprocessed (p : AlignedPair) : bool :=
    bool_decide (type p = Insertion)
    && match target p with
       | Some t => bool_decide (hash t ∉ processed)
       | None => false
       end in
  let sameIndex (p : AlignedPair) : bool :=
    unprocessed p
    && match target p with
       | Some t => (index t =? index aUnit)%nat
       | None => false
       end in
  match List.find sameIndex ps with
  | Some p => target p
  | None => List.find unprocessed ps ≫= target
  end.

(** The unit built for resolved content. *)
Definition resolvedUnit (content : string) (aUnit : SemanticUnit)
    (st : State) (meta : option Metadata) (hashed : string) : SemanticUnit :=
  mkUnit content (Hash.createHash hashed) (length (mergedUnits st)) 0
    (String.length content) (prefix aUnit) (suffix aUnit) meta.

Definition isDeletionWithoutTarget (change : option AlignedPair) : bool :=
  match change with
  | Some p =>
      bool_decide (type p = Deletion)
      && match target p with Some _ => false | None => true end
  | None => false
  end.

Definition change_content (change : option AlignedPair) : string :=
  match change ≫= target with Some t => content t | None => "" end.

Definition change_similarity (change : option AlignedPair) : float :=
  match change with Some p => similarity p | None => 0%float end.

Section MergeCall.
(** The i-th identifier [generateConflictId] returns during the call. *)
Variable generateConflictId : nat -> string.
Variable strategy : ConflictStrategy.
Variables abPairs acPairs : list AlignedPair.
Variable unitsC : list SemanticUnit.

(** Case 4 of the loop over the units of A: both sides changed. *)
Definition both_changed (aUnit : SemanticUnit)
    (bChange cChange : option AlignedPair) (st0 : State) : State :=
  let '(bContent, st1) :=
    if isDeletionWithoutTarget bChange then
      match find_insertion abPairs (processedBUnits st0) aUnit with
      | Some t => (content t, processB (hash t) st0)
      | None => (change_content bChange, st0)
      end
    else (change_content bChange, st0) in
  let '(cContent, st2) :=
    if isDeletionWithoutTarget cChange then
      match find_insertion acPairs (processedCUnits st1) aUnit with
      | Some t => (content t, processC (hash t) st1)
      | None => (change_content cChange, st1)
      end
    else (change_content cChange, st1) in
  let cRemovedUnit :=
    negb (truthy cContent)
    || match cChange with
       | Some p => (similarity p <? 0.5)%float
       | None => false
       end in
  let wordMergeResult := WordMerge.wordMerge3Way (content aUnit) bContent cContent in
  let wordMerged := WordMerge.merged wordMergeResult in
  let mergedEqualsB := bool_decide (wordMerged = bContent) in
  let mergedEqualsC := bool_decide (wordMerged = cContent) in
  let clean := negb (WordMerge.hasConflict wordMergeResult) in
  let isCleanMerge := clean && (mergedEqualsB || mergedEqualsC) in
  if clean && isCleanMerge then
    let mergedContent :=
      if bool_decide (strategy = PreferB) && mergedEqualsC && negb mergedEqualsB
      then bContent
      else if bool_decide (strategy = PreferC) && mergedEqualsB
              && negb mergedEqualsC
      then cContent
      else wordMerged in
    let st3 :=
      if truthy mergedContent then
        let st := push_unit (resolvedUnit mergedContent aUnit st2 None
                               (toLowerCase mergedContent)) st2 in
        if cRemovedUnit && mergedEqualsC then with_stats inc_removed st else st
      else if cRemovedUnit then with_stats inc_removed st2
      else st2 in
    processC_target cChange (with_stats inc_autoResolved st3)
  else if clean && bool_decide (strategy = Defer) then
    let st3 :=
      if truthy wordMerged then
        let st := push_unit (resolvedUnit wordMerged aUnit st2 None
                               (toLowerCase wordMerged)) st2 in
        count_generated
          (push_resolution
             (mkResolution (generateConflictId (generated st)) wordMerged Merged
                0x1.b333333333333p-1%float) st)
      else if cRemovedUnit then with_stats inc_removed st2
      else st2 in
    processC_target cChange (with_stats inc_autoResolved st3)
  else
    let st3 := with_stats inc_conflicts st2 in
    let conflict :=
      mkConflict (generateConflictId (generated st3)) (content aUnit) bContent
        cContent (prefix aUnit) (suffix aUnit) (change_similarity bChange)
        (change_similarity cChange) 0%float in
    let st4 := count_generated st3 in
    match tryAutoResolve conflict strategy with
    | Some resolution =>
        let st5 := with_stats inc_autoResolved (push_resolution resolution st4) in
        let st6 :=
          if truthy (resolved resolution) then
            let st := push_unit (resolvedUnit (resolved resolution) aUnit st5
                                   None (toLowerCase (resolved resolution))) st5 in
            if cRemovedUnit && bool_decide (resolution_source resolution = User)
            then with_stats inc_removed st else st
          else if cRemovedUnit then with_stats inc_removed st5
          else st5 in
        processC_target cChange (processB_target bChange st6)
    | None =>
        let st5 := push_conflict conflict st4 in
        let conflictMarker := formatConflictMarker conflict in
        let st6 :=
          push_unit (resolvedUnit conflictMarker aUnit st5
                       (Some (ConflictMarker (id conflict))) conflictMarker) st5 in
        processC_target cChange st6
    end.

(** One turn of the loop over the units of A. *)
Definition process_unit (aToB aToC : gmap string AlignedPair) (st : State)
    (aUnit : SemanticUnit) : State :=
  let bChange := aToB !! hash aUnit in
  let cChange := aToC !! hash aUnit in
  let bChanged := changed aUnit bChange in
  let cChanged := changed aUnit cChange in
  if negb bChanged && negb cChanged then
    let bUnit := default aUnit (bChange ≫= target) in
    with_stats inc_unchanged (processB_target bChange (push_unit bUnit st))
  else if bChanged && negb cChanged then
    match bChange ≫= target with
    | Some t => with_stats inc_upgraded (processB (hash t) (push_unit t st))
    | None => st
    end
  else if negb bChanged && cChanged then
    match cChange ≫= target with
    | Some t => with_stats inc_preserved (processC (hash t) (push_unit t st))
    | None => with_stats inc_removed st
    end
  else both_changed aUnit bChange cChange st.

(** Whether one of [ps] is the deletion of a unit next to index [idx], and
    whether [others] deletes a unit with that hash too. *)
Definition deleted_by_both (ps others : list AlignedPair) (idx : nat) : bool :=
  let nearby (p : AlignedPair) : bool :=
    bool_decide (type p = Deletion)
    && match source p with
       | Some s => (index s - idx <=? 1)%nat && (idx - index s <=? 1)%nat
       | None => false
       end in
  match List.find nearby ps ≫= source with
  | Some s =>
      existsb (fun p =>
        bool_decide (type p = Deletion)
        && match source p with
           | Some s' => bool_decide (hash s' = hash s)
           | None => false
           end) others
  | None => false
  end.

(** One turn of the loop over the insertions of C. *)
Definition process_c_insertion (st : State) (pair : AlignedPair) : State :=
  match target pair with
  | Some t =>
      if bool_decide (type pair = Insertion)
         && bool_decide (hash t ∉ processedCUnits st) then
        if deleted_by_both acPairs abPairs (index t)
           && bool_decide (strategy = PreferB)
        then processC (hash t) st
        else with_stats inc_preserved (processC (hash t) (push_unit t st))
      else st
  | None => st
  end.

(** One turn of the loop over the insertions of B. *)
Definition process_b_insertion (st : State) (pair : AlignedPair) : State :=
  match target pair with
  | Some t =>
      if bool_decide (type pair = Insertion)
         && bool_decide (hash t ∉ processedBUnits st) then
        if deleted_by_both abPairs acPairs (index t)
           && bool_decide (strategy = PreferC)
        then processB (hash t) st
        else if existsb (fun u => bool_decide (hash u = hash t)) unitsC then st
        else with_stats inc_upgraded (processB (hash t) (push_unit t st))
      else st
  | None => st
  end.

End MergeCall.

(** [a.hash.localeCompare(b.hash)] on the hexadecimal strings [createHash]
    returns: the order of the code units. *)
Definition hash_after (x y : string) : bool :=
  match String.compare x y with Gt => true | _ => false end.

(** The comparator of [mergedUnits.sort], positive on [(a, b)]. *)
Definition unit_after (a b : SemanticUnit) : bool :=
  if negb (index a =? index b)%nat then (index b <? index a)%nat
  else hash_after (hash a) (hash b).

(** The units [merge] has emitted when it reaches its final assembly, and
    the rest of its state. *)
Definition merge_state (a b c : string) (options : MergeOptions)
    (provider : EmbeddingProvider) (generateConflictId : nat -> string)
    : result State :=
  let segA := segment a default_options in
  let segB := segment b default_options in
  let segC := segment c default_options in
  match align distinct_objects distinct_objects (units segA) (units segB)
          (mkOptions None None) provider with
  | Throw message => Throw message
  | Ok abAlignment =>
      match align distinct_objects distinct_objects (units segA) (units segC)
              (mkOptions None None) provider with
      | Throw message => Throw message
      | Ok acAlignment =>
          let strategy := normalizeStrategy (conflictStrategy options) in
          let aToB := by_source_hash (pairs abAlignment) in
          let aToC := by_source_hash (pairs acAlignment) in
          let st0 := mkMergeState [] [] [] (mkStats 0 0 0 0 0 0) ∅ ∅ 0 in
          let st1 :=
            foldl (process_unit generateConflictId strategy
                     (pairs abAlignment) (pairs acAlignment) aToB aToC)
              st0 (units segA) in
          let st2 :=
            foldl (process_c_insertion strategy (pairs abAlignment)
                     (pairs acAlignment))
              st1 (pairs acAlignment) in
          let st3 :=
            foldl (process_b_insertion strategy (pairs abAlignment)
                     (pairs acAlignment) (units segC))
              st2 (pairs abAlignment) in
          Ok st3
      end
  end.

(** The final assembly of [merge]. *)
Definition assemble (st : State) : MergeResult :=
  mkMergeResult (reconstruct (stable_sort unit_after (mergedUnits st)))
    (st_conflicts st) (st_resolutions st) (st_stats st).

Definition merge (a b c : string) (options : MergeOptions)
    (provider : EmbeddingProvider) (generateConflictId : nat -> string)
    : result MergeResult :=
  match merge_state a b c options provider generateConflictId with
  | Throw message => Throw message
  | Ok st => Ok (assemble st)
  end.

(** [hasConflicts] *)
Definition hasConflicts (result : MergeResult) : bool :=
  nonempty (conflicts result).

(** [resolveConflict] *)
Definition resolveConflict (result : MergeResult) (conflictId resolution : string)
    : JS.result MergeResult :=
  match List.find (fun c => bool_decide (id c = conflictId)) (conflicts result) with
  | None => Throw ("Conflict not found: " +:+ conflictId)
  | Some conflict =>
      let remainingConflicts :=
        List.filter (fun c => negb (bool_decide (id c = conflictId)))
          (conflicts result) in
      let marker := formatConflictMarker conflict in
      let newMerged := replace marker resolution (merged result) in
      let newResolution := mkResolution conflictId resolution External 1%float in
      Ok (mkMergeResult newMerged remainingConflicts
            (resolutions result ++ [newResolution]) (stats result))
  end.

(** *** Notions used to state the properties of the merge

    Two units the comparator of the final sort cannot tell apart. *)
Definition same_key (u v : SemanticUnit) : bool :=
  bool_decide (index v = index u /\ hash v = hash u).

(** A provider of dimension 1 that embeds every text as [[1]], and the
    identifiers "conflict-0", "conflict-1", ... *)
Definition constant_provider : EmbeddingProvider :=
  fun texts => Ok (map (fun _ => [1%float]) texts).

Definition numbered_id (n : nat) : string := "conflict-" +:+ pretty n.

End Merge.

(** ** Differences (diff/index.ts) *)

Module Diff.
Import JS Types Segmentation Alignment.

(** [tokenize] and [lcs] of diff/index.ts are, statement for statement,
    the functions of the same names of merge/word-merge.ts. *)
Definition tokenize : string -> list string := WordMerge.tokenize.
Definition lcs : list string -> list string -> list string := WordMerge.lcs.

Inductive WordDiffType := WKeep | WDelete | WInsert | WReplace.

#[global] Instance WordDiffType_eq_dec : EqDecision WordDiffType.
Proof. solve_decision. Defined.

Record WordDiffOp := mkWordDiffOp {
  wd_type : WordDiffType;
  wd_content : string;
  wd_oldContent : option string
}.

(** The operation a turn of the loop emits for what it has collected. *)
Definition change_op (deletions insertions : list string) : list WordDiffOp :=
  if nonempty deletions && nonempty insertions then
    [mkWordDiffOp WReplace (join insertions) (Some (join deletions))]
  else if nonempty deletions then [mkWordDiffOp WDelete (join deletions) None]
  else if nonempty insertions then [mkWordDiffOp WInsert (join insertions) None]
  else [].

(** The loop of [wordDiff] and of [tokenDiff]: [tokensA], [tokensB] and
    [common] are the parts of the three arrays from [ai], [bi] and [ci] on. *)
Fixpoint diff_loop (tokensA tokensB common : list string) : list WordDiffOp :=
  match tokensA, tokensB with
  | [], [] => []
  | _, _ =>
      let '(deletions, tokensA') := WordMerge.collect (head common) tokensA in
      let '(insertions, tokensB') := WordMerge.collect (head common) tokensB in
      change_op deletions insertions ++
      match common with
      | c :: common' =>
          mkWordDiffOp WKeep c None
          :: diff_loop (tail tokensA') (tail tokensB') common'
      | [] => []
      end
  end.

Definition wordDiff (original modified : string) : list WordDiffOp :=
  let tokensA := tokenize original in
  let tokensB := tokenize modified in
  diff_loop tokensA tokensB (lcs tokensA tokensB).

(** *** tokenizeSemantic *)

(** The length of the run of code units of a class at the head of a string. *)
Fixpoint run (class : ascii -> bool) (s : string) : nat :=
  match s with
  | String c s' => if class c then S (run class s') else 0
  | EmptyString => 0
  end.

(** [[a-zA-Z]] and [[a-z]] *)
Definition isLetter (c : ascii) : bool := isUpper c || in_range 97 122 c.
Definition isLower (c : ascii) : bool := in_range 97 122 c.

(** The optional group [(?:q class+)?] after a run of [n] code units. *)
Definition with_suffix (q : ascii) (class : ascii -> bool) (n : nat) (s : string)
    : nat :=
  match sdrop n s with
  | String d after =>
      if bool_decide (d = q) && (0 <? run class after)%nat
      then n + 1 + run class after
      else n
  | EmptyString => n
  end.

(** The match of
    [(\s+)|([a-zA-Z]+(?:'[a-z]+)?)|([0-9]+(?:\.[0-9]+)?)|([^\s\w])]
    at the head of [s]: its length, 0 when there is none. *)
Definition semantic_match (s : string) : nat :=
  match s with
  | EmptyString => 0
  | String c _ =>
      if isSpace c then run isSpace s
      else if isLetter c then with_suffix "'" isLower (run isLetter s) s
      else if isDigit c then with_suffix "." isDigit (run isDigit s) s
      else if negb (isWordChar c) then 1
      else 0
  end.

(** The loop [while ((match = wordPattern.exec(text)) !== null)]: where the
    pattern does not match, [exec] moves on by one code unit.  Every turn
    consumes a code unit, so the length of the text is fuel enough. *)
Fixpoint tokenizeSemantic_loop (fuel : nat) (text : string)
    (tokens : list string) : list string :=
  match fuel with
  | O => tokens
  | S fuel' =>
      match text with
      | EmptyString => tokens
      | String _ rest =>
          match semantic_match text with
          | O => tokenizeSemantic_loop fuel' rest tokens
          | n => tokenizeSemantic_loop fuel' (sdrop n text)
                   (tokens ++ [stake n text])
          end
      end
  end.

Definition tokenizeSemantic (text : string) : list string :=
  tokenizeSemantic_loop (String.length text) text [].

Definition tokenDiff (original modified : string) : list WordDiffOp :=
  let tokensA := tokenizeSemantic original in
  let tokensB := tokenizeSemantic modified in
  diff_loop tokensA tokensB (lcs tokensA tokensB).

(** *** The sentence-level diff *)

Inductive EditOperation := KEEP | INSERT | DELETE | REPLACE | MOVE.

#[global] Instance EditOperation_eq_dec : EqDecision EditOperation.
Proof. solve_decision. Defined.

Inductive Position := Before | After | Replace.

Record Context := mkContext { ctx_before : string; ctx_after : string }.

Record Edit := mkEdit {
  operation : EditOperation;
  anchor : string;
  anchorContext : option Context;
  oldContent : option string;
  newContent : option string;
  position : option Position;
  confidence : float
}.

(** [getContext] *)
Definition getContext (unit : SemanticUnit) : option Context :=
  Some (mkContext (trim (prefix unit)) (trim (suffix unit))).

(** One turn of the loop of [pairsToEdits]. *)
Definition pair_edits (pair : AlignedPair) : list Edit :=
  match type pair with
  | Match =>
      match source pair with
      | Some s =>
          [mkEdit KEEP (hash s) None (Some (content s)) None None 1%float]
      | None => []
      end
  | Modification =>
      match source pair, target pair with
      | Some s, Some t =>
          [mkEdit REPLACE (hash s) (getContext s) (Some (content s))
             (Some (content t)) None (similarity pair)]
      | _, _ => []
      end
  | Insertion =>
      match target pair with
      | Some t =>
          [mkEdit INSERT "" None None (Some (content t)) (Some After)
             0x1.ccccccccccccdp-1%float]
      | None => []
      end
  | Deletion =>
      match source pair with
      | Some s =>
          [mkEdit DELETE (hash s) (getContext s) (Some (content s)) None None
             0x1.ccccccccccccdp-1%float]
      | None => []
      end
  end.

Definition pairsToEdits (pairs : list AlignedPair) : list Edit :=
  flat_map pair_edits pairs.

Record DiffStats := mkDiffStats {
  kept : nat;
  inserted : nat;
  deleted : nat;
  replaced : nat;
  moved : nat
}.

Record DiffResult := mkDiffResult { edits : list Edit; stats : DiffStats }.

(** [edits.filter((e) => e.operation === op).length] *)
Definition count_operation (op : EditOperation) (es : list Edit) : nat :=
  length (List.filter (fun e => bool_decide (operation e = op)) es).

(** [diff]; the provider is the one [align] falls back to. *)
Definition diff (original modified : string) (provider : EmbeddingProvider)
    : result DiffResult :=
  let originalSeg := segment original default_options in
  let modifiedSeg := segment modified default_options in
  match align distinct_objects distinct_objects (units originalSeg)
          (units modifiedSeg) (mkOptions None None) provider with
  | Throw message => Throw message
  | Ok alignment =>
      let edits := pairsToEdits (pairs alignment) in
      Ok (mkDiffResult edits
            (mkDiffStats (count_operation KEEP edits)
               (count_operation INSERT edits) (count_operation DELETE edits)
               (count_operation REPLACE edits) (count_operation MOVE edits)))
  end.

(** The loop of [extractPatch] that fills the anchors of the insertions:
    [prev] is [patchEdits[i - 1]] as the loop has left it. *)
Fixpoint fill_anchors (prev : option Edit) (patchEdits : list Edit) : list Edit :=
  match patchEdits with
  | [] => []
  | edit :: rest =>
      let edit' :=
        if bool_decide (operation edit = INSERT) && negb (truthy (anchor edit))
        then match prev with
             | Some prevEdit =>
                 mkEdit (operation edit) (anchor prevEdit) (anchorContext edit)
                   (oldContent edit) (newContent edit) (Some After)
                   (confidence edit)
             | None => edit
             end
        else edit in
      edit' :: fill_anchors (Some edit') rest
  end.

Definition extractPatch (baseOriginal userModified : string)
    (provider : EmbeddingProvider) : result DiffResult :=
  match diff baseOriginal userModified provider with
  | Throw message => Throw message
  | Ok result =>
      let patchEdits :=
        List.filter (fun e => negb (bool_decide (operation e = KEEP)))
          (edits result) in
      Ok (mkDiffResult (fill_anchors None patchEdits) (stats result))
  end.

(** *** Notions used to state the properties of the differences

    The text before and the text after, read off a list of operations, and
    a text without its underscores. *)
Fixpoint old_text (ops : list WordDiffOp) : string :=
  match ops with
  | [] => ""
  | op :: rest =>
      match wd_type op with
      | WKeep | WDelete => wd_content op
      | WReplace => default "" (wd_oldContent op)
      | WInsert => ""
      end +:+ old_text rest
  end.

Fixpoint new_text (ops : list WordDiffOp) : string :=
  match ops with
  | [] => ""
  | op :: rest =>
      match wd_type op with
      | WKeep | WInsert | WReplace => wd_content op
      | WDelete => ""
      end +:+ new_text rest
  end.

(** The operation [pairsToEdits] gives to a pair of each type. *)
Definition operation_of (t : PairType) : EditOperation :=
  match t with
  | Match => KEEP
  | Modification => REPLACE
  | Insertion => INSERT
  | Deletion => DELETE
  end.

(** A provider for examples: a text is embedded by the code of its first
    code unit modulo 8, as one of eight orthogonal vectors. *)
Definition initial_provider : EmbeddingProvider :=
  fun texts =>
    Ok (map (fun text =>
               map (fun k =>
                      match text with
                      | String c _ =>
                          if (code c mod 8 =? k)%nat then 1%float else 0%float
                      | EmptyString => 0%float
                      end)
                 (seq 0 8))
          texts).

Fixpoint without_underscores (s : string) : string :=
  match s with
  | String c s' =>
      if bool_decide (c = "_"%char) then without_underscores s'
      else String c (without_underscores s')
  | EmptyString => EmptyString
  end.

End Diff.

(** ** Word-level merge: proofs *)

Module WordMergeProofs.
Import JS WordMerge.

Lemma append_nil_l (t : string) : "" +:+ t = t.
Proof. reflexivity. Qed.

Lemma append_cons (c : ascii) (s t : string) :
  String c s +:+ t = String c (s +:+ t).
Proof. reflexivity. Qed.

Lemma append_empty_r (s : string) : s +:+ "" = s.
Proof. induction s as [|c s IH]; [done|]. by rewrite append_cons, IH. Qed.

Lemma append_assoc' (s1 s2 s3 : string) : (s1 +:+ s2) +:+ s3 = s1 +:+ (s2 +:+ s3).
Proof.
  induction s1 as [|c s1 IH]; [done|]. by rewrite !append_cons, IH.
Qed.

Lemma join_nil : join [] = "".
Proof. reflexivity. Qed.

Lemma join_cons (x : string) (l : list string) : join (x :: l) = x +:+ join l.
Proof. reflexivity. Qed.

Lemma join_app (l1 l2 : list string) : join (l1 ++ l2) = join l1 +:+ join l2.
Proof.
  induction l1 as [|x l1 IH]; [done|].
  by rewrite <- app_comm_cons, !join_cons, IH, append_assoc'.
Qed.

Lemma join_push_truthy tokens current :
  join (push_truthy tokens current) = join tokens +:+ current.
Proof.
  unfold push_truthy. destruct current as [|c s]; simpl.
  - by rewrite append_empty_r.
  - by rewrite join_app, join_cons, join_nil, append_empty_r.
Qed.

Lemma tokenize_loop_join text : forall tokens current inWord,
  join (tokenize_loop text tokens current inWord)
  = join tokens +:+ current +:+ text.
Proof.
  induction text as [|c rest IH]; intros tokens current inWord; simpl.
  - by rewrite join_push_truthy, append_empty_r.
  - destruct (isWordChar c && negb inWord);
      [|destruct (negb (isWordChar c) && inWord)];
      rewrite IH, ?join_push_truthy; unfold char;
      rewrite ?append_assoc', ?append_cons, ?append_nil_l; reflexivity.
Qed.

Lemma tokenize_join text : join (tokenize text) = text.
Proof. unfold tokenize. by rewrite tokenize_loop_join. Qed.

Section MergeLoop.
Variables bChanges cChanges : gmap nat ChangeInfo.

Lemma nonempty_false {A} (l : list A) : nonempty l = false -> l = [].
Proof. by destruct l. Qed.

Lemma insertions_conflict_nonempty bI cI :
  insertions_conflict bI cI = true -> nonempty bI || nonempty cI = true.
Proof. unfold insertions_conflict. destruct (nonempty bI); simpl; [done|]. done. Qed.

Lemma merge_step_merged st i aToken :
  st_merged (merge_step bChanges cChanges st i aToken)
  = st_merged st ++ kept_part bChanges cChanges i aToken
    ++ inserted_part bChanges cChanges i.
Proof.
  unfold merge_step, kept_part, inserted_part.
  set (bI := insertAfter_at bChanges i). set (cI := insertAfter_at cChanges i).
  assert (Hk : (if negb (deleted_at bChanges i) && negb (deleted_at cChanges i)
                then st_merged st ++ [aToken] else st_merged st)
               = st_merged st ++
                 (if deleted_at bChanges i || deleted_at cChanges i then [] else [aToken])).
  { destruct (deleted_at bChanges i), (deleted_at cChanges i); simpl;
      rewrite ?app_nil_r; reflexivity. }
  rewrite Hk. clear Hk.
  destruct (insertions_conflict bI cI) eqn:Hc.
  - rewrite (insertions_conflict_nonempty _ _ Hc). simpl. by rewrite app_assoc.
  - destruct (nonempty bI || nonempty cI) eqn:Hn; simpl.
    + by rewrite <- app_assoc.
    + apply orb_false_elim in Hn as [Hb Hc'].
      rewrite (nonempty_false _ Hb), (nonempty_false _ Hc'). by rewrite app_nil_r.
Qed.

Lemma merge_step_hasConflict st i aToken :
  st_hasConflict (merge_step bChanges cChanges st i aToken)
  = st_hasConflict st || conflict_at bChanges cChanges i.
Proof.
  unfold merge_step, conflict_at.
  set (bI := insertAfter_at bChanges i). set (cI := insertAfter_at cChanges i).
  destruct (insertions_conflict bI cI) eqn:Hc.
  - rewrite (insertions_conflict_nonempty _ _ Hc). simpl. by rewrite orb_true_r.
  - rewrite orb_false_r. by destruct (nonempty bI || nonempty cI).
Qed.

Lemma merge_loop_merged tokensA : forall st i,
  st_merged (merge_loop bChanges cChanges st i tokensA)
  = st_merged st ++ expected_from bChanges cChanges i tokensA.
Proof.
  induction tokensA as [|t rest IH]; intros st i; simpl.
  - by rewrite app_nil_r.
  - rewrite IH, merge_step_merged. by rewrite <- !app_assoc.
Qed.

Lemma merge_loop_hasConflict tokensA : forall st i,
  st_hasConflict (merge_loop bChanges cChanges st i tokensA)
  = st_hasConflict st
    || existsb (conflict_at bChanges cChanges) (seq i (length tokensA)).
Proof.
  induction tokensA as [|t rest IH]; intros st i; simpl.
  - by rewrite orb_false_r.
  - rewrite IH, merge_step_hasConflict. by rewrite orb_assoc.
Qed.

Lemma merge_step_ranges st i aToken :
  st_ranges (merge_step bChanges cChanges st i aToken)
  = st_ranges st ++
    (if conflict_at bChanges cChanges i
     then let start := length (st_merged st ++ kept_part bChanges cChanges i aToken) in
          [mkRange start (start + 1) (join (insertAfter_at bChanges i))
             (join (insertAfter_at cChanges i))]
     else []).
Proof.
  unfold merge_step, conflict_at, kept_part.
  set (bI := insertAfter_at bChanges i). set (cI := insertAfter_at cChanges i).
  destruct (insertions_conflict bI cI) eqn:Hc.
  - rewrite (insertions_conflict_nonempty _ _ Hc). simpl.
    destruct (deleted_at bChanges i), (deleted_at cChanges i); simpl;
      by rewrite ?app_nil_r.
  - rewrite app_nil_r. by destruct (nonempty bI || nonempty cI).
Qed.

Lemma merge_loop_ranges tokensA : forall st i,
  map range_contents (st_ranges (merge_loop bChanges cChanges st i tokensA))
  = map range_contents (st_ranges st)
    ++ flat_map (conflict_contents bChanges cChanges) (seq i (length tokensA)).
Proof.
  induction tokensA as [|t rest IH]; intros st i; simpl.
  - by rewrite app_nil_r.
  - rewrite IH, merge_step_ranges, map_app, <- app_assoc. do 2 f_equal.
    unfold conflict_contents. by destruct (conflict_at bChanges cChanges i).
Qed.

Lemma marks_app tokens more r : marks tokens r -> marks (tokens ++ more) r.
Proof. intros [He Hl]. split; [done|]. by apply lookup_app_l_Some. Qed.

Lemma merge_step_marks st i aToken :
  Forall (marks (st_merged st)) (st_ranges st) ->
  let st' := merge_step bChanges cChanges st i aToken in
  Forall (marks (st_merged st')) (st_ranges st').
Proof.
  intros Hst. simpl. rewrite merge_step_ranges, merge_step_merged.
  apply Forall_app. split.
  - eapply Forall_impl; [exact Hst|]. intros r Hr. by apply marks_app.
  - unfold inserted_part. fold (conflict_at bChanges cChanges i).
    destruct (conflict_at bChanges cChanges i); [|constructor].
    constructor; [|constructor]. split; [done|]. simpl.
    rewrite app_assoc. by rewrite list_lookup_middle.
Qed.

Lemma merge_loop_marks tokensA : forall st i,
  Forall (marks (st_merged st)) (st_ranges st) ->
  let st' := merge_loop bChanges cChanges st i tokensA in
  Forall (marks (st_merged st')) (st_ranges st').
Proof.
  induction tokensA as [|t rest IH]; intros st i Hst; simpl; [done|].
  apply IH. by apply merge_step_marks.
Qed.

End MergeLoop.

Lemma sublist_take_S {A} (l : list A) i : take i l `sublist_of` take (S i) l.
Proof.
  revert i. induction l as [|x l IH]; intros [|i]; simpl;
    try apply sublist_nil_l.
  apply sublist_skip, IH.
Qed.

Section Lcs.
Variables (a b : list token) (dp : list (list nat)).

(** Whatever the table holds, backtracking returns a common subsequence of
    the two prefixes it walks. *)
Lemma lcs_backtrack_sublist fuel : forall i j result,
  exists l, lcs_backtrack fuel a b dp i j result = l ++ result
            /\ l `sublist_of` take i a /\ l `sublist_of` take j b.
Proof.
  induction fuel as [|fuel IH]; intros i j result.
  - exists []. split; [done|]. split; apply sublist_nil_l.
  - destruct i as [|i'], j as [|j']; simpl;
      try (exists []; split; [done|]; split; apply sublist_nil_l).
    case_bool_decide as Heq.
    + destruct (a !! i') as [t|] eqn:Ha.
      * destruct (IH i' j' (t :: result)) as (l & -> & Hla & Hlb).
        exists (l ++ [t]). split; [by rewrite <- app_assoc|].
        rewrite (take_S_r a i' t Ha), (take_S_r b j' t) by congruence.
        split; by apply sublist_app.
      * destruct (IH i' j' result) as (l & -> & Hla & Hlb).
        exists l. split; [done|].
        split; [etrans; [exact Hla|]|etrans; [exact Hlb|]]; apply sublist_take_S.
    + destruct (dp_get dp (S i') j' <? dp_get dp i' (S j'))%nat.
      * destruct (IH i' (S j') result) as (l & -> & Hla & Hlb).
        exists l. split; [done|]. split; [|done].
        etrans; [exact Hla|]. apply sublist_take_S.
      * destruct (IH (S i') j' result) as (l & -> & Hla & Hlb).
        exists l. split; [done|]. split; [done|].
        etrans; [exact Hlb|]. apply sublist_take_S.
Qed.
End Lcs.

Lemma lcs_sublist (a b : list token) :
  lcs a b `sublist_of` a /\ lcs a b `sublist_of` b.
Proof.
  unfold lcs.
  destruct (lcs_backtrack_sublist a b (lcs_table a b) (length a + length b)
              (length a) (length b) []) as (l & -> & Ha & Hb).
  rewrite app_nil_r. by rewrite !firstn_all in *.
Qed.

Lemma lcs_backtrack_diag (a : list token) dp fuel : forall i result,
  i <= fuel -> i <= length a ->
  lcs_backtrack fuel a a dp i i result = take i a ++ result.
Proof.
  induction fuel as [|fuel IH]; intros i result Hf Hi.
  - by replace i with 0 by lia.
  - destruct i as [|i']; [done|]. simpl.
    rewrite bool_decide_eq_true_2 by done.
    destruct (lookup_lt_is_Some_2 a i') as [t Ht]; [lia|].
    rewrite Ht, IH by lia.
    rewrite (take_S_r a i' t Ht). by rewrite <- app_assoc.
Qed.

Lemma lcs_same (a : list token) : lcs a a = a.
Proof.
  unfold lcs. rewrite lcs_backtrack_diag by lia.
  by rewrite firstn_all, app_nil_r.
Qed.

(** *** diff2 *)

Lemma collect_none xs : collect None xs = (xs, []).
Proof.
  induction xs as [|x xs IH]; [done|]. cbn [collect].
  case_bool_decide; [done|]. by rewrite IH.
Qed.

Lemma collect_sublist c cs xs :
  c :: cs `sublist_of` xs ->
  exists pre rest, collect (Some c) xs = (pre, c :: rest)
                   /\ xs = pre ++ c :: rest /\ cs `sublist_of` rest.
Proof.
  induction xs as [|x xs IH]; intros Hsub.
  - by apply sublist_nil_r in Hsub.
  - simpl. case_bool_decide as Heq.
    + injection Heq as ->. exists [], xs. split; [done|]. split; [done|].
      inversion Hsub; subst; [done|].
      etrans; [|eassumption]. by apply sublist_cons.
    + inversion Hsub; subst; [congruence|].
      destruct IH as (pre & rest & -> & -> & Hcs); [done|].
      by exists (x :: pre), rest.
Qed.

Lemma ops_source_app ops1 ops2 :
  ops_source (ops1 ++ ops2) = ops_source ops1 ++ ops_source ops2.
Proof.
  induction ops1 as [|[[] toks] ops1 IH]; simpl; [done|..];
    by rewrite IH, ?app_assoc.
Qed.

Lemma ops_target_app ops1 ops2 :
  ops_target (ops1 ++ ops2) = ops_target ops1 ++ ops_target ops2.
Proof.
  induction ops1 as [|[[] toks] ops1 IH]; simpl; [done|..];
    by rewrite IH, ?app_assoc.
Qed.

Lemma ops_source_delete toks : ops_source (op_if_nonempty Delete toks) = toks.
Proof. destruct toks; simpl; by rewrite ?app_nil_r. Qed.

Lemma ops_source_insert toks : ops_source (op_if_nonempty Insert toks) = [].
Proof. by destruct toks. Qed.

Lemma ops_target_delete toks : ops_target (op_if_nonempty Delete toks) = [].
Proof. by destruct toks. Qed.

Lemma ops_target_insert toks : ops_target (op_if_nonempty Insert toks) = toks.
Proof. destruct toks; simpl; by rewrite ?app_nil_r. Qed.

(** The unfolding of one turn of the loop. *)
Lemma diff2_loop_nil_common original modified :
  diff2_loop original modified []
  = op_if_nonempty Delete original ++ op_if_nonempty Insert modified.
Proof.
  destruct original as [|o original], modified as [|m modified]; simpl;
    rewrite ?collect_none; simpl; rewrite ?app_nil_r; try done.
Qed.

Lemma diff2_loop_cons_common original modified c common pre1 rest1 pre2 rest2 :
  collect (Some c) original = (pre1, c :: rest1) ->
  collect (Some c) modified = (pre2, c :: rest2) ->
  diff2_loop original modified (c :: common)
  = op_if_nonempty Delete pre1 ++ op_if_nonempty Insert pre2
    ++ mkDiffOp Keep [c] :: diff2_loop rest1 rest2 common.
Proof.
  intros H1 H2.
  destruct original as [|o original]; [done|].
  cbn [diff2_loop head]. by rewrite H1, H2.
Qed.

Lemma diff2_loop_spec common : forall original modified,
  common `sublist_of` original -> common `sublist_of` modified ->
  ops_source (diff2_loop original modified common) = original
  /\ ops_target (diff2_loop original modified common) = modified.
Proof.
  induction common as [|c common IH]; intros original modified Ho Hm.
  - rewrite diff2_loop_nil_common, ops_source_app, ops_target_app.
    rewrite ops_source_delete, ops_source_insert, ops_target_delete,
      ops_target_insert. by rewrite app_nil_r.
  - destruct (collect_sublist _ _ _ Ho) as (pre1 & rest1 & H1 & -> & Ho').
    destruct (collect_sublist _ _ _ Hm) as (pre2 & rest2 & H2 & -> & Hm').
    rewrite (diff2_loop_cons_common _ _ _ _ _ _ _ _ H1 H2).
    destruct (IH rest1 rest2 Ho' Hm') as [IHs IHt].
    rewrite !ops_source_app, !ops_target_app.
    rewrite ops_source_delete, ops_source_insert, ops_target_delete,
      ops_target_insert. simpl. by rewrite IHs, IHt.
Qed.

Lemma diff2_spec original modified :
  ops_source (diff2 original modified) = original
  /\ ops_target (diff2 original modified) = modified.
Proof. apply diff2_loop_spec; apply lcs_sublist. Qed.

Lemma well_shaped_diff2_loop common : forall original modified,
  common `sublist_of` original -> common `sublist_of` modified ->
  well_shaped false (diff2_loop original modified common) = true.
Proof.
  induction common as [|c common IH]; intros original modified Ho Hm.
  - rewrite diff2_loop_nil_common.
    by destruct original, modified.
  - destruct (collect_sublist _ _ _ Ho) as (pre1 & rest1 & H1 & -> & Ho').
    destruct (collect_sublist _ _ _ Hm) as (pre2 & rest2 & H2 & -> & Hm').
    rewrite (diff2_loop_cons_common _ _ _ _ _ _ _ _ H1 H2).
    specialize (IH rest1 rest2 Ho' Hm').
    destruct pre1, pre2; simpl; by rewrite IH.
Qed.

Lemma well_shaped_diff2 original modified :
  well_shaped false (diff2 original modified) = true.
Proof. apply well_shaped_diff2_loop; apply lcs_sublist. Qed.

(** *** The rendering of a change map over the A-tokens *)

Section Expected.
Variable cm : gmap nat ChangeInfo.

Lemma expected_from_app bm l1 : forall i l2,
  expected_from bm cm i (l1 ++ l2)
  = expected_from bm cm i l1 ++ expected_from bm cm (i + length l1) l2.
Proof.
  induction l1 as [|t l1 IH]; intros i l2; simpl.
  - by rewrite Nat.add_0_r.
  - rewrite IH, <- !app_assoc. by replace (S i + length l1) with (i + S (length l1)) by lia.
Qed.

Lemma expected_from_ext bm bm' l : forall i,
  (forall k, i <= k < i + length l -> bm !! k = bm' !! k) ->
  expected_from bm cm i l = expected_from bm' cm i l.
Proof.
  induction l as [|t l IH]; intros i Hk; simpl; [done|].
  rewrite (IH (S i)) by (intros k Hr; apply Hk; simpl; lia).
  unfold kept_part, inserted_part, deleted_at, insertAfter_at.
  by rewrite (Hk i) by (simpl; lia).
Qed.
End Expected.

Lemma expected_from_untouched (bm : gmap nat ChangeInfo) l : forall i,
  (forall k, i <= k -> bm !! k = None) ->
  expected_from bm ∅ i l = l.
Proof.
  induction l as [|t l IH]; intros i Hk; simpl; [done|].
  rewrite (IH (S i)) by (intros k Hr; apply Hk; lia).
  unfold kept_part, inserted_part, deleted_at, insertAfter_at.
  by rewrite (Hk i), lookup_empty by lia.
Qed.

Lemma expected_from_deleted (bm : gmap nat ChangeInfo) l : forall i,
  (forall k, i <= k < i + length l -> bm !! k = Some (mkChange true None)) ->
  expected_from bm ∅ i l = [].
Proof.
  induction l as [|t l IH]; intros i Hk; simpl; [done|].
  rewrite (IH (S i)) by (intros k Hr; apply Hk; simpl; lia).
  unfold kept_part, inserted_part, deleted_at, insertAfter_at.
  by rewrite (Hk i), lookup_empty by (simpl; lia).
Qed.

Lemma mark_deleted_spec n : forall idx m,
  exists m', mark_deleted n idx m = (idx + n, m')
    /\ forall k, m' !! k = if bool_decide (idx <= k < idx + n)
                          then Some (mkChange true None) else m !! k.
Proof.
  induction n as [|n IH]; intros idx m; simpl.
  - exists m. split; [by rewrite Nat.add_0_r|].
    intros k. rewrite bool_decide_eq_false_2 by lia. done.
  - destruct (IH (S idx) (<[idx:=mkChange true None]> m)) as (m' & -> & Hm').
    exists m'. split; [f_equal; lia|].
    intros k. rewrite Hm'.
    destruct (decide (k = idx)) as [->|Hne].
    + rewrite bool_decide_eq_false_2 by lia.
      rewrite bool_decide_eq_true_2 by lia. by rewrite lookup_insert_eq.
    + rewrite lookup_insert_ne by done.
      destruct (decide (S idx <= k < S idx + n)).
      * rewrite !bool_decide_eq_true_2 by lia. done.
      * rewrite !bool_decide_eq_false_2 by lia. done.
Qed.

(** *** What [extract_changes] records *)

Lemma nonempty_length {A} (l : list A) : nonempty l = true -> 0 < length l.
Proof. destruct l; simpl; [done|lia]. Qed.

Lemma process_keep st src toks :
  nonempty toks = true -> tracks st src ->
  let st' := process_op st (mkDiffOp Keep toks) in
  tracks st' (src ++ toks) /\ settled st' (src ++ toks)
  /\ rendered st' (src ++ toks) = rendered st src ++ toks.
Proof.
  intros Hne [Hidx Hnone]. apply nonempty_length in Hne. simpl.
  unfold tracks, settled, rendered. simpl. rewrite length_app.
  repeat split.
  - lia.
  - intros k Hk. apply Hnone. lia.
  - intros Hnil. apply (f_equal length) in Hnil. rewrite length_app in Hnil.
    simpl in Hnil. lia.
  - intros i Hi. unfold insertAfter_at. by rewrite Hnone by lia.
  - rewrite expected_from_app, <- app_assoc. do 2 f_equal.
    apply expected_from_untouched. intros k Hk. apply Hnone. lia.
Qed.

Lemma process_delete st src toks :
  nonempty toks = true -> tracks st src ->
  let st' := process_op st (mkDiffOp Delete toks) in
  tracks st' (src ++ toks) /\ settled st' (src ++ toks)
  /\ rendered st' (src ++ toks) = rendered st src.
Proof.
  intros Hne [Hidx Hnone]. apply nonempty_length in Hne.
  destruct (mark_deleted_spec (length toks) (aIdx st) (changes st))
    as (m' & Hmark & Hm').
  unfold process_op. simpl. rewrite Hmark.
  unfold tracks, settled, rendered. simpl. rewrite length_app.
  repeat split.
  - lia.
  - intros k Hk. rewrite Hm', bool_decide_eq_false_2 by lia. apply Hnone. lia.
  - intros Hnil. apply (f_equal length) in Hnil. rewrite length_app in Hnil.
    simpl in Hnil. lia.
  - intros i Hi. unfold insertAfter_at.
    by rewrite Hm', bool_decide_eq_true_2 by lia.
  - rewrite expected_from_app.
    rewrite (expected_from_deleted m' toks).
    + rewrite app_nil_r. f_equal. apply expected_from_ext.
      intros k Hk. rewrite Hm'. by rewrite bool_decide_eq_false_2 by lia.
    + intros k Hk. rewrite Hm'. by rewrite bool_decide_eq_true_2 by lia.
Qed.

Lemma tracks_nil_size st : tracks st [] -> size (changes st) = 0.
Proof.
  intros [Hidx Hnone]. simpl in Hidx.
  assert (changes st = ∅) as ->; [|apply map_size_empty].
  apply map_empty. intros k. apply Hnone. lia.
Qed.

Lemma process_insert st src toks :
  nonempty toks = true -> tracks st src -> settled st src ->
  let st' := process_op st (mkDiffOp Insert toks) in
  tracks st' src /\ rendered st' src = rendered st src ++ toks.
Proof.
  intros Hne Htr [Hstart Hins]. pose proof Htr as [Hidx Hnone].
  unfold process_op. simpl.
  destruct (decide (src = [])) as [->|Hsrc].
  - simpl in Hidx. rewrite Hidx, (tracks_nil_size st Htr). simpl.
    unfold tracks, rendered. simpl. rewrite Hstart by done.
    repeat split; [|by rewrite app_nil_r].
    intros k Hk. apply Hnone. lia.
  - assert (0 < aIdx st) as Hpos.
    { rewrite Hidx. destruct src; simpl; [done|lia]. }
    replace (aIdx st =? 0)%nat with false by (symmetry; apply Nat.eqb_neq; lia).
    replace (0 <? aIdx st)%nat with true by (symmetry; apply Nat.ltb_lt; lia).
    simpl. unfold tracks, rendered. simpl.
    repeat split; [done| |].
    + intros k Hk. rewrite lookup_insert_ne by lia. by apply Hnone.
    + destruct (exists_last Hsrc) as (src0 & t & ->).
      rewrite length_app in Hidx. simpl in Hidx.
      rewrite !expected_from_app. simpl.
      rewrite <- !app_assoc. f_equal.
      rewrite (expected_from_ext ∅ _ (changes st) src0)
        by (intros k Hk; rewrite lookup_insert_ne by lia; done).
      f_equal. rewrite !app_nil_r.
      replace (aIdx st - 1) with (length src0) by lia.
      specialize (Hins (length src0)).
      unfold kept_part, inserted_part, deleted_at, insertAfter_at in *.
      rewrite lookup_insert_eq, lookup_empty. simpl.
      unfold insertions_conflict. simpl. rewrite andb_false_r.
      destruct (changes st !! length src0) as [ch|] eqn:Hch; simpl.
      * rewrite Hins by lia. simpl. by rewrite !app_nil_r.
      * by rewrite !app_nil_r.
Qed.

Lemma extract_changes_rendered ops : forall after st src,
  well_shaped after ops = true ->
  tracks st src -> (after = false -> settled st src) ->
  let st' := foldl process_op st ops in
  tracks st' (src ++ ops_source ops)
  /\ rendered st' (src ++ ops_source ops) = rendered st src ++ ops_target ops.
Proof.
  induction ops as [|[ty toks] ops IH]; intros after st src Hshape Htr Hset.
  - simpl. by rewrite !app_nil_r.
  - simpl in Hshape. apply andb_true_iff in Hshape as [Hne Hshape].
    cbn [foldl ops_source ops_target op_type op_tokens].
    destruct ty.
    + destruct (process_keep st src toks Hne Htr) as (Htr' & Hset' & Hr).
      destruct (IH false _ _ Hshape Htr' (fun _ => Hset')) as [IHt IHr].
      rewrite !app_assoc. split; [done|]. by rewrite IHr, Hr.
    + destruct (process_delete st src toks Hne Htr) as (Htr' & Hset' & Hr).
      destruct (IH false _ _ Hshape Htr' (fun _ => Hset')) as [IHt IHr].
      rewrite !app_assoc. split; [done|]. by rewrite IHr, Hr.
    + apply andb_true_iff in Hshape as [Hafter Hshape].
      apply negb_true_iff in Hafter.
      destruct (process_insert st src toks Hne Htr (Hset Hafter)) as (Htr' & Hr).
      destruct (IH true _ _ Hshape Htr') as [IHt IHr]; [done|].
      split; [done|]. by rewrite IHr, Hr, <- app_assoc.
Qed.

Lemma extract_changes_diff2 tokensA tokensB :
  let st := extract_changes (diff2 tokensA tokensB) in
  insertionAtStart st ++ expected_from (changes st) ∅ 0 tokensA = tokensB.
Proof.
  destruct (diff2_spec tokensA tokensB) as [Hs Ht].
  destruct (extract_changes_rendered (diff2 tokensA tokensB) false
              (mkChanges 0 ∅ []) [] (well_shaped_diff2 _ _)) as [_ Hr].
  - split; [done|]. intros k _. apply lookup_empty.
  - intros _. split; [done|]. intros i Hi. simpl in Hi. lia.
  - simpl in Hr. rewrite Hs, Ht in Hr. exact Hr.
Qed.

Lemma diff2_loop_same a :
  diff2_loop a a a = map (fun t => mkDiffOp Keep [t]) a.
Proof.
  induction a as [|t a IH]; [done|].
  rewrite (diff2_loop_cons_common (t :: a) (t :: a) t a [] a [] a).
  - simpl. by rewrite IH.
  - simpl. by rewrite bool_decide_eq_true_2.
  - simpl. by rewrite bool_decide_eq_true_2.
Qed.

Lemma diff2_same a : diff2 a a = map (fun t => mkDiffOp Keep [t]) a.
Proof. unfold diff2. rewrite lcs_same. apply diff2_loop_same. Qed.

Lemma foldl_process_keeps a : forall st,
  foldl process_op st (map (fun t => mkDiffOp Keep [t]) a)
  = mkChanges (aIdx st + length a) (changes st) (insertionAtStart st).
Proof.
  induction a as [|t a IH]; intros [idx m start]; simpl.
  - by rewrite Nat.add_0_r.
  - rewrite IH. simpl. f_equal. lia.
Qed.

Lemma extract_changes_same a :
  extract_changes (diff2 a a) = mkChanges (length a) ∅ [].
Proof. unfold extract_changes. by rewrite diff2_same, foldl_process_keeps. Qed.

Lemma conflict_at_empty_r bm i : conflict_at bm ∅ i = false.
Proof.
  unfold conflict_at, insertions_conflict, insertAfter_at at 2.
  rewrite lookup_empty. simpl. by rewrite andb_false_r.
Qed.

Lemma existsb_false {A} (f : A -> bool) l :
  (forall x, f x = false) -> existsb f l = false.
Proof. intros Hf. induction l as [|x l IH]; simpl; [done|]. by rewrite Hf, IH. Qed.

Lemma ranges_nil_of_no_conflict bm cm (ranges : list ConflictRange) n :
  (forall i, i < n -> conflict_at bm cm i = false) ->
  map range_contents ranges = flat_map (conflict_contents bm cm) (seq 0 n) ->
  ranges = [].
Proof.
  intros Hno Hmap. apply (map_eq_nil range_contents). rewrite Hmap.
  assert (forall k m, k + m <= n -> flat_map (conflict_contents bm cm) (seq k m) = []) as H.
  { intros k m. revert k. induction m as [|m IH]; intros k Hk; simpl; [done|].
    rewrite IH by lia. unfold conflict_contents. by rewrite Hno by lia. }
  by apply H.
Qed.

Lemma start_tokens (bS cS : list token) :
  (if nonempty bS || nonempty cS then bS ++ cS else []) = bS ++ cS.
Proof. by destruct bS, cS. Qed.

Lemma expected_from_imap bm cm l : forall i,
  expected_from bm cm i l
  = concat (imap (fun k t => kept_part bm cm (i + k) t ++ inserted_part bm cm (i + k)) l).
Proof.
  induction l as [|t l IH]; intros i; simpl; [done|].
  rewrite Nat.add_0_r, <- app_assoc. f_equal. f_equal.
  rewrite IH. f_equal. apply imap_ext. intros k x _. simpl.
  by rewrite Nat.add_succ_r.
Qed.

(** The three components of the result of [wordMerge3Way]. *)
Lemma wordMerge3Way_unfold a b c :
  let tokensA := tokenize a in
  let bC := extract_changes (diff2 tokensA (tokenize b)) in
  let cC := extract_changes (diff2 tokensA (tokenize c)) in
  let st := merge_tokens tokensA (tokenize b) (tokenize c) in
  wordMerge3Way a b c = mkResult (join (st_merged st)) (st_hasConflict st) (st_ranges st)
  /\ st_merged st = insertionAtStart bC ++ insertionAtStart cC
                    ++ expected_from (changes bC) (changes cC) 0 tokensA
  /\ st_hasConflict st
     = existsb (conflict_at (changes bC) (changes cC)) (seq 0 (length tokensA))
  /\ map range_contents (st_ranges st)
     = flat_map (conflict_contents (changes bC) (changes cC)) (seq 0 (length tokensA))
  /\ Forall (marks (st_merged st)) (st_ranges st).
Proof.
  simpl. split; [done|]. unfold merge_tokens. rewrite start_tokens.
  split; [|split; [|split]].
  - rewrite merge_loop_merged. simpl. by rewrite <- app_assoc.
  - by rewrite merge_loop_hasConflict.
  - by rewrite merge_loop_ranges.
  - apply merge_loop_marks. constructor.
Qed.

(** C10.  Pass-through of the upgraded side: when C is the text of A,
    [wordMerge3Way a b a] returns B itself, character for character, with no
    conflict and no conflict range.  The proof goes through [tokenize_join]:
    the tokens of a text, concatenated, are the text. *)
Theorem wordMerge3Way_passthrough (a b : string) :
  wordMerge3Way a b a = mkResult b false [].
Proof.
  destruct (wordMerge3Way_unfold a b a) as (-> & Hm & Hc & Hr & _).
  rewrite extract_changes_same in Hm, Hc, Hr. simpl in *.
  assert (Hno : forall i, conflict_at
            (changes (extract_changes (diff2 (tokenize a) (tokenize b)))) ∅ i = false)
    by (intros i; apply conflict_at_empty_r).
  f_equal.
  - rewrite Hm, extract_changes_diff2. apply tokenize_join.
  - rewrite Hc. by apply existsb_false.
  - eapply ranges_nil_of_no_conflict; [|exact Hr]. intros i _. apply Hno.
Qed.

(** *** Deletions recorded by [extract_changes] *)

Lemma process_op_deleted st op :
  fresh_from st ->
  let st' := process_op st op in
  fresh_from st'
  /\ aIdx st' = aIdx st + length (ops_source [op])
  /\ forall i, deleted_at (changes st') i
       = deleted_at (changes st) i
         || bool_decide (i ∈ deleted_positions [op] (aIdx st)).
Proof.
  intros Hfresh. destruct op as [[] toks]; unfold process_op; simpl.
  - (* keep *)
    rewrite app_nil_r. split; [|split; [done|]].
    + intros k Hk. apply Hfresh. simpl in Hk. lia.
    + intros i. by rewrite orb_false_r.
  - (* delete *)
    destruct (mark_deleted_spec (length toks) (aIdx st) (changes st))
      as (m' & -> & Hm'). simpl. rewrite !app_nil_r.
    split; [|split; [done|]].
    + intros k Hk. simpl in Hk. rewrite Hm', bool_decide_eq_false_2 by lia.
      apply Hfresh. lia.
    + intros i. unfold deleted_at. rewrite Hm'.
      destruct (decide (aIdx st <= i < aIdx st + length toks)) as [Hin|Hout].
      * rewrite bool_decide_eq_true_2 by done.
        rewrite (bool_decide_eq_true_2 (i ∈ _)); [by rewrite orb_true_r|].
        apply list_elem_of_In, in_seq. lia.
      * rewrite bool_decide_eq_false_2 by done.
        rewrite (bool_decide_eq_false_2 (i ∈ _)); [by rewrite orb_false_r|].
        rewrite list_elem_of_In, in_seq. lia.
  - (* insert *)
    rewrite Nat.add_0_r.
    assert (Hnil : forall i, bool_decide (i ∈ @nil nat) = false)
      by (intros i; apply bool_decide_eq_false_2, not_elem_of_nil).
    destruct ((aIdx st =? 0)%nat && (size (changes st) =? 0)%nat); simpl.
    { split; [done|]. split; [done|]. intros i. by rewrite ?Hnil, orb_false_r. }
    destruct (0 <? aIdx st)%nat eqn:Hpos; simpl.
    2:{ split; [done|]. split; [done|]. intros i. by rewrite ?Hnil, orb_false_r. }
    apply Nat.ltb_lt in Hpos.
    split; [|split; [done|]].
    + intros k Hk. simpl in *. rewrite lookup_insert_ne by lia. by apply Hfresh.
    + intros i. rewrite ?Hnil, orb_false_r. unfold deleted_at. simpl.
      destruct (decide (i = aIdx st - 1)) as [->|Hne].
      * rewrite lookup_insert_eq. simpl.
        by destruct (changes st !! (aIdx st - 1)).
      * by rewrite lookup_insert_ne by done.
Qed.

Lemma deleted_positions_cons op ops idx :
  deleted_positions (op :: ops) idx
  = deleted_positions [op] idx
    ++ deleted_positions ops (idx + length (ops_source [op])).
Proof.
  destruct op as [[] toks]; simpl; rewrite ?app_nil_r, ?Nat.add_0_r;
    by rewrite <- ?app_assoc.
Qed.

Lemma bool_decide_elem_of_app (i : nat) (l1 l2 : list nat) :
  bool_decide (i ∈ l1 ++ l2) = bool_decide (i ∈ l1) || bool_decide (i ∈ l2).
Proof. rewrite <- bool_decide_or. apply bool_decide_ext, elem_of_app. Qed.

Lemma foldl_process_deleted ops : forall st,
  fresh_from st ->
  forall i, deleted_at (changes (foldl process_op st ops)) i
    = deleted_at (changes st) i
      || bool_decide (i ∈ deleted_positions ops (aIdx st)).
Proof.
  induction ops as [|op ops IH]; intros st Hfresh i.
  - simpl. by rewrite orb_false_r.
  - destruct (process_op_deleted st op Hfresh) as (Hfresh' & Hidx & Hdel).
    cbn [foldl]. rewrite IH by done. rewrite Hdel, Hidx.
    rewrite (deleted_positions_cons op ops), <- orb_assoc. f_equal.
    symmetry. apply bool_decide_elem_of_app.
Qed.

(** The flag of the change map is the diff's own verdict. *)
Lemma extract_changes_deleted ops i :
  deleted_at (changes (extract_changes ops)) i
  = bool_decide (i ∈ deleted_positions ops 0).
Proof.
  unfold extract_changes. rewrite foldl_process_deleted.
  - unfold deleted_at. simpl. by rewrite lookup_empty.
  - intros k _. apply lookup_empty.
Qed.

(** *** A diff without insertions records no insertion *)

Lemma foldl_process_no_insert ops : forall st,
  no_insert ops = true ->
  (forall i, insertAfter_at (changes st) i = []) ->
  forall i, insertAfter_at (changes (foldl process_op st ops)) i = [].
Proof.
  induction ops as [|[ty toks] ops IH]; intros st Hno Hst i; [apply Hst|].
  simpl in Hno. apply andb_true_iff in Hno as [Hty Hno].
  cbn [foldl]. apply IH; [done|]. clear i. intros i.
  destruct ty; [| |done]; unfold process_op; simpl; [apply Hst|].
  destruct (mark_deleted_spec (length toks) (aIdx st) (changes st))
    as (m' & -> & Hm'). simpl.
  unfold insertAfter_at. rewrite Hm'.
  destruct (bool_decide (aIdx st <= i < aIdx st + length toks)); [done|].
  apply Hst.
Qed.

Lemma extract_changes_no_insert ops i :
  no_insert ops = true ->
  insertAfter_at (changes (extract_changes ops)) i = [].
Proof.
  intros Hno. apply foldl_process_no_insert; [done|].
  intros k. unfold insertAfter_at. simpl. by rewrite lookup_empty.
Qed.

Lemma conflict_at_spec bm cm i :
  conflict_at bm cm i = true <->
  insertAfter_at bm i <> [] /\ insertAfter_at cm i <> []
  /\ join (insertAfter_at bm i) <> join (insertAfter_at cm i).
Proof.
  unfold conflict_at, insertions_conflict.
  rewrite !andb_true_iff, negb_true_iff, bool_decide_eq_false.
  assert (Hne : forall l : list token, nonempty l = true <-> l <> [])
    by (intros []; simpl; split; congruence).
  rewrite !Hne. tauto.
Qed.

Lemma existsb_seq_true (f : nat -> bool) n :
  existsb f (seq 0 n) = true <-> exists i, i < n /\ f i = true.
Proof.
  rewrite existsb_exists. split.
  - intros (i & Hi & Hf). apply in_seq in Hi. exists i. split; [lia|done].
  - intros (i & Hi & Hf). exists i. split; [apply in_seq; lia|done].
Qed.

Lemma imap_concat_ext {A B} (f g : nat -> A -> list B) (l : list A) :
  (forall i x, l !! i = Some x -> f i x = g i x) ->
  concat (imap f l) = concat (imap g l).
Proof. intros H. f_equal. by apply imap_ext. Qed.

Lemma hasConflict_iff a b c :
  let tokensA := tokenize a in
  let bChanges := changes (extract_changes (diff2 tokensA (tokenize b))) in
  let cChanges := changes (extract_changes (diff2 tokensA (tokenize c))) in
  hasConflict (wordMerge3Way a b c) = true <->
  exists i, i < length tokensA
    /\ insertAfter_at bChanges i <> [] /\ insertAfter_at cChanges i <> []
    /\ join (insertAfter_at bChanges i) <> join (insertAfter_at cChanges i).
Proof.
  cbv zeta. destruct (wordMerge3Way_unfold a b c) as (-> & _ & -> & _).
  cbn [hasConflict]. rewrite existsb_seq_true.
  split; intros (i & Hi & H); exists i; (split; [done|]); by apply conflict_at_spec.
Qed.

(** C4.  Deletion reconciliation in [wordMerge3Way]: the merged text is the
    concatenation, over the A-tokens in order, of the token itself exactly
    when neither the A-to-B diff nor the A-to-C diff deleted it, followed by
    what was inserted after it.  A conflict is reported exactly when both
    sides recorded insertions with different text after one same A-token, so
    deletions, one-sided or two-sided, never contribute one; in particular a
    side whose diff has no insertion rules every conflict out. *)
Theorem wordMerge3Way_deletion_rule (a b c : string) :
  let tokensA := tokenize a in
  let abDiff := diff2 tokensA (tokenize b) in
  let acDiff := diff2 tokensA (tokenize c) in
  let bC := extract_changes abDiff in
  let cC := extract_changes acDiff in
  let deletedBy (ops : list DiffOp) (i : nat) :=
    bool_decide (i ∈ deleted_positions ops 0) in
  merged (wordMerge3Way a b c)
  = join (insertionAtStart bC ++ insertionAtStart cC ++
          concat (imap (fun i aToken =>
            (if deletedBy abDiff i || deletedBy acDiff i then [] else [aToken])
            ++ inserted_part (changes bC) (changes cC) i) tokensA))
  /\ (hasConflict (wordMerge3Way a b c) = true <->
      exists i, i < length tokensA
        /\ insertAfter_at (changes bC) i <> []
        /\ insertAfter_at (changes cC) i <> []
        /\ join (insertAfter_at (changes bC) i)
           <> join (insertAfter_at (changes cC) i))
  /\ (no_insert abDiff = true \/ no_insert acDiff = true ->
      hasConflict (wordMerge3Way a b c) = false).
Proof.
  cbv zeta. split; [|split].
  - destruct (wordMerge3Way_unfold a b c) as (-> & -> & _).
    cbn [merged]. rewrite expected_from_imap.
    erewrite imap_concat_ext; [reflexivity|].
    intros i t _. cbn beta. unfold kept_part.
    by rewrite !extract_changes_deleted.
  - apply hasConflict_iff.
  - intros Hno. apply not_true_is_false. intros Hc.
    apply hasConflict_iff in Hc as (i & _ & Hb & Hc & _).
    destruct Hno as [Hno|Hno].
    + by rewrite extract_changes_no_insert in Hb.
    + by rewrite extract_changes_no_insert in Hc.
Qed.

(** The deletion rule at work: one side drops "two", the other drops "one";
    neither diff has an insertion, and no conflict is reported. *)
Lemma wordMerge3Way_deletion_rule_two_deletions :
  no_insert (diff2 (tokenize "one two three") (tokenize "one three")) = true
  /\ hasConflict (wordMerge3Way "one two three" "one three" "two three") = false.
Proof.
  assert (H : no_insert (diff2 (tokenize "one two three") (tokenize "one three"))
              = true) by (vm_compute; reflexivity).
  split; [exact H|].
  destruct (wordMerge3Way_deletion_rule "one two three" "one three" "two three")
    as (_ & _ & Hnone).
  apply Hnone. left. exact H.
Defined.



(** Disjoint word changes may still conflict: in "a b a" one side rewrites
    the first two words, the other the third; the diff of the first side
    re-inserts " a" after the last token, where the other side inserts "b". *)
Lemma wordMerge3Way_disjoint_words_conflict :
  change_disjoint_words "a b a" "b a a" "a b b" = true
  /\ changed_positions (tokenize "a b a") (tokenize "b a a") = [0; 2]
  /\ changed_positions (tokenize "a b a") (tokenize "a b b") = [4]
  /\ wordMerge3Way "a b a" "b a a" "a b b"
     = mkResult "b <<< a|b>>>" true [mkRange 2 3 " a" "b"].
Proof. vm_compute. repeat split. Qed.

(** *** The tokenizer and the two-way diff on their own *)

Lemma push_truthy_Forall tokens current :
  Forall (fun t => truthy t = true) tokens ->
  Forall (fun t => truthy t = true) (push_truthy tokens current).
Proof.
  intros H. unfold push_truthy. destruct (truthy current) eqn:E; [|done].
  apply Forall_app. split; [done|]. by constructor.
Qed.

Lemma tokenize_loop_Forall text : forall tokens current inWord,
  Forall (fun t => truthy t = true) tokens ->
  Forall (fun t => truthy t = true) (tokenize_loop text tokens current inWord).
Proof.
  induction text as [|c rest IH]; intros tokens current inWord H;
    cbn [tokenize_loop].
  - by apply push_truthy_Forall.
  - cbv zeta.
    destruct (isWordChar c && negb inWord);
      [by apply IH, push_truthy_Forall|].
    destruct (negb (isWordChar c) && inWord);
      [by apply IH, push_truthy_Forall|].
    by apply IH.
Qed.

(** X2.  [tokenize] partitions its text: no token is empty, and the tokens
    concatenated in order are the text. *)
Theorem tokenize_partition (text : string) :
  join (tokenize text) = text
  /\ Forall (fun t => truthy t = true) (tokenize text).
Proof.
  split; [apply tokenize_join|]. apply tokenize_loop_Forall. constructor.
Qed.

(** X3.  [diff2] is an edit script from [original] to [modified]: its keep
    and delete operations, in order, spell [original]; its keep and insert
    operations spell [modified]; and the common sequence [lcs] hands it is a
    subsequence of both. *)
Theorem diff2_edit_script (original modified : list token) :
  ops_source (diff2 original modified) = original
  /\ ops_target (diff2 original modified) = modified
  /\ lcs original modified `sublist_of` original
  /\ lcs original modified `sublist_of` modified.
Proof.
  destruct (diff2_spec original modified) as (Hs & Ht).
  destruct (lcs_sublist original modified) as (Ha & Hb).
  done.
Qed.

End WordMergeProofs.

(** ** Similarity: proofs *)

Module SimilarityProofs.
Import JS Similarity.
Local Open Scope float_scope.

Lemma cosine_sums_spec a : forall b d na nb,
  length a = length b ->
  cosine_sums a b d na nb
  = (foldl (fun acc '(x, y) => acc + x * y) d (zip a b),
     foldl (fun acc x => acc + x * x) na a,
     foldl (fun acc x => acc + x * x) nb b).
Proof.
  induction a as [|x a IH]; intros [|y b] d na nb Hlen; try done.
  simpl. apply IH. simpl in Hlen. lia.
Qed.

Lemma sum_squares_zero v acc :
  acc = 0 -> Forall is_zero v -> foldl (fun acc x => acc + x * x) acc v = 0.
Proof.
  intros Hacc Hv. revert acc Hacc.
  induction Hv as [|x v [->| ->] _ IH]; intros acc ->; simpl; [done|..];
    by apply IH.
Qed.

Lemma zero_mul_finite s :
  is_finite s = true -> (0 * s =? 0) = true /\ (s * 0 =? 0) = true.
Proof.
  unfold is_finite. rewrite classify_spec, !FloatAxioms.eqb_spec, !mul_spec.
  replace (Prim2SF 0) with (S754_zero false) by (vm_compute; reflexivity).
  destruct (Prim2SF s) as [sg|sg| |sg m e]; simpl.
  - by destruct sg.
  - by destruct sg.
  - done.
  - by destruct sg.
Qed.

(** C9, as the code has it.  [cosineSimilarity] throws exactly when the two
    lengths differ.  On equal lengths it returns 0 when the magnitude it
    computed, [sqrt normA * sqrt normB], equals 0, and the dot product over
    that magnitude otherwise; so it returns 0 when one vector is all-zero
    and the computed norm of the other is a finite number. *)
Theorem cosineSimilarity_contract (a b : list float) :
  ((exists message, cosineSimilarity a b = Throw message)
   <-> length a <> length b)
  /\ (length a = length b ->
      let magnitude := sqrt (sum_squares a) * sqrt (sum_squares b) in
      cosineSimilarity a b
      = Ok (if magnitude =? 0 then 0 else dot_product a b / magnitude))
  /\ (length a = length b -> Forall is_zero a ->
      is_finite (sqrt (sum_squares b)) = true -> cosineSimilarity a b = Ok 0)
  /\ (length a = length b -> Forall is_zero b ->
      is_finite (sqrt (sum_squares a)) = true -> cosineSimilarity a b = Ok 0).
Proof.
  assert (Heq : length a = length b ->
      cosineSimilarity a b
      = Ok (if sqrt (sum_squares a) * sqrt (sum_squares b) =? 0 then 0
            else dot_product a b / (sqrt (sum_squares a) * sqrt (sum_squares b)))).
  { intros Hlen. unfold cosineSimilarity.
    rewrite Hlen, Nat.eqb_refl. simpl.
    rewrite cosine_sums_spec by done.
    fold (dot_product a b) (sum_squares a) (sum_squares b).
    by destruct (sqrt (sum_squares a) * sqrt (sum_squares b) =? 0). }
  split; [|split; [exact Heq|split]].
  - split.
    + intros [message Hthrow] Hlen. rewrite (Heq Hlen) in Hthrow. discriminate.
    + intros Hlen. unfold cosineSimilarity.
      apply Nat.eqb_neq in Hlen. rewrite Hlen. simpl. by eexists.
  - intros Hlen Ha Hfin. rewrite (Heq Hlen).
    unfold sum_squares at 1. rewrite (sum_squares_zero a 0 eq_refl Ha).
    replace (sqrt 0) with 0 by (vm_compute; reflexivity).
    by rewrite (proj1 (zero_mul_finite _ Hfin)).
  - intros Hlen Hb Hfin. rewrite (Heq Hlen).
    unfold sum_squares at 2. rewrite (sum_squares_zero b 0 eq_refl Hb).
    replace (sqrt 0) with 0 by (vm_compute; reflexivity).
    by rewrite (proj2 (zero_mul_finite _ Hfin)).
Qed.

(** The zero vector of the tests: [0, 0, 0] against [1, 2, 3] gives 0. *)
Lemma cosineSimilarity_contract_zero_vector :
  length [0; 0; 0] = length [1; 2; 3]
  /\ Forall is_zero [0; 0; 0]
  /\ is_finite (sqrt (sum_squares [1; 2; 3])) = true
  /\ cosineSimilarity [0; 0; 0] [1; 2; 3] = Ok 0.
Proof.
  assert (Hl : length [0; 0; 0] = length [1; 2; 3]) by reflexivity.
  assert (Hz : Forall is_zero [0; 0; 0]) by (repeat constructor; by left).
  assert (Hf : is_finite (sqrt (sum_squares [1; 2; 3])) = true)
    by (vm_compute; reflexivity).
  split; [exact Hl|]. split; [exact Hz|]. split; [exact Hf|].
  destruct (cosineSimilarity_contract [0; 0; 0] [1; 2; 3]) as (_ & _ & Hzero & _).
  exact (Hzero Hl Hz Hf).
Defined.

(** An all-zero vector does not always give 0: against [2 ** 600] the
    squared norm overflows to Infinity, the magnitude is [0 * Infinity], and
    the result is NaN. *)
Lemma cosineSimilarity_zero_vector_nan :
  Forall is_zero [0]
  /\ cosineSimilarity [0] [0x1p600] = Ok nan
  /\ cosineSimilarity [0] [0x1p600] <> Ok 0.
Proof.
  split; [repeat constructor|]. split; [vm_compute; reflexivity|].
  intros H.
  apply (f_equal (fun r => match r with Ok x => classify x | Throw _ => NaN end)) in H.
  vm_compute in H. discriminate.
Qed.

End SimilarityProofs.

(** ** Alignment: proofs *)

Module AlignmentProofs.
Import JS Types Similarity Alignment.

Section Table.
Variables (M : list (list float)) (thr : float).

(** The cell [k] of a run of [fill_row] started at column [j0]. *)
Lemma fill_row_lookup i prev cols : forall j0 left k,
  k < cols ->
  exists cell,
    fill_row M thr i prev j0 cols left !! k = Some cell
    /\ cell = fill_cell thr (sim_at M (i - 1) (j0 + k - 1))
                (row_score prev (j0 + k - 1)) (row_score prev (j0 + k))
                (match k with
                 | 0 => score left
                 | S k' => row_score (fill_row M thr i prev j0 cols left) k'
                 end).
Proof.
  induction cols as [|cols IH]; intros j0 left k Hk; [lia|].
  destruct k as [|k]; simpl.
  - eexists. split; [reflexivity|]. by rewrite Nat.add_0_r.
  - destruct (IH (S j0) (fill_cell thr (sim_at M (i - 1) (j0 - 1))
                 (row_score prev (j0 - 1)) (row_score prev j0) (score left)) k)
      as (cell & Hcell & ->); [lia|].
    eexists. split; [exact Hcell|].
    replace (S j0 + k) with (j0 + S k) by lia. f_equal.
    destruct k as [|k]; [done|]. done.
Qed.

Lemma fill_row_length i prev cols : forall j0 left,
  length (fill_row M thr i prev j0 cols left) = cols.
Proof. induction cols as [|cols IH]; intros j0 left; simpl; [done|]. by rewrite IH. Qed.

Lemma table_row_lookup n i prev j :
  1 <= j <= n ->
  exists cell,
    table_row M thr n i prev !! j = Some cell
    /\ cell = fill_cell thr (sim_at M (i - 1) (j - 1))
                (row_score prev (j - 1)) (row_score prev j)
                (row_score (table_row M thr n i prev) (j - 1)).
Proof.
  intros Hj. unfold table_row. destruct j as [|k]; [lia|]. simpl.
  destruct (fill_row_lookup i prev n 1 (mkCell 0 ActDelete) k) as (cell & Hc & ->); [lia|].
  eexists. split; [exact Hc|].
  replace (1 + k - 1) with k by lia. replace (k - 0) with k by lia.
  replace (1 + k) with (S k) by lia. f_equal.
  destruct k as [|k]; done.
Qed.

Lemma fill_rows_lookup n rows : forall i0 prev k,
  k < rows ->
  fill_rows M thr n i0 rows prev !! k
  = Some (table_row M thr n (i0 + k)
            (match k with
             | 0 => prev
             | S k' => default [] (fill_rows M thr n i0 rows prev !! k')
             end)).
Proof.
  induction rows as [|rows IH]; intros i0 prev k Hk; [lia|].
  destruct k as [|k]; simpl.
  - by rewrite Nat.add_0_r.
  - rewrite IH by lia. replace (S i0 + k) with (i0 + S k) by lia.
    do 2 f_equal. destruct k as [|k]; [done|]. simpl. by rewrite IH by lia.
Qed.

(** Row [i >= 1] of the table is built from row [i - 1]. *)
Lemma fill_table_row m n i :
  1 <= i <= m ->
  fill_table M thr m n !! i
  = Some (table_row M thr n i (default [] (fill_table M thr m n !! (i - 1)))).
Proof.
  intros Hi. unfold fill_table. destruct i as [|k]; [lia|]. simpl.
  rewrite fill_rows_lookup by lia. replace (k - 0) with k by lia.
  do 2 f_equal. destruct k as [|k]; [done|]. simpl. done.
Qed.

Lemma dp_at_row table i j :
  dp_at table i j = row_score (default [] (table !! i)) j.
Proof. unfold dp_at, row_score. by destruct (table !! i). Qed.

(** The recurrence of the inner loop, read off the finished table. *)
Lemma fill_table_cell m n i j :
  1 <= i <= m -> 1 <= j <= n ->
  let table := fill_table M thr m n in
  let cell := fill_cell thr (sim_at M (i - 1) (j - 1))
                (dp_at table (i - 1) (j - 1)) (dp_at table (i - 1) j)
                (dp_at table i (j - 1)) in
  dp_at table i j = score cell /\ action_at table i j = action cell.
Proof.
  intros Hi Hj. simpl. set (table := fill_table M thr m n).
  pose proof (fill_table_row m n i Hi) as Hrow. fold table in Hrow.
  destruct (table_row_lookup n i (default [] (table !! (i - 1))) j Hj)
    as (cell & Hcell & Heq).
  rewrite !(dp_at_row table (i - 1)), (dp_at_row table i (j - 1)).
  unfold dp_at, action_at. rewrite Hrow. simpl. rewrite Hcell. simpl.
  by rewrite Heq.
Qed.

(** The first column of the rows below the first holds "delete". *)
Lemma fill_table_first_column m n i :
  1 <= i <= m -> action_at (fill_table M thr m n) i 0 = ActDelete.
Proof.
  intros Hi. unfold action_at. by rewrite fill_table_row by done.
Qed.

Lemma fill_table_first_row m n j :
  dp_at (fill_table M thr m n) 0 j = 0%float
  /\ (1 <= j <= n -> action_at (fill_table M thr m n) 0 j = ActInsert).
Proof.
  unfold dp_at, action_at, fill_table, row_zero. simpl. split.
  - destruct j as [|j]; simpl; [done|].
    destruct (decide (j < n)) as [Hlt|Hge].
    + by rewrite lookup_replicate_2.
    + by rewrite (proj1 (lookup_replicate_None _ _ _)) by lia.
  - intros Hj. destruct j as [|j]; [lia|]. simpl.
    by rewrite lookup_replicate_2 by lia.
Qed.

Lemma fill_table_first_column_score m n i :
  dp_at (fill_table M thr m n) i 0 = 0%float.
Proof.
  destruct (decide (1 <= i <= m)) as [Hi|Hi].
  - unfold dp_at. by rewrite fill_table_row by done.
  - destruct i as [|i]; [apply fill_table_first_row|].
    unfold dp_at, fill_table. simpl.
    rewrite (proj2 (lookup_ge_None _ _)); [done|].
    assert (Hlen : forall rows i0 prev, length (fill_rows M thr n i0 rows prev) = rows).
    { induction rows as [|rows IH]; intros i0 prev; simpl; [done|]. by rewrite IH. }
    rewrite Hlen. lia.
Qed.
End Table.

Lemma ltb_0_S n : (0 <? S n)%nat = true.
Proof. reflexivity. Qed.

Lemma ltb_0_0 : (0 <? 0)%nat = false.
Proof. reflexivity. Qed.

Section Backtrack.
Variables (source target : list SemanticUnit) (M : list (list float))
  (thr : float) (table : list (list Cell)).
Hypothesis first_column :
  forall i, 1 <= i <= length source -> action_at table i 0 = ActDelete.
Hypothesis first_row :
  forall j, 1 <= j <= length target -> action_at table 0 j = ActInsert.
Hypothesis inner_cells :
  forall i j, 1 <= i <= length source -> 1 <= j <= length target ->
    action_at table i j <> NoAction.

Let good (p : AlignedPair) : Prop :=
  well_shaped_pair p /\ tagged_by_rule source target M thr table p.

(** The three pairs the loop can read at a cell. *)
Let match_pair (i j : nat) : PairObject :=
  mkObject
    (mkPair (source !! i) (target !! j) (sim_at M i j)
       (if (thr <=? sim_at M i j)%float then Match else Modification))
    (Some i) (Some j).
Let delete_pair (i : nat) : PairObject :=
  mkObject (mkPair (source !! i) None 0%float Deletion) (Some i) None.
Let insert_pair (j : nat) : PairObject :=
  mkObject (mkPair None (target !! j) 0%float Insertion) None (Some j).

(** One turn of the loop, by the entry of the cell. *)
Lemma seq_backtrack_step fuel i j acc :
  seq_backtrack (S fuel) source target M thr table i j acc
  = match i, j with
    | 0, 0 => acc
    | 0, S j' => seq_backtrack fuel source target M thr table 0 j'
                   (insert_pair j' :: acc)
    | S i', 0 =>
        if bool_decide (action_at table i 0 = ActDelete)
        then seq_backtrack fuel source target M thr table i' 0
               (delete_pair i' :: acc)
        else acc
    | S i', S j' =>
        if bool_decide (action_at table i j = ActMatch)
        then seq_backtrack fuel source target M thr table i' j'
               (match_pair i' j' :: acc)
        else if bool_decide (action_at table i j = ActDelete)
        then seq_backtrack fuel source target M thr table i' j
               (delete_pair i' :: acc)
        else seq_backtrack fuel source target M thr table i j'
               (insert_pair j' :: acc)
    end.
Proof.
  cbn [seq_backtrack].
  destruct i as [|i'], j as [|j']; rewrite ?ltb_0_S, ?ltb_0_0; cbn [orb andb].
  - done.
  - rewrite !andb_false_r. cbn [andb].
    by replace (S j' - 1) with j' by lia.
  - rewrite !andb_false_r, !andb_true_r. cbn [andb].
    by replace (S i' - 1) with i' by lia.
  - rewrite !andb_true_r.
    replace (S i' - 1) with i' by lia. by replace (S j' - 1) with j' by lia.
Qed.

Lemma seq_backtrack_spec fuel : forall i j acc,
  i <= length source -> j <= length target -> i + j <= fuel ->
  let r := map pair_of (seq_backtrack fuel source target M thr table i j acc) in
  omap Types.source r = take i source ++ omap Types.source (map pair_of acc)
  /\ omap Types.target r = take j target ++ omap Types.target (map pair_of acc)
  /\ (Forall good (map pair_of acc) -> Forall good r).
Proof.
  induction fuel as [|fuel IH]; intros i j acc Hi Hj Hfuel.
  { replace i with 0 by lia. replace j with 0 by lia. simpl. done. }
  cbv zeta. rewrite seq_backtrack_step.
  destruct i as [|i'], j as [|j'].
  - done.
  - (* i = 0: an insertion, whatever the entry *)
    destruct (lookup_lt_is_Some_2 target j') as [t Ht]; [lia|].
    destruct (IH 0 j' (insert_pair j' :: acc)) as (Hs & Ht' & Hgood); [lia..|].
    split; [|split].
    + rewrite Hs. simpl. done.
    + rewrite Ht'. simpl. rewrite Ht. simpl.
      rewrite (take_S_r target j' t Ht). by rewrite <- app_assoc.
    + intros Hacc. apply Hgood. constructor; [|done].
      split; [|done]. split; [done|]. simpl. by rewrite Ht.
  - (* j = 0: the first column holds "delete" *)
    rewrite first_column by lia. rewrite bool_decide_eq_true_2 by done.
    destruct (lookup_lt_is_Some_2 source i') as [s Hs0]; [lia|].
    destruct (IH i' 0 (delete_pair i' :: acc)) as (Hs & Ht' & Hgood); [lia..|].
    split; [|split].
    + rewrite Hs. simpl. rewrite Hs0. simpl.
      rewrite (take_S_r source i' s Hs0). by rewrite <- app_assoc.
    + rewrite Ht'. simpl. done.
    + intros Hacc. apply Hgood. constructor; [|done].
      split; [|done]. split; [|done]. simpl. by rewrite Hs0.
  - destruct (lookup_lt_is_Some_2 source i') as [s Hs0]; [lia|].
    destruct (lookup_lt_is_Some_2 target j') as [t Ht0]; [lia|].
    case_bool_decide as Hmatch; [|case_bool_decide as Hdelete].
    + (* match *)
      set (sim := sim_at M i' j').
      set (p := mkPair (source !! i') (target !! j') sim
                  (if (thr <=? sim)%float then Match else Modification)).
      destruct (IH i' j' (match_pair i' j' :: acc)) as (Hs & Ht' & Hgood); [lia..|].
      split; [|split].
      * rewrite Hs. simpl. rewrite Hs0. simpl.
        rewrite (take_S_r source i' s Hs0). by rewrite <- app_assoc.
      * rewrite Ht'. simpl. rewrite Ht0. simpl.
        rewrite (take_S_r target j' t Ht0). by rewrite <- app_assoc.
      * intros Hacc. apply Hgood. cbn [map]. constructor; [|done].
        change (pair_of (match_pair i' j')) with p.
        assert (Hfrom : from_match_cell source target M thr table p).
        { exists (S i'), (S j'). unfold p. simpl.
          replace (i' - 0) with i' by lia. replace (j' - 0) with j' by lia.
          repeat split; (lia || done). }
        assert (Hty : type p = Match \/ type p = Modification)
          by (unfold p; simpl; destruct (thr <=? sim)%float; auto).
        unfold good, well_shaped_pair, tagged_by_rule.
        destruct Hty as [Hty|Hty]; rewrite Hty; (split; [|exact Hfrom]);
          unfold p; simpl; by rewrite Hs0, Ht0.
    + (* delete *)
      destruct (IH i' (S j') (delete_pair i' :: acc))
        as (Hs & Ht' & Hgood); [lia..|].
      split; [|split].
      * rewrite Hs. simpl. rewrite Hs0. simpl.
        rewrite (take_S_r source i' s Hs0). by rewrite <- app_assoc.
      * rewrite Ht'. simpl. done.
      * intros Hacc. apply Hgood. constructor; [|done].
        split; [|done]. split; [|done]. simpl. by rewrite Hs0.
    + (* insert *)
      destruct (IH (S i') j' (insert_pair j' :: acc))
        as (Hs & Ht' & Hgood); [lia..|].
      split; [|split].
      * rewrite Hs. simpl. done.
      * rewrite Ht'. simpl. rewrite Ht0. simpl.
        rewrite (take_S_r target j' t Ht0). by rewrite <- app_assoc.
      * intros Hacc. apply Hgood. constructor; [|done].
        split; [|done]. split; [done|]. simpl. by rewrite Ht0.
Qed.

(** The loop reads its pairs along the path the entries of the table lay
    out from the cell it starts at. *)
Lemma seq_backtrack_path fuel : forall i j acc,
  i <= length source -> j <= length target -> i + j <= fuel ->
  exists ps,
    path_pairs source target M thr table i j ps
    /\ map pair_of (seq_backtrack fuel source target M thr table i j acc)
       = ps ++ map pair_of acc.
Proof.
  induction fuel as [|fuel IH]; intros i j acc Hi Hj Hfuel.
  { replace i with 0 by lia. replace j with 0 by lia.
    exists []. split; [constructor|done]. }
  rewrite seq_backtrack_step.
  destruct i as [|i'], j as [|j'].
  - exists []. split; [constructor|done].
  - destruct (IH 0 j' (insert_pair j' :: acc)) as (ps & Hps & ->); [lia..|].
    eexists. split; [apply path_insert; [apply first_row; lia|exact Hps]|].
    cbn [map]. by rewrite <- app_assoc.
  - rewrite first_column by lia. rewrite bool_decide_eq_true_2 by done.
    destruct (IH i' 0 (delete_pair i' :: acc)) as (ps & Hps & ->); [lia..|].
    eexists. split; [apply path_delete; [apply first_column; lia|exact Hps]|].
    cbn [map]. by rewrite <- app_assoc.
  - case_bool_decide as Hmatch; [|case_bool_decide as Hdelete].
    + destruct (IH i' j' (match_pair i' j' :: acc)) as (ps & Hps & ->); [lia..|].
      eexists. split; [apply path_match; [exact Hmatch|exact Hps]|].
      cbn [map]. by rewrite <- app_assoc.
    + destruct (IH i' (S j') (delete_pair i' :: acc)) as (ps & Hps & ->); [lia..|].
      eexists. split; [apply path_delete; [exact Hdelete|exact Hps]|].
      cbn [map]. by rewrite <- app_assoc.
    + assert (Hinsert : action_at table (S i') (S j') = ActInsert).
      { pose proof (inner_cells (S i') (S j')) as Hinner.
        destruct (action_at table (S i') (S j')); try done. exfalso.
        apply Hinner; (lia || done). }
      destruct (IH (S i') j' (insert_pair j' :: acc)) as (ps & Hps & ->); [lia..|].
      eexists. split; [apply path_insert; [exact Hinsert|exact Hps]|].
      cbn [map]. by rewrite <- app_assoc.
Qed.

(** The references of the pairs are the indices their units were read at. *)
Lemma seq_backtrack_refs fuel : forall i j acc,
  Forall (fun o =>
            Types.source (pair_of o) = (source_ref o ≫= (source !!.))
            /\ Types.target (pair_of o) = (target_ref o ≫= (target !!.))) acc ->
  Forall (fun o =>
            Types.source (pair_of o) = (source_ref o ≫= (source !!.))
            /\ Types.target (pair_of o) = (target_ref o ≫= (target !!.)))
    (seq_backtrack fuel source target M thr table i j acc).
Proof.
  induction fuel as [|fuel IH]; intros i j acc Hacc; [done|].
  rewrite seq_backtrack_step.
  destruct i as [|i'], j as [|j']; [done|..];
    repeat case_bool_decide; try done; apply IH; by constructor.
Qed.
End Backtrack.

(** The path from a cell is unique: the entry of a cell names one move. *)
Lemma path_pairs_unique source target M thr table i j ps :
  path_pairs source target M thr table i j ps ->
  forall ps', path_pairs source target M thr table i j ps' -> ps' = ps.
Proof.
  induction 1 as [|i j ps Hact _ IH|i j ps Hact _ IH|i j ps Hact _ IH];
    intros ps' Hps'; inversion Hps'; subst; try congruence;
    by (f_equal; apply IH).
Qed.

Lemma fill_table_inner M thr m n i j :
  1 <= i <= m -> 1 <= j <= n ->
  action_at (fill_table M thr m n) i j <> NoAction.
Proof.
  intros Hi Hj.
  destruct (fill_table_cell M thr m n i j Hi Hj) as [_ ->].
  unfold fill_cell, choose.
  by repeat match goal with |- context [if ?b then _ else _] => destruct b end.
Qed.

(** C6.  [sequentialAlign] fills every inner cell of its table with the
    best of three scores: the diagonal plus the similarity (or plus -0.5
    when the similarity is not at least the threshold), the cell above
    minus 0.1, the cell to the left minus 0.1; a tie goes to the match,
    then to the deletion.  The first row and the first column hold the
    score 0, with "insert" along the row and "delete" down the column.
    The pairs it returns are the ones read on the way back from [(m, n)]
    to [(0, 0)] along the entries of the table, in the order of the texts,
    and no other list is: a "match" entry gives a pair of both units,
    a [Match] when its similarity reaches the threshold and a
    [Modification] otherwise, a "delete" entry a deletion and an "insert"
    entry an insertion.  So the sources of the pairs are the source units
    in order, and the targets the target units in order. *)
Theorem sequentialAlign_dp (source target : list SemanticUnit)
    (similarityMatrix : list (list float)) (opts : ResolvedOptions) :
  let m := length source in
  let n := length target in
  let matchThreshold := opt_matchThreshold opts in
  let table := fill_table similarityMatrix matchThreshold m n in
  let result := sequentialAlign source target similarityMatrix opts in
  (forall i j, 1 <= i <= m -> 1 <= j <= n ->
     let sim := sim_at similarityMatrix (i - 1) (j - 1) in
     let matchScore :=
       (dp_at table (i - 1) (j - 1)
        + (if matchThreshold <=? sim then sim else -0.5))%float in
     let deleteScore := (dp_at table (i - 1) j - 0x1.999999999999ap-4)%float in
     let insertScore := (dp_at table i (j - 1) - 0x1.999999999999ap-4)%float in
     (dp_at table i j, action_at table i j)
     = if ((deleteScore <=? matchScore) && (insertScore <=? matchScore))%float
       then (matchScore, ActMatch)
       else if (insertScore <=? deleteScore)%float
       then (deleteScore, ActDelete)
       else (insertScore, ActInsert))
  /\ (forall i, i <= m -> dp_at table i 0 = 0%float)
  /\ (forall j, j <= n -> dp_at table 0 j = 0%float)
  /\ (forall i, 1 <= i <= m -> action_at table i 0 = ActDelete)
  /\ (forall j, 1 <= j <= n -> action_at table 0 j = ActInsert)
  /\ path_pairs source target similarityMatrix matchThreshold table m n
       (pairs result)
  /\ (forall ps,
        path_pairs source target similarityMatrix matchThreshold table m n ps ->
        ps = pairs result)
  /\ omap Types.source (pairs result) = source
  /\ omap Types.target (pairs result) = target
  /\ Forall (tagged_by_rule source target similarityMatrix matchThreshold table)
       (pairs result).
Proof.
  cbv zeta.
  set (thr := opt_matchThreshold opts).
  set (table := fill_table similarityMatrix thr (length source) (length target)).
  assert (Hcolumn : forall i, 1 <= i <= length source ->
            action_at table i 0 = ActDelete)
    by (intros i Hi; by apply fill_table_first_column).
  assert (Hrow : forall j, 1 <= j <= length target ->
            action_at table 0 j = ActInsert)
    by (intros j Hj; by apply fill_table_first_row).
  assert (Hinner : forall i j, 1 <= i <= length source ->
            1 <= j <= length target -> action_at table i j <> NoAction)
    by (intros i j Hi Hj; by apply fill_table_inner).
  assert (Hpath : path_pairs source target similarityMatrix thr table
            (length source) (length target)
            (pairs (sequentialAlign source target similarityMatrix opts))).
  { unfold sequentialAlign, sequential_pairs. cbn [pairs].
    destruct (seq_backtrack_path source target similarityMatrix thr table
                Hcolumn Hrow Hinner (length source + length target)
                (length source) (length target) [])
      as (ps & Hps & Heq); [lia..|].
    fold thr table. rewrite Heq. cbn [map]. by rewrite app_nil_r. }
  split; [|split; [|split; [|split; [|split; [|split; [|split]]]]]].
  - intros i j Hi Hj. unfold table.
    destruct (fill_table_cell similarityMatrix thr
                (length source) (length target) i j Hi Hj) as [-> ->].
    unfold fill_cell, choose, matchPenalty, gapPenalty.
    by repeat match goal with |- context [if ?b then _ else _] => destruct b end.
  - intros i _. apply fill_table_first_column_score.
  - intros j _. apply fill_table_first_row.
  - exact Hcolumn.
  - exact Hrow.
  - exact Hpath.
  - intros ps Hps. by apply (path_pairs_unique _ _ _ _ _ _ _ _ Hpath).
  - unfold sequentialAlign, sequential_pairs. cbn [pairs]. fold thr table.
    destruct (seq_backtrack_spec source target similarityMatrix thr table
                Hcolumn (length source + length target)
                (length source) (length target) [])
      as (Hs & Ht & Hgood); [lia..|].
    rewrite Hs, Ht, !firstn_all. simpl. rewrite !app_nil_r.
    repeat split. eapply Forall_impl; [apply Hgood; constructor|].
    by intros p [_ Hp].
Qed.

Lemma sequentialAlign_well_shaped source target M opts :
  Forall well_shaped_pair (pairs (sequentialAlign source target M opts)).
Proof.
  unfold sequentialAlign, sequential_pairs. cbn [pairs].
  destruct (seq_backtrack_spec source target M (opt_matchThreshold opts)
              (fill_table M (opt_matchThreshold opts)
                 (length source) (length target))
              (fill_table_first_column _ _ _ _)
              (length source + length target) (length source) (length target) [])
    as (_ & _ & Hgood); [lia..|].
  eapply Forall_impl; [apply Hgood; constructor|]. by intros p [Hp _].
Qed.

(** *** Sorting keeps the elements *)

Lemma sort_insert_Forall {A} (P : A -> Prop) after x (l : list A) :
  P x -> Forall P l -> Forall P (sort_insert after x l).
Proof.
  intros Hx Hl. induction Hl as [|y l Hy Hl IH]; simpl.
  - by constructor.
  - destruct (after y x); repeat constructor; done.
Qed.

Lemma stable_sort_Forall {A} (P : A -> Prop) after (l : list A) :
  Forall P l -> Forall P (stable_sort after l).
Proof.
  unfold stable_sort. intros Hl.
  assert (H : forall acc, Forall P acc ->
            Forall P (foldl (fun sorted x => sort_insert after x sorted) acc l)).
  { induction Hl as [|x l Hx Hl IH]; intros acc Hacc; simpl; [done|].
    apply IH. by apply sort_insert_Forall. }
  apply H. constructor.
Qed.

(** *** semanticAlign *)

Lemma candidates_in_range m n M thr :
  Forall (fun c => cand_i c < m /\ cand_j c < n) (candidates_of m n M thr).
Proof.
  unfold candidates_of. apply Forall_forall. intros c Hc.
  apply list_elem_of_In, in_flat_map in Hc as (i & Hi & Hc).
  apply in_flat_map in Hc as (j & Hj & Hc).
  apply in_seq in Hi, Hj.
  destruct (thr <=? sim_at M i j)%float; [|done].
  destruct Hc as [<-|[]]. simpl. lia.
Qed.

Lemma greedy_Forall source target cands : forall g,
  Forall (fun c => cand_i c < length source /\ cand_j c < length target) cands ->
  Forall well_shaped_pair (g_pairs g) ->
  Forall well_shaped_pair (g_pairs (foldl (greedy_step source target) g cands)).
Proof.
  induction cands as [|c cands IH]; intros g Hc Hg; [done|].
  apply Forall_cons in Hc as [[Hi Hj] Hc]. simpl. apply IH; [done|].
  unfold greedy_step.
  destruct (bool_decide (cand_i c ∉ matchedSource g)
            && bool_decide (cand_j c ∉ matchedTarget g)); [|done].
  simpl. apply Forall_app. split; [done|]. constructor; [|constructor].
  destruct (lookup_lt_is_Some_2 source (cand_i c) Hi) as [s Hs].
  destruct (lookup_lt_is_Some_2 target (cand_j c) Hj) as [t Ht].
  unfold well_shaped_pair. simpl. rewrite Hs, Ht.
  by destruct (0x1.fae147ae147aep-1 <=? cand_sim c)%float.
Qed.

Lemma semanticAlign_well_shaped source target M opts :
  Forall well_shaped_pair (pairs (semanticAlign source target M opts)).
Proof.
  unfold semanticAlign. cbn [pairs]. apply stable_sort_Forall.
  rewrite !Forall_app. split; [|split].
  - apply greedy_Forall; [|constructor].
    apply stable_sort_Forall, candidates_in_range.
  - apply Forall_forall. intros p Hp.
    apply list_elem_of_In, in_flat_map in Hp as (i & Hi & Hp). apply in_seq in Hi.
    destruct (bool_decide _); [|done]. destruct Hp as [<-|[]].
    destruct (lookup_lt_is_Some_2 source i) as [s Hs]; [lia|].
    unfold well_shaped_pair. simpl. by rewrite Hs.
  - apply Forall_forall. intros p Hp.
    apply list_elem_of_In, in_flat_map in Hp as (j & Hj & Hp). apply in_seq in Hj.
    destruct (bool_decide _); [|done]. destruct Hp as [<-|[]].
    destruct (lookup_lt_is_Some_2 target j) as [t Ht]; [lia|].
    unfold well_shaped_pair. simpl. by rewrite Ht.
Qed.

(** *** hybridAlign *)

Lemma move_step_Forall sa ta source target M thr del store ins :
  Forall (fun o => well_shaped_pair (pair_of o)) store ->
  Forall (fun o => well_shaped_pair (pair_of o))
    (move_step sa ta source target M thr del store ins).
Proof.
  intros Hstore. unfold move_step.
  destruct (store !! del) as [delPair|] eqn:Hdel; [|done].
  destruct (store !! ins) as [insPair|] eqn:Hins; [|done].
  destruct (Types.source (pair_of delPair)) as [delSource|] eqn:Hds; [|done].
  destruct (source_ref delPair) as [delSourceAt|]; [|done].
  destruct (Types.target (pair_of insPair)) as [insTarget|] eqn:Hit; [|done].
  destruct (target_ref insPair) as [insTargetAt|]; [|done].
  destruct (indexOf_object sa (length source) delSourceAt) as [srcIdx|]; [|done].
  destruct (indexOf_object ta (length target) insTargetAt) as [tgtIdx|]; [|done].
  destruct (thr <=? sim_at M srcIdx tgtIdx)%float; [|done].
  set (delPair' := mkObject
                     (mkPair (Some delSource) (Some insTarget)
                        (sim_at M srcIdx tgtIdx) Modification)
                     (Some delSourceAt) (Some insTargetAt)).
  assert (Hstore1 : Forall (fun o => well_shaped_pair (pair_of o))
                      (<[del := delPair']> store)).
  { apply Forall_insert; [done|]. unfold well_shaped_pair. simpl. by split. }
  destruct (<[del := delPair']> store !! ins) as [insPair1|] eqn:Hins1; [|done].
  apply Forall_insert; [done|].
  assert (Ht1 : is_Some (Types.target (pair_of insPair1))).
  { destruct (decide (del = ins)) as [->|Hne].
    - rewrite list_lookup_insert_eq in Hins1 by (by eapply lookup_lt_Some).
      injection Hins1 as <-. simpl. by eexists.
    - rewrite list_lookup_insert_ne in Hins1 by done.
      rewrite Hins in Hins1. injection Hins1 as <-. rewrite Hit. by eexists. }
  unfold well_shaped_pair. simpl. by split.
Qed.

Lemma detect_moves_Forall sa ta source target M thr store :
  Forall (fun o => well_shaped_pair (pair_of o)) store ->
  Forall (fun o => well_shaped_pair (pair_of o))
    (detect_moves sa ta source target M thr store).
Proof.
  unfold detect_moves.
  generalize (refs_of_type Deletion store) (refs_of_type Insertion store).
  intros dels inss. revert store.
  induction dels as [|del dels IH]; intros store Hstore; simpl; [done|].
  apply IH. clear IH. revert store Hstore.
  induction inss as [|ins inss IH]; intros store Hstore; simpl; [done|].
  apply IH. by apply move_step_Forall.
Qed.

Lemma dedupe_Forall (P : AlignedPair -> Prop) ps : forall seen,
  Forall P ps -> Forall P (dedupe seen ps).
Proof.
  induction ps as [|p ps IH]; intros seen Hps; simpl; [done|].
  apply Forall_cons in Hps as [Hp Hps].
  destruct (bool_decide (pair_key p ∈ seen)); [by apply IH|].
  constructor; [done|by apply IH].
Qed.

Lemma hybridAlign_well_shaped sa ta source target M opts :
  Forall well_shaped_pair (pairs (hybridAlign sa ta source target M opts)).
Proof.
  unfold hybridAlign. cbn [pairs].
  apply dedupe_Forall, Forall_map, detect_moves_Forall.
  pose proof (sequentialAlign_well_shaped source target M opts) as Hseq.
  unfold sequentialAlign in Hseq. cbn [pairs] in Hseq.
  exact (proj1 (Forall_map pair_of well_shaped_pair _) Hseq).
Qed.

(** C7.  Every pair [align] returns, under any strategy, has the shape of
    its type: an insertion has no source and a target, a deletion a source
    and no target, a match or a modification both.  This holds whatever
    objects the two arrays hold: the same object at several indices, or
    different objects with the same fields. *)
Theorem align_pairs_well_shaped (sourceAddress targetAddress : nat -> nat)
    (source target : list SemanticUnit)
    (options : AlignmentOptions) (provider : EmbeddingProvider) :
  match align sourceAddress targetAddress source target options provider with
  | Ok result => Forall well_shaped_pair (pairs result)
  | Throw _ => True
  end.
Proof.
  unfold align.
  destruct source as [|s source], target as [|t target].
  - constructor.
  - cbn [pairs]. apply Forall_forall. intros p Hp.
    apply list_elem_of_In, in_map_iff in Hp as (u & <- & _).
    unfold well_shaped_pair. simpl. split; [done|by eexists].
  - cbn [pairs]. apply Forall_forall. intros p Hp.
    apply list_elem_of_In, in_map_iff in Hp as (u & <- & _).
    unfold well_shaped_pair. simpl. split; [by eexists|done].
  - destruct (provider _) as [allEmbeddings|]; [|done].
    destruct (matrix_rows _ _ _ _ _) as [M|]; [|done].
    destruct (opt_strategy (resolve_options options)).
    + apply sequentialAlign_well_shaped.
    + apply semanticAlign_well_shaped.
    + apply hybridAlign_well_shaped.
Qed.

(** Two sentences against two sentences, the first pair alike and the rest
    not: the cell (1, 1) is a match of score 1, and at (2, 2) the deletion
    wins the tie with the insertion. *)
Lemma sequentialAlign_dp_two_sentences :
  let source :=
    Segmentation.units (Segmentation.segment "One. Two." Segmentation.default_options) in
  let target :=
    Segmentation.units (Segmentation.segment "One. Three." Segmentation.default_options) in
  let similarityMatrix := [[1; 0.5]; [0.5; 0.25]]%float in
  let table := fill_table similarityMatrix 0.75 (length source) (length target) in
  1 <= 2 <= length source
  /\ 1 <= 2 <= length target
  /\ (dp_at table 1 1, action_at table 1 1) = (1%float, ActMatch)
  /\ action_at table 2 2 = ActDelete
  /\ map type (pairs (sequentialAlign source target similarityMatrix
                        (mkResolved Sequential 0.75)))
     = [Match; Insertion; Deletion].
Proof.
  intros source target similarityMatrix table.
  assert (Hs : length source = 2) by (vm_compute; reflexivity).
  assert (Ht : length target = 2) by (vm_compute; reflexivity).
  assert (H2s : 1 <= 2 <= length source) by (rewrite Hs; lia).
  assert (H2t : 1 <= 2 <= length target) by (rewrite Ht; lia).
  assert (H1s : 1 <= 1 <= length source) by (rewrite Hs; lia).
  assert (H1t : 1 <= 1 <= length target) by (rewrite Ht; lia).
  destruct (sequentialAlign_dp source target similarityMatrix
              (mkResolved Sequential 0.75)) as (Hcell & _).
  split; [exact H2s|]. split; [exact H2t|]. split; [|split].
  - etransitivity; [exact (Hcell 1 1 H1s H1t)|]. vm_compute. reflexivity.
  - etransitivity; [exact (f_equal snd (Hcell 2 2 H2s H2t))|].
    vm_compute. reflexivity.
  - vm_compute. reflexivity.
Defined.

(** [align] on two texts of two sentences each, with a provider that embeds
    every text alike: two well-shaped pairs come back. *)
Lemma align_pairs_well_shaped_two_sentences :
  let source :=
    Segmentation.units (Segmentation.segment "One. Two." Segmentation.default_options) in
  let target :=
    Segmentation.units (Segmentation.segment "One. Three." Segmentation.default_options) in
  exists result,
    align distinct_objects distinct_objects source target (mkOptions None None)
      Merge.constant_provider = Ok result
    /\ map type (pairs result) = [Match; Match]
    /\ Forall well_shaped_pair (pairs result).
Proof.
  intros source target.
  pose proof (align_pairs_well_shaped distinct_objects distinct_objects
                source target (mkOptions None None) Merge.constant_provider) as H.
  destruct (align distinct_objects distinct_objects source target
              (mkOptions None None) Merge.constant_provider)
    as [result|message] eqn:E; [|vm_compute in E; discriminate].
  exists result. split; [reflexivity|]. split; [|exact H].
  apply (f_equal (fun r => match r with
                           | Ok x => map type (pairs x)
                           | Throw _ => []
                           end)) in E.
  rewrite <- E. vm_compute. reflexivity.
Defined.

End AlignmentProofs.

(** ** Segmentation and merge: proofs *)

Module MergeProofs.
Import JS Types Segmentation Alignment Merge.

(** *** The stable sort sorts, permutes and is stable *)

Section StableSort.
Context {A : Type} (after : A -> A -> bool).
Let le (x y : A) : Prop := after x y = false.
Hypothesis le_trans : forall x y z, le x y -> le y z -> le x z.
Hypothesis le_total : forall x y, after x y = true -> le y x.

Lemma sort_insert_Permutation x l : Permutation (x :: l) (sort_insert after x l).
Proof.
  induction l as [|y l IH]; simpl; [done|].
  destruct (after y x); [done|].
  rewrite <- IH. apply perm_swap.
Qed.

Lemma stable_sort_Permutation l : Permutation l (stable_sort after l).
Proof.
  unfold stable_sort.
  assert (H : forall acc, Permutation (acc ++ l)
            (foldl (fun sorted x => sort_insert after x sorted) acc l)).
  { induction l as [|x l IH]; intros acc; simpl; [by rewrite app_nil_r|].
    rewrite <- IH, <- sort_insert_Permutation. simpl.
    symmetry. apply Permutation_middle. }
  apply (H []).
Qed.

Lemma sort_insert_sorted x l :
  StronglySorted le l -> StronglySorted le (sort_insert after x l).
Proof.
  induction 1 as [|y l Hl IH Hy]; simpl.
  - repeat constructor.
  - destruct (after y x) eqn:Hyx.
    + constructor; [by constructor|].
      assert (Hxy : le x y) by (by apply le_total).
      constructor; [done|].
      eapply Forall_impl; [exact Hy|]. intros z Hz. by eapply le_trans.
    + constructor; [done|].
      rewrite <- sort_insert_Permutation. by constructor.
Qed.

Lemma stable_sort_sorted l : StronglySorted le (stable_sort after l).
Proof.
  unfold stable_sort.
  assert (H : forall acc, StronglySorted le acc ->
            StronglySorted le (foldl (fun sorted x => sort_insert after x sorted) acc l)).
  { induction l as [|x l IH]; intros acc Hacc; simpl; [done|].
    by apply IH, sort_insert_sorted. }
  apply H. constructor.
Qed.

(** Stability: the elements of one class keep their order. *)
Variable same : A -> A -> bool.
Hypothesis same_after : forall u x y,
  same u x = true -> after y x = true -> same u y = false.

Lemma sort_insert_stable u x l :
  StronglySorted le l ->
  List.filter (same u) (sort_insert after x l)
  = List.filter (same u) l ++ List.filter (same u) [x].
Proof.
  induction 1 as [|y l Hl IH Hy]; simpl; [done|].
  destruct (after y x) eqn:Hyx; simpl.
  - destruct (same u x) eqn:Hux; simpl.
    + (* nothing from [y] on is in the class of [x] *)
      assert (Hnone : List.filter (same u) (y :: l) = []).
      { assert (Hall : Forall (fun z => after z x = true) (y :: l)).
        { constructor; [done|].
          eapply Forall_impl; [exact Hy|]. intros z Hz.
          destruct (after z x) eqn:Hzx; [done|].
          assert (Hc : le y x) by (by eapply le_trans). congruence. }
        clear -Hall Hux same_after.
        induction Hall as [|z zs Hz _ IHz]; simpl; [done|].
        by rewrite (same_after u x z Hux Hz). }
      simpl in Hnone. by rewrite Hnone.
    + by rewrite app_nil_r.
  - rewrite IH. by destruct (same u y).
Qed.

Lemma stable_sort_stable u l :
  List.filter (same u) (stable_sort after l) = List.filter (same u) l.
Proof.
  unfold stable_sort.
  assert (H : forall acc, StronglySorted le acc ->
            List.filter (same u)
              (foldl (fun sorted x => sort_insert after x sorted) acc l)
            = List.filter (same u) acc ++ List.filter (same u) l).
  { induction l as [|x l IH]; intros acc Hacc; simpl; [by rewrite app_nil_r|].
    rewrite IH by (by apply sort_insert_sorted).
    rewrite sort_insert_stable by done. simpl.
    rewrite <- app_assoc. by destruct (same u x). }
  apply (H []). constructor.
Qed.
End StableSort.

(** *** The order of [mergedUnits.sort] *)

Lemma ascii_compare_le_trans (a b c : ascii) :
  Ascii.compare a b <> Gt -> Ascii.compare b c <> Gt -> Ascii.compare a c <> Gt.
Proof.
  unfold Ascii.compare. rewrite !N.compare_le_iff. apply N.le_trans.
Qed.

Lemma ascii_compare_Eq (a b : ascii) : Ascii.compare a b = Eq -> a = b.
Proof. apply Ascii.compare_eq_iff. Qed.

Lemma ascii_compare_refl (a : ascii) : Ascii.compare a a = Eq.
Proof. unfold Ascii.compare. apply N.compare_refl. Qed.

Lemma string_compare_refl (s : string) : String.compare s s = Eq.
Proof. induction s as [|c s IH]; simpl; [done|]. by rewrite ascii_compare_refl. Qed.

Lemma string_compare_le_trans (x : string) : forall y z,
  String.compare x y <> Gt -> String.compare y z <> Gt ->
  String.compare x z <> Gt.
Proof.
  induction x as [|a x IH]; intros [|b y] [|c z]; simpl; try done.
  intros Hxy Hyz.
  destruct (Ascii.compare a b) eqn:Hab; [| |done].
  - apply ascii_compare_Eq in Hab as ->.
    destruct (Ascii.compare b c) eqn:Hbc; [by apply (IH y)|done|done].
  - destruct (Ascii.compare b c) eqn:Hbc; [| |done].
    + apply ascii_compare_Eq in Hbc as <-. by rewrite Hab.
    + assert (Hac : Ascii.compare a c <> Gt)
        by (apply (ascii_compare_le_trans a b c); congruence).
      destruct (Ascii.compare a c) eqn:Hac'; [|done|done].
      apply ascii_compare_Eq in Hac' as ->.
      unfold Ascii.compare in Hab, Hbc.
      rewrite N.compare_lt_iff in Hab, Hbc. lia.
Qed.

(** [unit_after a b = false] says that [a] is not after [b]: a smaller
    index, or the same index and a hash that is not greater. *)
Lemma unit_after_false (a b : SemanticUnit) :
  unit_after a b = false <->
  index a < index b
  \/ (index a = index b /\ String.compare (hash a) (hash b) <> Gt).
Proof.
  unfold unit_after, hash_after.
  destruct (index a =? index b)%nat eqn:Hi; simpl.
  - apply Nat.eqb_eq in Hi.
    destruct (String.compare (hash a) (hash b)); split; intros H;
      try done; try (right; split; [done|discriminate]);
      destruct H as [H|[_ H]]; [lia|done].
  - apply Nat.eqb_neq in Hi. rewrite Nat.ltb_ge. lia.
Qed.

Lemma unit_after_trans (x y z : SemanticUnit) :
  unit_after x y = false -> unit_after y z = false -> unit_after x z = false.
Proof.
  rewrite !unit_after_false.
  intros [Hxy|[Hxy Hc1]] [Hyz|[Hyz Hc2]]; try (left; lia).
  right. split; [lia|]. by eapply string_compare_le_trans.
Qed.

Lemma unit_after_total (x y : SemanticUnit) :
  unit_after x y = true -> unit_after y x = false.
Proof.
  intros Hxy. apply unit_after_false.
  destruct (unit_after y x) eqn:Hyx; [|by apply unit_after_false].
  exfalso. revert Hxy Hyx. unfold unit_after, hash_after.
  rewrite (Nat.eqb_sym (index y) (index x)).
  destruct (index x =? index y)%nat eqn:Hi; simpl.
  - rewrite (String.compare_antisym (hash y) (hash x)).
    by destruct (String.compare (hash x) (hash y)).
  - rewrite !Nat.ltb_lt. lia.
Qed.

Lemma same_key_le (x y : SemanticUnit) :
  same_key x y = true -> unit_after x y = false /\ unit_after y x = false.
Proof.
  unfold same_key. rewrite bool_decide_eq_true. intros [Hi Hh].
  rewrite !unit_after_false, Hi, Hh, string_compare_refl.
  split; right; done.
Qed.

Lemma same_key_after (u x y : SemanticUnit) :
  same_key u x = true -> unit_after y x = true -> same_key u y = false.
Proof.
  unfold same_key. rewrite bool_decide_eq_true, bool_decide_eq_false.
  intros [Hi Hh] Hafter [Hi' Hh'].
  assert (Hno : unit_after y x = false); [|congruence].
  apply unit_after_false. right. rewrite Hi, Hi', Hh, Hh', string_compare_refl.
  done.
Qed.

Lemma StronglySorted_weaken {A} (R R' : A -> A -> Prop) (l : list A) :
  (forall x y, R x y -> R' x y) -> StronglySorted R l -> StronglySorted R' l.
Proof.
  intros HR. induction 1 as [|x l Hl IH Hx]; constructor; [done|].
  eapply Forall_impl; [exact Hx|]. intros y. apply HR.
Qed.

(** C5, as the code has it.  The text [merge] returns is the reconstruction
    of the emitted units sorted by index, then by hash, with units of equal
    index and hash left in the order of their emission; nothing is trimmed,
    so the white space before the first unit and after the last one stays. *)
Theorem merge_final_assembly (a b c : string) (options : MergeOptions)
    (provider : EmbeddingProvider) (generateConflictId : nat -> string) :
  match merge a b c options provider generateConflictId with
  | Throw _ => True
  | Ok result =>
      exists st sorted,
        merge_state a b c options provider generateConflictId = Ok st
        /\ merged result = reconstruct sorted
        /\ sorted = stable_sort unit_after (mergedUnits st)
        /\ Permutation (mergedUnits st) sorted
        /\ StronglySorted
             (fun u v =>
                index u < index v
                \/ (index u = index v
                    /\ String.compare (hash u) (hash v) <> Gt)) sorted
        /\ forall u, List.filter (same_key u) sorted
                     = List.filter (same_key u) (mergedUnits st)
  end.
Proof.
  unfold merge.
  destruct (merge_state a b c options provider generateConflictId) as [st|]; [|done].
  exists st, (stable_sort unit_after (mergedUnits st)).
  split; [done|]. split; [done|]. split; [done|]. split; [|split].
  - apply stable_sort_Permutation.
  - eapply StronglySorted_weaken;
      [|apply stable_sort_sorted; [apply unit_after_trans|apply unit_after_total]].
    intros u v. apply unit_after_false.
  - intros u. apply stable_sort_stable;
      [apply unit_after_trans|apply unit_after_total|apply same_key_after].
Qed.

(** The merged text is not trimmed: three copies of " Hi." merge to " Hi.",
    with its leading space. *)
Lemma merge_keeps_leading_space :
  exists result,
    merge " Hi." " Hi." " Hi." (mkMergeOptions None) constant_provider numbered_id
    = Ok result
    /\ merged result = " Hi."
    /\ merged result <> trim (merged result).
Proof.
  eexists. split; [vm_compute; reflexivity|]. split; [reflexivity|].
  vm_compute. discriminate.
Qed.

(** C1 at "Mr.  X", with two spaces.  The boundary pattern splits the text
    into "Mr." and "X"; the abbreviation loop joins them again with one
    space; "Mr. X" does not occur in the text, so the part is skipped and
    the segmentation has no unit.  The reconstruction is empty, where the
    round trip asks for "Mr.  X". *)
Lemma segment_loses_rejoined_abbreviation :
  let T := "Mr.  X" in
  split_regex sentence_boundary T = ["Mr."; "X"]
  /\ splitSentences T = ["Mr. X"]
  /\ indexOf "Mr. X" T 0 = None
  /\ units (segment T default_options) = []
  /\ trim (reconstruct (units (segment T default_options))) = ""
  /\ trim T = "Mr.  X".
Proof. vm_compute. repeat split. Qed.

(** The round trip on the sentences of the test suite. *)
Lemma segment_round_trip_examples :
  Forall (fun T =>
    trim (reconstruct (units (segment T default_options))) = trim T)
    ["Hello world. This is a test."; "First. Second. Third.";
     "  Dr. Smith went home.  He slept. "; ""; "   "].
Proof. repeat constructor. Qed.

(** C8 at the resolution text "costs $$5".  [String.prototype.replace]
    reads [$$] in the replacement as one dollar sign: the merged text gets
    "costs $5", while the resolution that is recorded says "costs $$5". *)
Lemma resolveConflict_expands_dollar_patterns :
  let conflict := mkConflict "c1" "a" "x" "y" "" "" 0 0 0 in
  let result :=
    mkMergeResult (formatConflictMarker conflict) [conflict] []
      (mkStats 0 0 0 0 1 0) in
  resolveConflict result "c1" "costs $$5"
  = Ok (mkMergeResult "costs $5" []
          [mkResolution "c1" "costs $$5" External 1] (mkStats 0 0 0 0 1 0)).
Proof. vm_compute. reflexivity. Qed.

Lemma getSubstitution_dollar_free matched before after template :
  dollar_free template = true ->
  getSubstitution matched before after template = template.
Proof.
  induction template as [|c rest IH]; simpl; [done|].
  intros H. apply andb_true_iff in H as [Hc Hrest].
  apply negb_true_iff in Hc. rewrite Hc. by rewrite IH.
Qed.

(** X1.  [resolveConflict] on a text without dollar sign: an unknown identifier
    throws; a known one puts the text in the place of the first occurrence
    of the marker (the merged text is unchanged when the marker does not
    occur), drops the conflicts with that identifier and appends an
    external resolution of confidence 1. *)
Theorem resolveConflict_literal (result : MergeResult)
    (conflictId text : string) :
  match List.find (fun c => bool_decide (id c = conflictId)) (conflicts result) with
  | None =>
      resolveConflict result conflictId text
      = Throw ("Conflict not found: " +:+ conflictId)
  | Some conflict =>
      dollar_free text = true ->
      let marker := formatConflictMarker conflict in
      exists r,
        resolveConflict result conflictId text = Ok r
        /\ merged r
           = match indexOf marker (merged result) 0 with
             | Some pos =>
                 stake pos (merged result) +:+ text
                 +:+ sdrop (pos + String.length marker) (merged result)
             | None => merged result
             end
        /\ conflicts r
           = List.filter (fun c => negb (bool_decide (id c = conflictId)))
               (conflicts result)
        /\ Forall (fun c => id c <> conflictId) (conflicts r)
        /\ resolutions r
           = resolutions result ++ [mkResolution conflictId text External 1]
        /\ stats r = stats result
  end.
Proof.
  unfold resolveConflict.
  destruct (List.find _ (conflicts result)) as [conflict|]; [|done].
  intros Hfree. eexists. split; [reflexivity|]. simpl.
  split; [|split; [done|split; [|done]]].
  - unfold replace. destruct (indexOf _ _ 0); [|done].
    by rewrite getSubstitution_dollar_free.
  - apply Forall_forall. intros c Hc.
    apply list_elem_of_In, filter_In in Hc as [_ Hc].
    apply negb_true_iff, bool_decide_eq_false in Hc. done.
Qed.

(** A resolution without dollar sign takes the place of the marker. *)
Lemma resolveConflict_literal_example :
  let conflict := mkConflict "c1" "a" "x" "y" "" "" 0 0 0 in
  let result :=
    mkMergeResult ("Intro. " +:+ formatConflictMarker conflict +:+ " End.")
      [conflict] [] (mkStats 0 0 0 0 1 0) in
  dollar_free "both" = true
  /\ exists r,
       resolveConflict result "c1" "both" = Ok r
       /\ merged r = "Intro. both End."
       /\ conflicts r = []
       /\ resolutions r = [mkResolution "c1" "both" External 1].
Proof.
  intros conflict result.
  assert (Hd : dollar_free "both" = true) by reflexivity.
  split; [exact Hd|].
  pose proof (resolveConflict_literal result "c1" "both") as H.
  change (List.find (fun c => bool_decide (id c = "c1")) (conflicts result))
    with (Some conflict) in H.
  destruct (H Hd) as (r & Hr & Hm & Hc & _ & Hres & _).
  exists r. split; [exact Hr|]. split; [|split].
  - rewrite Hm. vm_compute. reflexivity.
  - rewrite Hc. vm_compute. reflexivity.
  - rewrite Hres. reflexivity.
Defined.

End MergeProofs.

(** ** Segmentation and reconstruction: proofs *)

Module SegmentationProofs.
Import JS Types Segmentation WordMergeProofs.

(** *** Strings: lengths, slices and white space *)

Lemma length_append' (s t : string) :
  String.length (s +:+ t) = String.length s + String.length t.
Proof.
  induction s as [|c s IH]; [done|].
  rewrite append_cons. cbn [String.length]. by rewrite IH.
Qed.

Lemma stake_sdrop (n : nat) (s : string) : stake n s +:+ sdrop n s = s.
Proof.
  revert s. induction n as [|n IH]; intros [|c s]; cbn [stake sdrop]; try done.
  by rewrite append_cons, IH.
Qed.

Lemma stake_length (n : nat) (s : string) :
  String.length (stake n s) = Nat.min n (String.length s).
Proof.
  revert s. induction n as [|n IH]; intros [|c s]; cbn [stake String.length];
    try done.
  by rewrite IH.
Qed.

Lemma sdrop_length (n : nat) (s : string) :
  String.length (sdrop n s) = String.length s - n.
Proof.
  revert s. induction n as [|n IH]; intros [|c s]; cbn [sdrop String.length];
    try done.
Qed.

Lemma sdrop_0 (s : string) : sdrop 0 s = s.
Proof. by destruct s. Qed.

Lemma stake_0 (s : string) : stake 0 s = "".
Proof. by destruct s. Qed.

Lemma sdrop_all (n : nat) (s : string) :
  String.length s <= n -> sdrop n s = "".
Proof.
  revert s. induction n as [|n IH]; intros [|c s]; cbn [sdrop String.length];
    intros H; try done; try lia.
  apply IH. lia.
Qed.

Lemma stake_all (n : nat) (s : string) :
  String.length s <= n -> stake n s = s.
Proof.
  revert s. induction n as [|n IH]; intros [|c s]; cbn [stake String.length];
    intros H; try done; try lia.
  f_equal. apply IH. lia.
Qed.

Lemma sdrop_sdrop (n k : nat) (s : string) : sdrop n (sdrop k s) = sdrop (k + n) s.
Proof.
  revert s. induction k as [|k IH]; intros s.
  - by rewrite sdrop_0.
  - destruct s as [|c s]; cbn [sdrop Nat.add]; [by destruct n|]. apply IH.
Qed.

Lemma stake_app_length (s t : string) : stake (String.length s) (s +:+ t) = s.
Proof.
  induction s as [|c s IH]; [by rewrite stake_0|].
  rewrite append_cons. cbn [String.length stake]. by rewrite IH.
Qed.

Lemma sdrop_app_length (s t : string) : sdrop (String.length s) (s +:+ t) = t.
Proof.
  induction s as [|c s IH]; [by rewrite append_nil_l, sdrop_0|].
  rewrite append_cons. cbn [String.length sdrop]. by rewrite IH.
Qed.

(** [stake (n + k)] is [stake n] followed by the next [k] code units. *)
Lemma stake_add (n k : nat) (s : string) :
  stake (n + k) s = stake n s +:+ stake k (sdrop n s).
Proof.
  revert s. induction n as [|n IH]; intros s.
  - by rewrite stake_0, sdrop_0, append_nil_l.
  - destruct s as [|c s]; cbn [Nat.add stake sdrop].
    + by destruct k.
    + by rewrite append_cons, IH.
Qed.

Lemma startsWith_spec (p s : string) :
  startsWith p s = true <-> s = p +:+ sdrop (String.length p) s.
Proof.
  revert s. induction p as [|a p IH]; intros s.
  - cbn [startsWith String.length]. rewrite sdrop_0, append_nil_l.
    by destruct s.
  - destruct s as [|b s]; cbn [startsWith String.length sdrop].
    + rewrite append_cons. split; discriminate.
    + rewrite append_cons, andb_true_iff, bool_decide_eq_true, IH.
      split; [intros [-> H]; by f_equal|]. intros H. by injection H as -> H.
Qed.

Lemma indexOf_from_spec (p s : string) (pos k : nat) :
  indexOf_from p s pos = Some k ->
  exists n, k = pos + n /\ n <= String.length s
            /\ startsWith p (sdrop n s) = true.
Proof.
  revert pos. induction s as [|c s IH]; intros pos; cbn [indexOf_from].
  - destruct (startsWith p "") eqn:E; [|done]. intros [= <-].
    exists 0. by rewrite Nat.add_0_r.
  - destruct (startsWith p (String c s)) eqn:E.
    + intros [= <-]. exists 0. rewrite Nat.add_0_r, sdrop_0.
      split; [done|]. split; [lia|done].
    + intros H. apply IH in H as (n & -> & Hn & H).
      exists (S n). cbn [String.length sdrop]. split; [lia|]. split; [lia|done].
Qed.

(** [text.indexOf(raw, from) = idx]: the text holds [raw] at [idx], at or
    after [from], and inside the text. *)
Lemma indexOf_spec (p s : string) (from idx : nat) :
  indexOf p s from = Some idx ->
  Nat.min from (String.length s) <= idx
  /\ idx + String.length p <= String.length s
  /\ stake (String.length p) (sdrop idx s) = p.
Proof.
  unfold indexOf. destruct (from <=? String.length s)%nat eqn:E.
  - apply Nat.leb_le in E. intros H.
    apply indexOf_from_spec in H as (n & -> & Hn & H).
    rewrite sdrop_sdrop in H. apply startsWith_spec in H.
    rewrite sdrop_length in Hn.
    assert (Hlen : String.length (sdrop (from + n) s)
                   = String.length p
                     + String.length (sdrop (String.length p) (sdrop (from + n) s)))
      by (rewrite H at 1; apply length_append').
    rewrite !sdrop_length in Hlen.
    split; [lia|]. split.
    + destruct (String.length p) eqn:Ep; [lia|]. lia.
    + rewrite H. apply stake_app_length.
  - apply Nat.leb_gt in E. intros H.
    apply indexOf_from_spec in H as (n & -> & Hn & H).
    cbn [String.length] in Hn. assert (n = 0) as -> by lia.
    rewrite sdrop_0 in H. destruct p as [|a p]; [|done].
    cbn [String.length]. rewrite stake_0. split; [lia|]. split; [lia|done].
Qed.

Lemma blank_app (s t : string) : blank (s +:+ t) = blank s && blank t.
Proof.
  induction s as [|c s IH]; [done|].
  rewrite append_cons. cbn [blank]. by rewrite IH, andb_assoc.
Qed.

Lemma space_run_le (s : string) : space_run s <= String.length s.
Proof.
  induction s as [|c s IH]; cbn [space_run String.length]; [done|].
  destruct (isSpace c); lia.
Qed.

Lemma blank_space_run (s : string) :
  blank s = true <-> space_run s = String.length s.
Proof.
  induction s as [|c s IH]; cbn [blank space_run String.length]; [done|].
  destruct (isSpace c); cbn [andb].
  - rewrite IH. split; [by intros ->|]. by intros [= ->].
  - split; discriminate.
Qed.

Lemma trimStart_sdrop (s : string) : trimStart s = sdrop (space_run s) s.
Proof.
  induction s as [|c s IH]; cbn [trimStart space_run]; [done|].
  destruct (isSpace c); [by cbn [sdrop]|by rewrite sdrop_0].
Qed.

Lemma blank_space_prefix (s : string) : blank (stake (space_run s) s) = true.
Proof.
  induction s as [|c s IH]; cbn [space_run]; [done|].
  destruct (isSpace c) eqn:E; [|done]. cbn [stake blank]. by rewrite E, IH.
Qed.

Lemma trimStart_blank (s : string) : blank s = true -> trimStart s = "".
Proof.
  intros H. rewrite trimStart_sdrop. apply sdrop_all.
  apply blank_space_run in H. lia.
Qed.

Lemma trimStart_solid (s : string) : starts_solid (trimStart s).
Proof.
  induction s as [|c s IH]; cbn [trimStart]; [done|].
  destruct (isSpace c) eqn:E; [done|]. exact E.
Qed.

Lemma trimStart_of_solid (s : string) : starts_solid s -> trimStart s = s.
Proof. destruct s as [|c s]; [done|]. cbn [starts_solid trimStart]. by intros ->. Qed.

Lemma trimEnd_cons (c : ascii) (s : string) :
  trimEnd (String c s)
  = if blank s then (if isSpace c then "" else char c)
    else String c (trimEnd s).
Proof.
  revert c. induction s as [|d s IH]; intros c; [done|].
  change (trimEnd (String c (String d s)))
    with (match trimEnd (String d s) with
          | EmptyString => if isSpace c then EmptyString else char c
          | t => String c t
          end).
  rewrite IH. cbn [blank].
  destruct (blank s); destruct (isSpace d); cbn [andb]; try done.
Qed.

Lemma trimEnd_blank (s : string) : blank s = true <-> trimEnd s = "".
Proof.
  induction s as [|c s IH]; [done|].
  rewrite trimEnd_cons. cbn [blank].
  destruct (blank s) eqn:Es; destruct (isSpace c); cbn [andb]; split; try done.
Qed.

Lemma trimEnd_solid (s : string) : starts_solid s -> starts_solid (trimEnd s).
Proof.
  destruct s as [|c s]; [done|]. cbn [starts_solid]. intros E.
  rewrite trimEnd_cons, E. by destruct (blank s).
Qed.

(** What [trimEnd] removes is white space, and it is a tail of the string. *)
Lemma trimEnd_split (s : string) :
  s = trimEnd s +:+ sdrop (String.length (trimEnd s)) s
  /\ blank (sdrop (String.length (trimEnd s)) s) = true.
Proof.
  induction s as [|c s [IH1 IH2]]; [done|].
  rewrite trimEnd_cons.
  destruct (blank s) eqn:Es.
  - destruct (isSpace c) eqn:Ec.
    + cbn [String.length]. rewrite sdrop_0, append_nil_l. cbn [blank].
      by rewrite Ec, Es.
    + unfold char. cbn [String.length sdrop].
      rewrite ?sdrop_0, append_cons, append_nil_l. done.
  - cbn [String.length sdrop]. rewrite append_cons. split; [by f_equal|done].
Qed.

Lemma trimEnd_idem (s : string) : trimEnd (trimEnd s) = trimEnd s.
Proof.
  induction s as [|c s IH]; [done|].
  rewrite trimEnd_cons. destruct (blank s) eqn:Es.
  - destruct (isSpace c) eqn:Ec; [done|]. unfold char. rewrite trimEnd_cons.
    cbn [blank]. by rewrite Ec.
  - rewrite trimEnd_cons, IH.
    destruct (blank (trimEnd s)) eqn:E; [|done].
    apply trimEnd_blank in E. rewrite IH in E. apply trimEnd_blank in E.
    congruence.
Qed.

Lemma trim_idem (s : string) : trim (trim s) = trim s.
Proof.
  unfold trim.
  rewrite (trimStart_of_solid (trimEnd (trimStart s)))
    by apply trimEnd_solid, trimStart_solid.
  apply trimEnd_idem.
Qed.

Lemma trim_blank (s : string) : blank s = true <-> trim s = "".
Proof.
  unfold trim. rewrite <- trimEnd_blank, trimStart_sdrop.
  split.
  - intros H. rewrite sdrop_all; [done|]. apply blank_space_run in H. lia.
  - intros H. rewrite <- (stake_sdrop (space_run s) s), blank_app, H.
    by rewrite blank_space_prefix.
Qed.

Lemma truthy_false (s : string) : truthy s = false <-> s = "".
Proof. by destruct s. Qed.

Lemma truthy_length (s : string) : truthy s = true <-> 0 < String.length s.
Proof. destruct s; cbn [truthy String.length]; split; try done; lia. Qed.

(** [trimEnd] leaves the first [k] code units in place when something else
    than white space follows them. *)
Lemma trimEnd_sdrop (k : nat) (s : string) :
  blank (sdrop k s) = false ->
  trimEnd s = stake k s +:+ trimEnd (sdrop k s).
Proof.
  revert s. induction k as [|k IH]; intros s H.
  - by rewrite stake_0, sdrop_0, append_nil_l.
  - destruct s as [|c s]; [done|]. cbn [sdrop] in H. cbn [stake sdrop].
    rewrite trimEnd_cons, append_cons.
    destruct (blank s) eqn:Es; [|by rewrite IH].
    rewrite <- (stake_sdrop k s), blank_app, H, andb_false_r in Es. done.
Qed.

Lemma stake_empty (n : nat) : stake n "" = "".
Proof. by destruct n. Qed.

Lemma trimStart_nonblank (s : string) :
  blank s = false -> blank (trimStart s) = false.
Proof.
  intros H. destruct (blank (trimStart s)) eqn:E; [|done].
  rewrite <- (stake_sdrop (space_run s) s), blank_app, blank_space_prefix in H.
  by rewrite <- trimStart_sdrop, E in H.
Qed.

(** *** extractWhitespace *)

Lemma extractWhitespace_nonblank (text : string) :
  blank text = false ->
  extractWhitespace text
  = (stake (space_run text) text, trim text,
     sdrop (String.length (trimEnd text)) text)
  /\ stake (space_run text) text +:+ trim text
     +:+ sdrop (String.length (trimEnd text)) text = text.
Proof.
  intros Hb.
  pose proof (trimStart_nonblank _ Hb) as Hb'. rewrite trimStart_sdrop in Hb'.
  pose proof (trimEnd_sdrop _ _ Hb') as Hend.
  pose proof (space_run_le text) as Hk.
  destruct (trimEnd_split text) as [Htext _].
  destruct (trimEnd_split (sdrop (space_run text) text)) as [Hrest _].
  assert (Htrim : trim text = trimEnd (sdrop (space_run text) text))
    by (unfold trim; by rewrite trimStart_sdrop).
  assert (HL : String.length (trimEnd text)
               = space_run text
                 + String.length (trimEnd (sdrop (space_run text) text))).
  { rewrite Hend at 1. rewrite length_append', stake_length. lia. }
  assert (HLle : String.length (trimEnd text) <= String.length text).
  { rewrite Htext at 2. rewrite length_append'. lia. }
  split.
  - unfold extractWhitespace, slice. repeat f_equal.
    rewrite stake_length, sdrop_length, Nat.min_l by done.
    replace (String.length text - (String.length text - String.length (trimEnd text))
             - space_run text)
      with (String.length (trimEnd (sdrop (space_run text) text))) by lia.
    rewrite Htrim. rewrite Hrest at 2. by rewrite stake_app_length.
  - rewrite Htrim, <- append_assoc', <- Hend. by rewrite <- Htext.
Qed.

Lemma extractWhitespace_blank (text : string) :
  blank text = true -> extractWhitespace text = (text, "", text).
Proof.
  intros Hb. unfold extractWhitespace, slice.
  pose proof (proj1 (blank_space_run _) Hb) as Hk.
  pose proof (proj1 (trimEnd_blank _) Hb) as He.
  rewrite He, Hk. cbn [String.length]. rewrite sdrop_0, stake_all by done.
  by rewrite sdrop_all, stake_empty.
Qed.

(** X4.  [extractWhitespace] splits a text that is not all white space into
    its leading white space, its trimmed content and its trailing white
    space, and the three parts put together are the text.  On a text of
    white space only the two patterns match the same code units: the prefix
    and the suffix are both the whole text and the content is empty. *)
Theorem extractWhitespace_parts (text : string) :
  let '(prefix, content, suffix) := extractWhitespace text in
  blank prefix = true /\ blank suffix = true /\ content = trim text
  /\ if blank text then prefix = text /\ suffix = text
     else prefix +:+ content +:+ suffix = text.
Proof.
  destruct (blank text) eqn:Hb.
  - rewrite (extractWhitespace_blank _ Hb).
    by rewrite Hb, (proj1 (trim_blank _) Hb).
  - destruct (extractWhitespace_nonblank _ Hb) as [-> Hjoin].
    rewrite blank_space_prefix, (proj2 (trimEnd_split text)). done.
Qed.

(** *** The loop of segment *)

Lemma whole_append_suffix (u : SemanticUnit) (more : string) :
  whole (append_suffix u more) = whole u +:+ more.
Proof. unfold whole, append_suffix. cbn. by rewrite !append_assoc'. Qed.

Lemma join_map_whole_snoc (units : list SemanticUnit) (u : SemanticUnit) :
  join (map whole (units ++ [u])) = join (map whole units) +:+ whole u.
Proof.
  by rewrite map_app, join_app; cbn [map]; rewrite join_cons, join_nil, append_empty_r.
Qed.

Lemma slice_stake (from to : nat) (s : string) :
  from <= to -> stake from s +:+ slice from to s = stake to s.
Proof.
  intros H. unfold slice. replace to with (from + (to - from)) at 2 by lia.
  by rewrite stake_add.
Qed.

Section SegmentLoop.
Variable text : string.
Variable markdown : bool.

Let inv (units : list SemanticUnit) (offset : nat) : Prop :=
  offset <= String.length text
  /\ join (map whole units) = stake offset text
  /\ (units = [] -> offset = 0)
  /\ Forall (fun u => unit_ok text u /\ end_ u <= offset) units
  /\ (forall i u, units !! i = Some u -> index u = i)
  /\ (forall i j u v, i < j -> units !! i = Some u -> units !! j = Some v ->
        end_ u <= start v).

Lemma segment_loop_inv rawParts : forall units offset,
  inv units offset ->
  inv (segment_loop text markdown rawParts units offset).1
      (segment_loop text markdown rawParts units offset).2.
Proof.
  induction rawParts as [|raw rest IH]; intros units offset Hinv;
    cbn [segment_loop]; [done|].
  destruct (negb (truthy raw)) eqn:Hraw; [by apply IH|].
  destruct (indexOf raw text offset) as [idx|] eqn:Hidx; [|by apply IH].
  destruct (blank raw) eqn:Hb.
  { rewrite (extractWhitespace_blank _ Hb). cbv beta iota zeta.
    change (trim "") with "". cbn [truthy negb]. by apply IH. }
  destruct (extractWhitespace_nonblank _ Hb) as [-> Hjoin].
  cbv beta iota zeta. rewrite trim_idem.
  assert (Htr : truthy (trim raw) = true).
  { destruct (truthy (trim raw)) eqn:E; [done|].
    apply truthy_false, trim_blank in E. congruence. }
  rewrite Htr. cbn [negb].
  apply IH. clear IH.
  destruct Hinv as (Hoff & Hcover & Hnil & Hall & Hindex & Horder).
  apply indexOf_spec in Hidx as (Hfrom & Hend & Hat).
  rewrite Nat.min_l in Hfrom by done.
  split; [done|]. split; [|split; [|split; [|split]]].
  - rewrite join_map_whole_snoc, Hcover. unfold whole. cbn.
    rewrite (append_assoc' (slice offset idx text)), <- append_assoc'.
    rewrite slice_stake by done.
    rewrite Hjoin. rewrite <- Hat at 1.
    rewrite Nat.add_comm. by rewrite <- stake_add, Nat.add_comm.
  - by intros ?%app_eq_nil%proj2.
  - apply Forall_app. split.
    + eapply Forall_impl; [exact Hall|]. intros u [Hu He]. split; [done|]. lia.
    + constructor; [|done]. split; [|cbn [end_]; lia].
      unfold unit_ok. cbn [content hash start end_]. rewrite trim_idem.
      split; [done|]. split; [done|]. split; [done|]. lia.
  - intros i u Hu. apply lookup_app_Some in Hu as [Hu|[Hi Hu]]; [by apply Hindex|].
    apply list_lookup_singleton_Some in Hu as [Hi' <-]. cbn. lia.
  - intros i j u v Hij Hu Hv.
    apply lookup_app_Some in Hv as [Hv|[Hj Hv]].
    + apply lookup_app_Some in Hu as [Hu|[Hi Hu]]; [by eapply Horder|].
      apply lookup_lt_Some in Hv. lia.
    + apply list_lookup_singleton_Some in Hv as [Hj' <-]. cbn.
      apply lookup_app_Some in Hu as [Hu|[Hi Hu]]; [|lia].
      apply (proj1 (Forall_lookup _ _) Hall) in Hu as [_ Hu]. lia.
Qed.

End SegmentLoop.

(** *** segment *)

Lemma segment_final (text : string) (options : SegmentationOptions) :
  let us := units (segment text options) in
  (us <> [] -> join (map whole us) = text)
  /\ Forall (unit_ok text) us
  /\ (forall i u, us !! i = Some u -> index u = i)
  /\ (forall i j u v, i < j -> us !! i = Some u -> us !! j = Some v ->
        end_ u <= start v).
Proof.
  unfold segment.
  set (markdown := default true (preserveMarkdown options)).
  set (rawParts := if markdown then _ else _).
  pose proof (segment_loop_inv text markdown rawParts [] 0) as Hinv.
  destruct (segment_loop text markdown rawParts [] 0) as [us offset].
  cbn [fst snd] in Hinv.
  destruct Hinv as (Hoff & Hcover & Hnil & Hall & Hindex & Horder).
  { split; [lia|]. split; [by rewrite stake_0|]. split; [done|].
    split; [constructor|]. split; [done|]. intros i j u v _ Hu. done. }
  cbv zeta. cbn [units].
  assert (Hok : Forall (unit_ok text) us)
    by (eapply Forall_impl; [exact Hall|]; by intros u [Hu _]).
  destruct (rev us) as [|lastUnit before] eqn:Hrev.
  { apply (f_equal (@rev _)) in Hrev. rewrite rev_involutive in Hrev.
    subst us. done. }
  apply (f_equal (@rev _)) in Hrev. rewrite rev_involutive in Hrev.
  cbn [rev] in Hrev.
  destruct (offset <? String.length text)%nat eqn:Hlt.
  - subst us. set (front := rev before) in *.
    split; [|split; [|split]].
    + intros _. rewrite join_map_whole_snoc, whole_append_suffix.
      rewrite <- append_assoc', <- join_map_whole_snoc, Hcover.
      apply stake_sdrop.
    + apply Forall_app in Hok as [Hfront Hlast]. apply Forall_app.
      split; [done|]. constructor; [|done].
      by apply Forall_inv in Hlast.
    + intros i u Hu. apply lookup_app_Some in Hu as [Hu|[Hi Hu]].
      * apply Hindex. by apply lookup_app_l_Some.
      * apply list_lookup_singleton_Some in Hu as [Hi' <-].
        cbn [append_suffix index]. apply Hindex.
        rewrite lookup_app_r by done. by rewrite Hi'.
    + intros i j u v Hij Hu Hv.
      assert (Hu' : exists u', (front ++ [lastUnit]) !! i = Some u'
                               /\ end_ u' = end_ u).
      { apply lookup_app_Some in Hu as [Hu|[Hi Hu]].
        - exists u. split; [by apply lookup_app_l_Some|done].
        - apply list_lookup_singleton_Some in Hu as [Hi' <-].
          exists lastUnit. split; [|done].
          rewrite lookup_app_r by done. by rewrite Hi'. }
      assert (Hv' : exists v', (front ++ [lastUnit]) !! j = Some v'
                               /\ start v' = start v).
      { apply lookup_app_Some in Hv as [Hv|[Hj Hv]].
        - exists v. split; [by apply lookup_app_l_Some|done].
        - apply list_lookup_singleton_Some in Hv as [Hj' <-].
          exists lastUnit. split; [|done].
          rewrite lookup_app_r by done. by rewrite Hj'. }
      destruct Hu' as (u' & Hu' & <-). destruct Hv' as (v' & Hv' & <-).
      by eapply Horder.
  - apply Nat.ltb_ge in Hlt. assert (offset = String.length text) as -> by lia.
    split; [|done]. intros _. rewrite Hcover. by apply stake_all.
Qed.

(** X5.  Every unit of a segmentation carries its position in the list as
    its index, a content that is not empty and has no white space at its
    ends, the FNV hash of the normalised content, and offsets inside the
    text; the units do not overlap and follow the order of the text. *)
Theorem segment_units_invariant (text : string) (options : SegmentationOptions)
    (i : nat) (u : SemanticUnit) :
  units (segment text options) !! i = Some u ->
  index u = i
  /\ truthy (content u) = true
  /\ trim (content u) = content u
  /\ hash u = Hash.createHash (normalizeForHash (content u))
  /\ start u <= end_ u <= String.length text
  /\ forall j v, i < j -> units (segment text options) !! j = Some v ->
       end_ u <= start v.
Proof.
  intros Hu.
  destruct (segment_final text options) as (_ & Hall & Hindex & Horder).
  apply (proj1 (Forall_lookup _ _) Hall) in Hu as Hok.
  destruct Hok as (H1 & H2 & H3 & H4 & H5).
  split; [by apply Hindex|]. split; [done|]. split; [done|]. split; [done|].
  split; [done|]. intros j v Hij Hv. by eapply Horder.
Qed.

Lemma segment_units_invariant_example :
  let text := "Hello world. This is a test." in
  exists u,
    units (segment text default_options) !! 1 = Some u
    /\ index u = 1 /\ content u = "This is a test."
    /\ start u <= end_ u <= String.length text.
Proof.
  intros text.
  assert (H : units (segment text default_options) !! 1
              = Some (mkUnit "This is a test." "7f8dc2c0" 1 13 28 " " "" None)).
  { vm_compute. reflexivity. }
  eexists. split; [exact H|].
  destruct (segment_units_invariant text default_options 1 _ H)
    as (Hi & _ & _ & _ & Hse & _).
  split; [exact Hi|]. split; [reflexivity|exact Hse].
Defined.

(** X6.  A segmentation that has a unit loses no text: the prefixes, the
    contents and the suffixes of its units, put end to end, are the text.
    A text of white space only has no unit. *)
Theorem segment_covers_text (text : string) (options : SegmentationOptions) :
  (units (segment text options) <> [] ->
   join (map whole (units (segment text options))) = text)
  /\ (blank text = true -> units (segment text options) = []).
Proof.
  destruct (segment_final text options) as (Hcover & Hall & _).
  split; [done|]. intros Hb.
  destruct (units (segment text options)) as [|u us] eqn:E; [done|].
  exfalso. specialize (Hcover ltac:(done)).
  apply Forall_inv in Hall as (Hu & Htrim & _).
  rewrite <- Hcover in Hb. cbn [map] in Hb. rewrite join_cons in Hb.
  unfold whole in Hb. rewrite !blank_app in Hb.
  destruct (blank (content u)) eqn:Ec; [|by rewrite !andb_false_r in Hb].
  apply trim_blank in Ec. rewrite Htrim in Ec. by rewrite Ec in Hu.
Qed.

Lemma segment_covers_text_example :
  let text := "Hello world. This is a test." in
  units (segment text default_options) <> []
  /\ join (map whole (units (segment text default_options))) = text.
Proof.
  intros text.
  assert (H : units (segment text default_options) <> [])
    by (vm_compute; discriminate).
  split; [exact H|].
  exact (proj1 (segment_covers_text text default_options) H).
Defined.

(** *** reconstruct *)

Lemma reconstruct_loop_spaced units : forall p result,
  well_spaced (p :: units) = true ->
  reconstruct_loop units (Some p) result = result +:+ join (map whole units).
Proof.
  induction units as [|u rest IH]; intros p result H.
  - cbn [reconstruct_loop map]. by rewrite join_nil, append_empty_r.
  - cbn [well_spaced] in H. apply andb_true_iff in H as [Hs H].
    cbn [reconstruct_loop]. cbv zeta. rewrite Hs. cbn [negb].
    rewrite andb_false_r. rewrite IH by exact H.
    cbn [map]. rewrite join_cons. unfold whole.
    by rewrite append_nil_l, !append_assoc'.
Qed.

Lemma reconstruct_cons (u : SemanticUnit) (rest : list SemanticUnit) :
  reconstruct (u :: rest) = reconstruct_loop rest (Some u) (whole u).
Proof. unfold reconstruct. cbn [reconstruct_loop]. by rewrite !append_nil_l. Qed.

Lemma reconstruct_loop_length units : forall prev result,
  String.length result + String.length (join (map whole units))
  <= String.length (reconstruct_loop units prev result)
  <= String.length result + String.length (join (map whole units))
     + length units.
Proof.
  induction units as [|u rest IH]; intros prev result.
  - cbn [reconstruct_loop map length]. rewrite join_nil. cbn [String.length]. lia.
  - cbn [reconstruct_loop]. cbv zeta.
    set (spacing := match prev with Some _ => _ | None => _ end).
    assert (Hs : String.length spacing <= 1).
    { unfold spacing. destruct prev as [prevUnit|]; [|cbn; lia].
      destruct (_ && _); cbn; lia. }
    specialize (IH (Some u)
      (result +:+ spacing +:+ prefix u +:+ content u +:+ suffix u)).
    cbn [map length]. rewrite join_cons, length_append'.
    change (whole u) with (prefix u +:+ content u +:+ suffix u).
    rewrite !length_append' in *. lia.
Qed.

Lemma reconstruct_loop_unspaced units : forall p result,
  truthy result = true ->
  well_spaced (p :: units) = false ->
  String.length result + String.length (join (map whole units))
  < String.length (reconstruct_loop units (Some p) result).
Proof.
  induction units as [|u rest IH]; intros p result Hres H; [done|].
  cbn [well_spaced] in H. cbn [reconstruct_loop]. cbv zeta.
  cbn [map]. rewrite join_cons, length_append'.
  change (whole u) with (prefix u +:+ content u +:+ suffix u).
  destruct (hasSpace (suffix p) || hasSpace (prefix u)) eqn:Hs.
  - cbn [andb] in H. cbn [negb]. rewrite andb_false_r.
    assert (Hres' : truthy (result +:+ "" +:+ prefix u +:+ content u +:+ suffix u)
                    = true).
    { apply truthy_length. apply truthy_length in Hres.
      rewrite !length_append'. lia. }
    specialize (IH u _ Hres' H). rewrite !length_append' in *.
    cbn [String.length] in IH. lia.
  - rewrite Hres. cbn [andb negb].
    pose proof (proj1 (reconstruct_loop_length rest (Some u)
      (result +:+ " " +:+ prefix u +:+ content u +:+ suffix u))) as Hge.
    rewrite !length_append' in *. cbn [String.length] in Hge. lia.
Qed.

(** X7.  [reconstruct] writes the prefix, the content and the suffix of
    every unit in order, with at most one space added between two units:
    none at all when every two neighbours have white space in the suffix of
    the first or the prefix of the second.  For no unit the result is
    empty. *)
Theorem reconstruct_spacing (units : list SemanticUnit) :
  reconstruct [] = ""
  /\ (well_spaced units = true -> reconstruct units = join (map whole units))
  /\ String.length (join (map whole units))
     <= String.length (reconstruct units)
     <= String.length (join (map whole units)) + (length units - 1).
Proof.
  split; [done|]. destruct units as [|u rest].
  - split; [done|]. cbn. lia.
  - rewrite reconstruct_cons. cbn [map]. rewrite join_cons. split.
    + intros H. by apply reconstruct_loop_spaced.
    + pose proof (reconstruct_loop_length rest (Some u) (whole u)) as H.
      rewrite length_append'. cbn [length]. lia.
Qed.

Lemma reconstruct_spacing_example :
  let units := units (segment "One.  Two." default_options) in
  well_spaced units = true /\ reconstruct units = "One.  Two.".
Proof.
  intros units.
  assert (H : well_spaced units = true) by (vm_compute; reflexivity).
  split; [exact H|].
  rewrite (proj1 (proj2 (reconstruct_spacing units)) H).
  vm_compute. reflexivity.
Defined.

(** X8.  The round trip of a text through [segment] and [reconstruct] is
    exact, white space at the ends included, exactly when the segmentation
    has a unit and every two neighbouring units have white space between
    them. *)
Theorem segment_reconstruct_exact (text : string) (options : SegmentationOptions) :
  units (segment text options) <> [] ->
  (reconstruct (units (segment text options)) = text
   <-> well_spaced (units (segment text options)) = true).
Proof.
  intros Hne.
  destruct (segment_final text options) as (Hcover & Hall & _).
  specialize (Hcover Hne).
  destruct (units (segment text options)) as [|u rest]; [done|].
  split.
  - intros Hrt. destruct (well_spaced (u :: rest)) eqn:Hs; [done|]. exfalso.
    rewrite reconstruct_cons in Hrt.
    apply Forall_inv in Hall as (Hu & _).
    assert (Hw : truthy (whole u) = true).
    { apply truthy_length. apply truthy_length in Hu. unfold whole.
      rewrite !length_append'. lia. }
    pose proof (reconstruct_loop_unspaced rest u (whole u) Hw Hs) as Hlt.
    rewrite Hrt, <- Hcover in Hlt. cbn [map] in Hlt.
    rewrite join_cons, length_append' in Hlt. lia.
  - intros Hs. rewrite reconstruct_cons, reconstruct_loop_spaced by done.
    rewrite <- Hcover. cbn [map]. by rewrite join_cons.
Qed.

Lemma segment_reconstruct_exact_example :
  let text := "  Dr. Smith went home.  He slept. " in
  units (segment text default_options) <> []
  /\ well_spaced (units (segment text default_options)) = true
  /\ reconstruct (units (segment text default_options)) = text.
Proof.
  intros text.
  assert (H : units (segment text default_options) <> [])
    by (vm_compute; discriminate).
  assert (Hs : well_spaced (units (segment text default_options)) = true)
    by (vm_compute; reflexivity).
  split; [exact H|]. split; [exact Hs|].
  exact (proj2 (segment_reconstruct_exact text default_options H) Hs).
Defined.

End SegmentationProofs.

(** ** Hashing: proofs *)

Module HashProofs.
Import JS Hash WordMergeProofs.

(** *** createHash *)

Lemma hex_digit_ok (d : Z) : (0 <= d < 16)%Z -> isHexDigit (hex_digit d) = true.
Proof.
  intros H.
  assert (Hd : In d [0; 1; 2; 3; 4; 5; 6; 7; 8; 9; 10; 11; 12; 13; 14; 15]%Z).
  { cbn [In]. lia. }
  cbn [In] in Hd.
  repeat (destruct Hd as [<-|Hd]; [vm_compute; reflexivity|]). done.
Qed.

Lemma hex_fixed_spec (digits : nat) : forall n acc,
  String.length (hex_fixed digits n acc) = digits + String.length acc
  /\ (forallb isHexDigit (list_ascii_of_string acc) = true ->
      forallb isHexDigit (list_ascii_of_string (hex_fixed digits n acc)) = true).
Proof.
  induction digits as [|digits IH]; intros n acc; cbn [hex_fixed]; [done|].
  destruct (IH (n / 16)%Z (String (hex_digit (n mod 16)) acc)) as [Hl Hh].
  split; [rewrite Hl; cbn [String.length]; lia|].
  intros Hacc. apply Hh. cbn [list_ascii_of_string forallb].
  rewrite Hacc, andb_true_r. apply hex_digit_ok.
  apply Z.mod_pos_bound. lia.
Qed.

(** X9.  [createHash] returns eight code units for every input, each one a
    digit or a letter from a to f. *)
Theorem createHash_format (input : string) :
  String.length (createHash input) = 8
  /\ forallb isHexDigit (list_ascii_of_string (createHash input)) = true.
Proof.
  unfold createHash.
  destruct (hex_fixed_spec 8 (fnv_loop input 2166136261) "") as [Hl Hh].
  split; [exact Hl|]. by apply Hh.
Qed.

End HashProofs.

(** ** Levenshtein distance: proofs *)

Module DistanceProofs.
Import JS Similarity WordMergeProofs.

(** *** levenshteinDistance: the matrix computes the recurrence *)

Lemma edit_distance_nil_r (x : list ascii) : edit_distance x [] = length x.
Proof. by destruct x. Qed.

Lemma edit_distance_cons (cx cy : ascii) (x y : list ascii) :
  edit_distance (cx :: x) (cy :: y)
  = if bool_decide (cx = cy) then edit_distance x y
    else S (Nat.min (edit_distance x y)
              (Nat.min (edit_distance (cx :: x) y) (edit_distance x (cy :: y)))).
Proof. reflexivity. Qed.

Lemma row_of_length G rest : forall ya,
  length (row_of G ya rest) = S (String.length rest).
Proof.
  induction rest as [|ac rest IH]; intros ya; cbn [row_of length String.length];
    [done|]. by rewrite IH.
Qed.

Lemma row_of_last G rest : forall ya,
  row_of G ya rest !! String.length rest
  = Some (G (rev (list_ascii_of_string rest) ++ ya)).
Proof.
  induction rest as [|ac rest IH]; intros ya; [done|].
  cbn [row_of String.length list_ascii_of_string rev]. rewrite lookup_cons.
  by rewrite IH, <- app_assoc.
Qed.

Lemma row_of_head G ya rest : row_of G ya rest !! 0 = Some (G ya).
Proof. by destruct rest. Qed.

Lemma seq_row_of rest : forall ya,
  seq (length ya) (S (String.length rest)) = row_of (edit_distance []) ya rest.
Proof.
  induction rest as [|ac rest IH]; intros ya; [done|].
  cbn [String.length row_of]. rewrite <- IH. done.
Qed.

Lemma lev_row_spec bc x rest : forall ya,
  lev_row bc rest (row_of (edit_distance x) ya rest) (edit_distance (bc :: x) ya)
  = tail (row_of (edit_distance (bc :: x)) ya rest).
Proof.
  induction rest as [|ac rest IH]; intros ya; [done|].
  cbn [row_of tail].
  assert (Hrow : row_of (edit_distance x) (ac :: ya) rest
                 = edit_distance x (ac :: ya)
                   :: tail (row_of (edit_distance x) (ac :: ya) rest))
    by (by destruct rest).
  rewrite Hrow. cbn [lev_row]. cbv zeta. rewrite <- Hrow.
  assert (Hv : (if bool_decide (bc = ac) then edit_distance x ya
                else Nat.min (edit_distance x ya + 1)
                       (Nat.min (edit_distance (bc :: x) ya + 1)
                          (edit_distance x (ac :: ya) + 1)))
               = edit_distance (bc :: x) (ac :: ya)).
  { rewrite edit_distance_cons. case_bool_decide; [done|]. lia. }
  rewrite Hv, IH.
  by destruct rest.
Qed.

Lemma lev_rows_last a b : forall x,
  last (row_of (edit_distance x) [] a
        :: lev_rows a b (S (length x)) (row_of (edit_distance x) [] a))
  = Some (row_of (edit_distance (rev (list_ascii_of_string b) ++ x)) [] a).
Proof.
  induction b as [|bc b IH]; intros x; [done|].
  cbn [lev_rows list_ascii_of_string rev]. cbv zeta.
  replace (S (length x) :: lev_row bc a (row_of (edit_distance x) [] a) (S (length x)))
    with (row_of (edit_distance (bc :: x)) [] a).
  - rewrite last_cons_cons. pose proof (IH (bc :: x)) as IH'.
    cbn [length] in IH'. rewrite IH'. by rewrite <- app_assoc.
  - pose proof (lev_row_spec bc x a []) as H.
    rewrite edit_distance_nil_r in H. cbn [length] in H. rewrite H.
    by destruct a.
Qed.

Lemma lev_rows_length a b : forall i prev, length (lev_rows a b i prev) = String.length b.
Proof.
  induction b as [|bc b IH]; intros i prev; cbn [lev_rows String.length length];
    [done|]. by rewrite IH.
Qed.

(** The cell the function returns is the edit distance of the recurrence. *)
Lemma levenshteinDistance_edit_distance (a b : string) :
  levenshteinDistance a b
  = edit_distance (rev (list_ascii_of_string b)) (rev (list_ascii_of_string a)).
Proof.
  unfold levenshteinDistance, lev_cell, lev_matrix. cbv zeta.
  pose proof (lev_rows_last a b []) as Hlast.
  rewrite <- (seq_row_of a []) in Hlast. cbn [length] in Hlast.
  rewrite app_nil_r in Hlast.
  rewrite last_lookup in Hlast. cbn [length] in Hlast.
  rewrite lev_rows_length in Hlast. cbn [Nat.pred] in Hlast.
  rewrite Hlast. cbn [mbind option_bind]. rewrite row_of_last.
  by rewrite app_nil_r.
Qed.

Lemma edit_distance_bounds (x : list ascii) : forall y,
  length x - length y <= edit_distance x y
  /\ length y - length x <= edit_distance x y
  /\ edit_distance x y <= Nat.max (length x) (length y).
Proof.
  induction x as [|cx x IHx]; intros y; [cbn [edit_distance length]; lia|].
  induction y as [|cy y IHy]; [rewrite edit_distance_nil_r; cbn [length]; lia|].
  rewrite edit_distance_cons. cbn [length] in *.
  pose proof (IHx y) as Hd. pose proof (IHx (cy :: y)) as Hu.
  cbn [length] in Hu.
  case_bool_decide; lia.
Qed.

Lemma edit_distance_zero (x : list ascii) : forall y,
  edit_distance x y = 0 <-> x = y.
Proof.
  induction x as [|cx x IHx]; intros y.
  - cbn [edit_distance]. destruct y; cbn [length]; split; done.
  - destruct y as [|cy y]; [rewrite edit_distance_nil_r; split; done|].
    rewrite edit_distance_cons. case_bool_decide as Hc.
    + rewrite IHx. subst cy. split; [by intros ->|]. by intros [= ->].
    + split; [done|]. intros [= -> _]. done.
Qed.

Lemma edit_distance_sym (x : list ascii) : forall y,
  edit_distance x y = edit_distance y x.
Proof.
  induction x as [|cx x IHx]; intros y; [by rewrite edit_distance_nil_r|].
  induction y as [|cy y IHy]; [by rewrite edit_distance_nil_r|].
  rewrite !edit_distance_cons. rewrite IHy, (IHx y), (IHx (cy :: y)).
  repeat case_bool_decide; try done; try congruence. lia.
Qed.

Lemma rev_chars_length (s : string) :
  length (rev (list_ascii_of_string s)) = String.length s.
Proof.
  rewrite length_rev. induction s as [|c s IH]; [done|].
  cbn [list_ascii_of_string length String.length]. by rewrite IH.
Qed.

Lemma rev_chars_inj (s t : string) :
  rev (list_ascii_of_string s) = rev (list_ascii_of_string t) -> s = t.
Proof.
  intros H. apply (f_equal (@rev _)) in H. rewrite !rev_involutive in H.
  apply (f_equal string_of_list_ascii) in H.
  by rewrite !string_of_list_ascii_of_string in H.
Qed.

(** X10.  The Levenshtein distance of two strings is at least the
    difference of their lengths and at most the longer length, and the
    distance to the empty string is the length. *)
Theorem levenshteinDistance_bounds (a b : string) :
  String.length a - String.length b <= levenshteinDistance a b
  /\ String.length b - String.length a <= levenshteinDistance a b
  /\ levenshteinDistance a b <= Nat.max (String.length a) (String.length b)
  /\ levenshteinDistance a "" = String.length a
  /\ levenshteinDistance "" b = String.length b.
Proof.
  rewrite !levenshteinDistance_edit_distance.
  pose proof (edit_distance_bounds (rev (list_ascii_of_string b))
                (rev (list_ascii_of_string a))) as H.
  rewrite !rev_chars_length in H.
  split; [lia|]. split; [lia|]. split; [lia|]. split.
  - cbn [list_ascii_of_string rev edit_distance]. apply rev_chars_length.
  - cbn [list_ascii_of_string rev]. rewrite edit_distance_nil_r.
    apply rev_chars_length.
Qed.

(** X11.  The Levenshtein distance is 0 exactly for equal strings. *)
Theorem levenshteinDistance_zero (a b : string) :
  levenshteinDistance a b = 0 <-> a = b.
Proof.
  rewrite levenshteinDistance_edit_distance, edit_distance_zero.
  split; [by intros ->%rev_chars_inj|by intros ->].
Qed.

(** X12.  The Levenshtein distance does not depend on the order of its
    arguments, although the matrix has its rows for [b] and its columns
    for [a]. *)
Theorem levenshteinDistance_sym (a b : string) :
  levenshteinDistance a b = levenshteinDistance b a.
Proof.
  rewrite !levenshteinDistance_edit_distance. apply edit_distance_sym.
Qed.

End DistanceProofs.

(** ** Alignment strategies: proofs *)

Module AlignmentCoverProofs.
Import JS Types Similarity Alignment WordMergeProofs AlignmentProofs MergeProofs.

(** *** hybridAlign: the keys of the pairs it returns *)

Lemma dedupe_keys ps : forall seen,
  NoDup (map pair_key (dedupe seen ps))
  /\ Forall (fun p => pair_key p ∉ seen) (dedupe seen ps)
  /\ dedupe seen ps `sublist_of` ps
  /\ forall p, p ∈ ps -> pair_key p ∈ seen
               \/ pair_key p ∈ map pair_key (dedupe seen ps).
Proof.
  induction ps as [|p ps IH]; intros seen; cbn [dedupe].
  { split; [constructor|]. split; [constructor|]. split; [done|].
    intros p Hp. by apply elem_of_nil in Hp. }
  case_bool_decide as Hseen.
  - destruct (IH seen) as (Hnd & Hall & Hsub & Hkeys).
    split; [done|]. split; [done|]. split; [by apply sublist_cons|].
    intros q Hq. apply elem_of_cons in Hq as [->|Hq]; [by left|by apply Hkeys].
  - destruct (IH ({[pair_key p]} ∪ seen)) as (Hnd & Hall & Hsub & Hkeys).
    split; [|split; [|split]].
    + cbn [map]. constructor; [|done]. intros Hin.
      apply list_elem_of_fmap in Hin as (q & Hq & Hin).
      apply (proj1 (Forall_forall _ _) Hall) in Hin.
      apply Hin, elem_of_union. left. by apply elem_of_singleton.
    + constructor; [done|]. eapply Forall_impl; [exact Hall|].
      intros q Hq Hin. apply Hq, elem_of_union. by right.
    + by apply sublist_skip.
    + intros q Hq. cbn [map]. apply elem_of_cons in Hq as [->|Hq].
      * right. by left.
      * destruct (Hkeys q Hq) as [Hin|Hin]; [|right; by right].
        apply elem_of_union in Hin as [Hin|Hin]; [|by left].
        apply elem_of_singleton in Hin. right. rewrite Hin. by left.
Qed.

(** [dedupe] keeps a pair exactly when no pair before it has its key. *)
Lemma dedupe_first ps : forall seen (before : list AlignedPair),
  (forall key, key ∈ seen <-> key ∈ pair_key <$> before) ->
  dedupe seen ps
  = snd <$> filter (fun kp => pair_key kp.2
                              ∉ pair_key <$> take kp.1 (before ++ ps))
              (imap (fun k p => (length before + k, p)) ps).
Proof.
  induction ps as [|p ps IH]; intros seen before Hseen; [done|].
  cbn [dedupe imap]. rewrite filter_cons. cbn [fst snd].
  rewrite Nat.add_0_r, take_app_length.
  assert (Hrest : forall seen',
            (forall key, key ∈ seen' <-> key ∈ pair_key <$> (before ++ [p])) ->
            dedupe seen' ps
            = snd <$> filter (fun kp => pair_key kp.2
                                        ∉ pair_key <$> take kp.1 (before ++ p :: ps))
                        (imap ((fun k q => (length before + k, q)) ∘ S) ps)).
  { intros seen' Hseen'. rewrite (IH seen' (before ++ [p]) Hseen').
    rewrite <- app_assoc. cbn [app]. do 2 f_equal.
    apply imap_ext. intros k q _. cbn. rewrite length_app. cbn. f_equal. lia. }
  case_bool_decide as Hin.
  - rewrite decide_False by (intros Hn; apply Hn; by apply Hseen).
    apply Hrest. intros key. rewrite fmap_app, elem_of_app. cbn.
    rewrite list_elem_of_singleton, <- Hseen. split; [by left|].
    intros [Hk| ->]; done.
  - rewrite decide_True by (intros Hn; apply Hin; by apply Hseen).
    cbn [fmap list_fmap snd]. f_equal.
    apply Hrest. intros key. rewrite fmap_app, elem_of_app. cbn.
    rewrite list_elem_of_singleton, <- Hseen, elem_of_union, elem_of_singleton.
    tauto.
Qed.

(** X13.  [hybridAlign] returns, of the pairs of the sequential alignment
    as the move detection left them, exactly those whose key (the hash of
    the source, or "null", then the hash of the target, or "null") no
    earlier pair has, in their order: a later pair that repeats a key is
    dropped, and no two pairs returned have the same key. *)
Theorem hybridAlign_distinct_keys (sourceAddress targetAddress : nat -> nat)
    (source target : list SemanticUnit)
    (similarityMatrix : list (list float)) (opts : ResolvedOptions) :
  let store :=
    map pair_of
      (detect_moves sourceAddress targetAddress source target similarityMatrix
         (opt_matchThreshold opts)
         (sequential_pairs source target similarityMatrix opts)) in
  let result :=
    hybridAlign sourceAddress targetAddress source target similarityMatrix opts in
  pairs result = first_of_key store
  /\ NoDup (map pair_key (pairs result))
  /\ pairs result `sublist_of` store
  /\ forall p, p ∈ store -> pair_key p ∈ map pair_key (pairs result).
Proof.
  cbv zeta. unfold hybridAlign. cbn [pairs].
  set (store := map pair_of _).
  destruct (dedupe_keys store ∅) as (Hnd & _ & Hsub & Hkeys).
  split; [|split; [done|split; [done|]]].
  - rewrite (dedupe_first store ∅ []); [done|].
    intros key. cbn. rewrite elem_of_nil. by rewrite elem_of_empty.
  - intros p Hp.
    destruct (Hkeys p Hp) as [Hin|Hin]; [by apply elem_of_empty in Hin|done].
Qed.

(** [indexOf] compares objects, not fields.  Two source units with the
    same fields, each like the other target unit: the sequential alignment
    matches the first with the second target and leaves a deletion and an
    insertion.  When the two units are two objects, the deleted one is found
    at index 1, its similarity to the inserted unit passes the threshold,
    and the deletion and the insertion become one modification; when the
    array holds one object twice, it is found at index 0 and nothing
    moves. *)
Lemma hybridAlign_compares_objects :
  let u := mkUnit "One." "6a1f" 0 0 4 "" "" None in
  let v := mkUnit "Two." "7b2e" 0 0 4 "" "" None in
  let w := mkUnit "Six." "8c3d" 1 5 9 " " "" None in
  let similarityMatrix := [[0.5; 0.875]; [0.875; 0.5]]%float in
  let opts := mkResolved Hybrid 0.75 in
  pairs (hybridAlign distinct_objects distinct_objects [u; u] [v; w]
           similarityMatrix opts)
  = [mkPair (Some u) (Some v) 0%float Modification;
     mkPair (Some u) (Some w) 0.875%float Match]
  /\ pairs (hybridAlign (fun _ => 0) distinct_objects [u; u] [v; w]
              similarityMatrix opts)
     = [mkPair None (Some v) 0%float Insertion;
        mkPair (Some u) (Some w) 0.875%float Match;
        mkPair (Some u) None 0%float Deletion].
Proof. split; vm_compute; reflexivity. Qed.

(** *** semanticAlign: every unit once *)

Lemma omap_fmap {A B C} (f : B -> option C) (g : A -> B) (l : list A) :
  omap f (g <$> l) = omap (fun x => f (g x)) l.
Proof.
  induction l as [|x l IH]; [done|]. csimpl. by rewrite IH.
Qed.

Lemma omap_lookup_seq {A} (l : list A) :
  omap (fun i => l !! i) (seq 0 (length l)) = l.
Proof.
  induction l as [|x l IH]; [done|].
  cbn [length seq]. csimpl. f_equal.
  rewrite <- fmap_S_seq, omap_fmap. exact IH.
Qed.

Lemma greedy_matched source target cands : forall g ms,
  g_pairs g = map (candidate_pair source target) ms ->
  (forall i, i ∈ matchedSource g <-> i ∈ map cand_i ms) ->
  (forall j, j ∈ matchedTarget g <-> j ∈ map cand_j ms) ->
  NoDup (map cand_i ms) -> NoDup (map cand_j ms) ->
  ms ⊆ ms ++ cands ->
  exists ms',
    let g' := foldl (greedy_step source target) g cands in
    g_pairs g' = map (candidate_pair source target) ms'
    /\ (forall i, i ∈ matchedSource g' <-> i ∈ map cand_i ms')
    /\ (forall j, j ∈ matchedTarget g' <-> j ∈ map cand_j ms')
    /\ NoDup (map cand_i ms') /\ NoDup (map cand_j ms')
    /\ ms' ⊆ ms ++ cands.
Proof.
  induction cands as [|c cands IH]; intros g ms Hp Hs Ht Hns Hnt _.
  { exists ms. cbn [foldl]. rewrite app_nil_r. done. }
  cbn [foldl].
  assert (Hstep : greedy_step source target g c
                  = if bool_decide (cand_i c ∉ matchedSource g)
                       && bool_decide (cand_j c ∉ matchedTarget g)
                    then mkGreedy (g_pairs g ++ [candidate_pair source target c])
                           ({[cand_i c]} ∪ matchedSource g)
                           ({[cand_j c]} ∪ matchedTarget g)
                    else g) by reflexivity.
  rewrite Hstep. clear Hstep.
  destruct (bool_decide (cand_i c ∉ matchedSource g)
            && bool_decide (cand_j c ∉ matchedTarget g)) eqn:E.
  - apply andb_true_iff in E as [Ei Ej].
    apply bool_decide_eq_true in Ei, Ej.
    destruct (IH (mkGreedy
                (g_pairs g ++ [candidate_pair source target c])
                ({[cand_i c]} ∪ matchedSource g) ({[cand_j c]} ∪ matchedTarget g))
                (ms ++ [c])) as (ms' & H).
    + cbn [g_pairs]. by rewrite map_app, Hp.
    + intros i. cbn [matchedSource]. rewrite map_app, elem_of_app, elem_of_union,
        elem_of_singleton, Hs. cbn [map]. rewrite list_elem_of_singleton. tauto.
    + intros j. cbn [matchedTarget]. rewrite map_app, elem_of_app, elem_of_union,
        elem_of_singleton, Ht. cbn [map]. rewrite list_elem_of_singleton. tauto.
    + rewrite map_app. apply NoDup_app. split; [done|]. split.
      * intros i Hi Hin. cbn [map] in Hin. apply list_elem_of_singleton in Hin.
        subst i. by apply Ei, Hs.
      * cbn [map]. apply NoDup_singleton.
    + rewrite map_app. apply NoDup_app. split; [done|]. split.
      * intros j Hj Hin. cbn [map] in Hin. apply list_elem_of_singleton in Hin.
        subst j. by apply Ej, Ht.
      * cbn [map]. apply NoDup_singleton.
    + intros x Hx. apply elem_of_app. by left.
    + exists ms'. cbv zeta in *. rewrite <- app_assoc in H. exact H.
  - destruct (IH g ms Hp Hs Ht Hns Hnt) as (ms' & H).
    + intros x Hx. apply elem_of_app. by left.
    + exists ms'. cbv zeta in *.
      destruct H as (H1 & H2 & H3 & H4 & H5 & H6).
      do 5 (split; [done|]). intros x Hx. apply H6 in Hx.
      apply elem_of_app in Hx as [Hx|Hx]; apply elem_of_app; [by left|].
      right. by right.
Qed.

Lemma matched_or_not (ks : list nat) (m : nat) (X : gset nat) :
  NoDup ks -> Forall (fun k => k < m) ks ->
  (forall i, i ∈ X <-> i ∈ ks) ->
  ks ++ filter (fun i => i ∉ X) (seq 0 m) ≡ₚ seq 0 m.
Proof.
  intros Hnd Hlt HX.
  rewrite <- (filter_app_complement (fun i => i ∈ X) (seq 0 m)) at 2.
  apply Permutation_app_tail. apply NoDup_Permutation; [done| |].
  - apply NoDup_filter, NoDup_seq.
  - intros i. rewrite list_elem_of_filter, elem_of_seq, HX. split; [|tauto].
    intros Hi. split; [done|].
    apply (proj1 (Forall_forall _ _) Hlt) in Hi. lia.
Qed.

Lemma omap_source_deletions (source : list SemanticUnit) (X : gset nat) l :
  omap Types.source
    (flat_map (fun i => if bool_decide (i ∉ X)
                        then [mkPair (source !! i) None 0%float Deletion] else [])
       l)
  = omap (fun i => source !! i) (filter (fun i => i ∉ X) l)
  /\ omap Types.target
       (flat_map (fun i => if bool_decide (i ∉ X)
                           then [mkPair (source !! i) None 0%float Deletion]
                           else [])
          l) = [].
Proof.
  induction l as [|i l [IH1 IH2]]; [done|].
  cbn [flat_map]. rewrite filter_cons. case_bool_decide as Hi.
  - rewrite decide_True by done. rewrite !omap_app, IH1, IH2.
    split; [|reflexivity]. cbn. by destruct (source !! i).
  - rewrite decide_False by (intros Hn; by apply Hn). cbn [app]. by split.
Qed.

Lemma omap_target_insertions (target : list SemanticUnit) (X : gset nat) l :
  omap Types.target
    (flat_map (fun j => if bool_decide (j ∉ X)
                        then [mkPair None (target !! j) 0%float Insertion] else [])
       l)
  = omap (fun j => target !! j) (filter (fun j => j ∉ X) l)
  /\ omap Types.source
       (flat_map (fun j => if bool_decide (j ∉ X)
                           then [mkPair None (target !! j) 0%float Insertion]
                           else [])
          l) = [].
Proof.
  induction l as [|j l [IH1 IH2]]; [done|].
  cbn [flat_map]. rewrite filter_cons. case_bool_decide as Hj.
  - rewrite decide_True by done. rewrite !omap_app, IH1, IH2.
    split; [|reflexivity]. cbn. by destruct (target !! j).
  - rewrite decide_False by (intros Hn; by apply Hn). cbn [app]. by split.
Qed.

Lemma candidates_above_threshold m n M thr :
  Forall (fun c => (thr <=? cand_sim c)%float = true
                   /\ cand_i c < m /\ cand_j c < n)
    (candidates_of m n M thr).
Proof.
  unfold candidates_of. apply Forall_forall. intros c Hc.
  apply list_elem_of_In, in_flat_map in Hc as (i & Hi & Hc).
  apply in_flat_map in Hc as (j & Hj & Hc).
  apply in_seq in Hi, Hj.
  destruct (thr <=? sim_at M i j)%float eqn:E; [|done].
  destruct Hc as [<-|[]]. cbn. split; [done|]. lia.
Qed.

(** X14.  [semanticAlign] pairs every source unit and every target unit
    exactly once.  A pair with both sides has a similarity that reaches the
    threshold, and is a match exactly when the similarity reaches 0.99
    (unlike in the sequential alignment, a modification is not below the
    threshold); deletions and insertions have similarity 0.  The pairs come
    in the order of their positions: the index of the target, or of the
    source for a deletion. *)
Theorem semanticAlign_covers (source target : list SemanticUnit)
    (similarityMatrix : list (list float)) (opts : ResolvedOptions) :
  let result := semanticAlign source target similarityMatrix opts in
  omap Types.source (pairs result) ≡ₚ source
  /\ omap Types.target (pairs result) ≡ₚ target
  /\ Forall (fun p =>
       match type p with
       | Match =>
           (opt_matchThreshold opts <=? similarity p)%float = true
           /\ (0x1.fae147ae147aep-1 <=? similarity p)%float = true
       | Modification =>
           (opt_matchThreshold opts <=? similarity p)%float = true
           /\ (0x1.fae147ae147aep-1 <=? similarity p)%float = false
       | Insertion | Deletion => similarity p = 0%float
       end) (pairs result)
  /\ StronglySorted (fun p q => pair_position p <= pair_position q)
       (pairs result).
Proof.
  cbv zeta. unfold semanticAlign. cbv zeta. cbn [pairs].
  set (cands := sort_candidates _).
  assert (Hcands : Forall (fun c => (opt_matchThreshold opts <=? cand_sim c)%float = true
                            /\ cand_i c < length source
                            /\ cand_j c < length target) cands).
  { apply stable_sort_Forall, candidates_above_threshold. }
  destruct (greedy_matched source target cands (mkGreedy [] ∅ ∅) []
              eq_refl
              ltac:(intros i; cbn; by rewrite elem_of_nil, elem_of_empty)
              ltac:(intros j; cbn; by rewrite elem_of_nil, elem_of_empty)
              (NoDup_nil_2) (NoDup_nil_2) ltac:(intros x Hx; by apply elem_of_nil in Hx))
    as (ms & Hms).
  cbv zeta in Hms. cbn [app] in Hms.
  set (g := foldl (greedy_step source target) (mkGreedy [] ∅ ∅) cands) in *.
  destruct Hms as (Hp & Hs & Ht & Hns & Hnt & Hsub).
  assert (Hall : Forall (fun c => (opt_matchThreshold opts <=? cand_sim c)%float = true
                          /\ cand_i c < length source
                          /\ cand_j c < length target) ms).
  { apply Forall_forall. intros c Hc.
    by apply (proj1 (Forall_forall _ _) Hcands), Hsub. }
  destruct (omap_source_deletions source (matchedSource g) (seq 0 (length source)))
    as [Hds Hdt].
  destruct (omap_target_insertions target (matchedTarget g) (seq 0 (length target)))
    as [Hit His].
  split; [|split; [|split]].
  - rewrite <- stable_sort_Permutation.
    rewrite !omap_app, Hds, His, app_nil_r, Hp.
    change (map (candidate_pair source target) ms)
      with (candidate_pair source target <$> ms).
    rewrite omap_fmap.
    change (fun x => Types.source (candidate_pair source target x))
      with (fun x => source !! cand_i x).
    rewrite <- (omap_fmap (fun i => source !! i) cand_i), <- omap_app.
    transitivity (omap (fun i => source !! i) (seq 0 (length source)));
      [|by rewrite omap_lookup_seq].
    apply omap_Permutation, matched_or_not; [done| |done].
    apply Forall_fmap. eapply Forall_impl; [exact Hall|]. by intros c (_ & H & _).
  - rewrite <- stable_sort_Permutation.
    rewrite !omap_app, Hdt, Hit, Hp. cbn [app].
    change (map (candidate_pair source target) ms)
      with (candidate_pair source target <$> ms).
    rewrite omap_fmap.
    change (fun x => Types.target (candidate_pair source target x))
      with (fun x => target !! cand_j x).
    rewrite <- (omap_fmap (fun j => target !! j) cand_j), <- omap_app.
    transitivity (omap (fun j => target !! j) (seq 0 (length target)));
      [|by rewrite omap_lookup_seq].
    apply omap_Permutation, matched_or_not; [done| |done].
    apply Forall_fmap. eapply Forall_impl; [exact Hall|]. by intros c (_ & _ & H).
  - apply stable_sort_Forall. rewrite !Forall_app. split; [|split].
    + rewrite Hp. apply Forall_forall. intros p Hp'.
      apply list_elem_of_fmap in Hp' as (c & -> & Hc).
      apply (proj1 (Forall_forall _ _) Hall) in Hc as (Hthr & _).
      unfold candidate_pair. cbn [type similarity].
      by destruct (0x1.fae147ae147aep-1 <=? cand_sim c)%float eqn:E.
    + apply Forall_forall. intros p Hp'.
      apply list_elem_of_In, in_flat_map in Hp' as (i & _ & Hp').
      destruct (bool_decide _); [|done]. by destruct Hp' as [<-|[]].
    + apply Forall_forall. intros p Hp'.
      apply list_elem_of_In, in_flat_map in Hp' as (j & _ & Hp').
      destruct (bool_decide _); [|done]. by destruct Hp' as [<-|[]].
  - eapply StronglySorted_weaken; [|apply stable_sort_sorted].
    + intros p q H. cbv beta in H. apply Nat.ltb_ge in H. exact H.
    + intros x y z H1 H2. apply Nat.ltb_ge in H1, H2. apply Nat.ltb_ge. lia.
    + intros x y H. apply Nat.ltb_lt in H. apply Nat.ltb_ge. lia.
Qed.

(** *** align: when it returns *)

Lemma cosineSimilarity_same_length (a b : list float) :
  length a = length b -> exists v, cosineSimilarity a b = Ok v.
Proof.
  intros H. unfold cosineSimilarity. rewrite H, Nat.eqb_refl. cbn [negb].
  destruct (cosine_sums a b 0 0 0) as [[dotProduct normA] normB].
  destruct (sqrt normA * sqrt normB =? 0)%float; by eexists.
Qed.

Lemma matrix_row_ok srcEmb targetEmbeddings (d : nat) n : forall j,
  (forall s, srcEmb = Some s -> length s = d) ->
  Forall (fun e => length e = d) targetEmbeddings ->
  exists row, matrix_row srcEmb targetEmbeddings n j = Ok row.
Proof.
  induction n as [|n IH]; intros j Hs Ht; [by eexists|].
  cbn [matrix_row].
  assert (Hcell : exists v,
            match srcEmb, targetEmbeddings !! j with
            | Some s, Some t => cosineSimilarity s t
            | _, _ => Ok 0%float
            end = Ok v).
  { destruct srcEmb as [s|]; [|by eexists].
    destruct (targetEmbeddings !! j) as [t|] eqn:E; [|by eexists].
    apply cosineSimilarity_same_length.
    rewrite (Hs s eq_refl). symmetry.
    by apply (proj1 (Forall_lookup _ _) Ht j t). }
  destruct Hcell as [v ->]. destruct (IH (S j) Hs Ht) as [row ->]. by eexists.
Qed.

Lemma matrix_rows_ok sourceEmbeddings targetEmbeddings (d : nat) n m : forall i,
  Forall (fun e => length e = d) sourceEmbeddings ->
  Forall (fun e => length e = d) targetEmbeddings ->
  exists rows, matrix_rows sourceEmbeddings targetEmbeddings m n i = Ok rows.
Proof.
  induction m as [|m IH]; intros i Hs Ht; [by eexists|].
  cbn [matrix_rows].
  destruct (matrix_row_ok (sourceEmbeddings !! i) targetEmbeddings d n 0)
    as [row ->]; [|done|].
  { intros s E. by apply (proj1 (Forall_lookup _ _) Hs i s). }
  destruct (IH (S i) Hs Ht) as [rows ->]. by eexists.
Qed.

(** X15.  [align] does not consult the embedding provider when one of the
    two sides is empty: it returns one insertion for every target unit, or
    one deletion for every source unit, in order.  Otherwise an error of
    the provider is the error of [align], and [align] returns whenever the
    provider returns vectors of one same dimension. *)
Theorem align_returns (sourceAddress targetAddress : nat -> nat)
    (source target : list SemanticUnit)
    (options : AlignmentOptions) (provider : EmbeddingProvider) :
  (source = [] \/ target = [] ->
   align sourceAddress targetAddress source target options provider
   = Ok (mkAlignment
           (map (fun t => mkPair None (Some t) 0%float Insertion) target
            ++ map (fun s => mkPair (Some s) None 0%float Deletion) source)
           [] []))
  /\ (source <> [] -> target <> [] ->
      match provider (map content source ++ map content target) with
      | Throw message =>
          align sourceAddress targetAddress source target options provider
          = Throw message
      | Ok allEmbeddings =>
          (exists d, Forall (fun e => length e = d) allEmbeddings) ->
          exists result,
            align sourceAddress targetAddress source target options provider
            = Ok result
      end).
Proof.
  split.
  - intros [->| ->].
    + destruct target; [done|]. unfold align. by rewrite app_nil_r.
    + destruct source; done.
  - intros Hs Ht. destruct source as [|s source]; [done|].
    destruct target as [|t target]; [done|].
    unfold align.
    destruct (provider _) as [allEmbeddings|message]; [|done].
    intros [d Hd].
    destruct (matrix_rows_ok (take (length (s :: source)) allEmbeddings)
                (drop (length (s :: source)) allEmbeddings) d
                (length (t :: target)) (length (s :: source)) 0)
      as [rows ->]; [by apply Forall_take|by apply Forall_drop|].
    by eexists.
Qed.

Lemma align_returns_example :
  let source :=
    Segmentation.units (Segmentation.segment "One. Two." Segmentation.default_options) in
  (source = [] \/ [] = ([] : list SemanticUnit))
  /\ align distinct_objects distinct_objects source [] (mkOptions None None)
       (fun _ => Throw "no model")
     = Ok (mkAlignment
             (map (fun s => mkPair (Some s) None 0%float Deletion) source)
             [] []).
Proof.
  intros source.
  assert (H : source = [] \/ [] = ([] : list SemanticUnit)) by (by right).
  split; [exact H|].
  exact (proj1 (align_returns distinct_objects distinct_objects source []
                  (mkOptions None None) (fun _ => Throw "no model")) H).
Defined.

End AlignmentCoverProofs.

(** ** Merge state: proofs *)

Module MergeStateProofs.
Import JS Types Segmentation Alignment Merge WordMergeProofs MergeProofs SegmentationProofs.

(** *** tryAutoResolve *)

Lemma tryAutoResolve_some (conflict : Conflict) (strategy : ConflictStrategy) :
  strategy <> Defer -> is_Some (tryAutoResolve conflict strategy).
Proof.
  intros H. unfold tryAutoResolve. cbv zeta.
  match goal with |- context [if ?b then Some _ else _] => destruct b end;
    [by eexists|].
  match goal with |- context [if ?b then Some _ else _] => destruct b end;
    [by eexists|].
  destruct strategy; [by eexists..|done].
Qed.

(** *** The loops of merge: what they keep true *)

Section MergeInvariant.
Variable generateConflictId : nat -> string.
Variable strategy : ConflictStrategy.
Variables abPairs acPairs : list AlignedPair.
Variable unitsC : list SemanticUnit.

Let state_inv (st : State) : Prop :=
  length (st_conflicts st) <= stats_conflicts (st_stats st)
  /\ length (st_resolutions st) <= autoResolved (st_stats st)
  /\ stats_conflicts (st_stats st)
     <= length (st_conflicts st) + length (st_resolutions st)
  /\ Forall (fun c => exists u, u ∈ mergedUnits st
                                /\ content u = formatConflictMarker c)
       (st_conflicts st)
  /\ (strategy <> Defer -> st_conflicts st = []).

Lemma inv_units st st' :
  state_inv st ->
  st_conflicts st' = st_conflicts st ->
  st_resolutions st' = st_resolutions st ->
  stats_conflicts (st_stats st') = stats_conflicts (st_stats st) ->
  autoResolved (st_stats st) <= autoResolved (st_stats st') ->
  (forall u, u ∈ mergedUnits st -> u ∈ mergedUnits st') ->
  state_inv st'.
Proof.
  intros (H1 & H2 & H3 & H4 & H5) Ec Er Es Ea Hu. unfold state_inv.
  rewrite Ec, Er, Es. split; [done|]. split; [lia|]. split; [done|].
  split; [|done]. eapply Forall_impl; [exact H4|].
  intros c (u & Hin & Hc). exists u. split; [by apply Hu|done].
Qed.

Lemma processB_target_inv change st : state_inv st -> state_inv (processB_target change st).
Proof.
  intros H. unfold processB_target. destruct (change ≫= target); [|done].
  by eapply inv_units.
Qed.

Lemma processC_target_inv change st : state_inv st -> state_inv (processC_target change st).
Proof.
  intros H. unfold processC_target. destruct (change ≫= target); [|done].
  by eapply inv_units.
Qed.

Lemma both_changed_inv aUnit bChange cChange st :
  state_inv st ->
  state_inv (both_changed generateConflictId strategy abPairs acPairs aUnit
         bChange cChange st).
Proof.
  intros Hinv. unfold both_changed.
  set (p1 := if isDeletionWithoutTarget bChange then _ else _).
  assert (H1 : state_inv p1.2).
  { unfold p1. destruct (isDeletionWithoutTarget bChange); [|done].
    destruct (find_insertion _ _ _); [|done]. by eapply inv_units. }
  destruct p1 as [bContent st1]. cbn [snd] in H1.
  set (p2 := if isDeletionWithoutTarget cChange then _ else _).
  assert (H2 : state_inv p2.2).
  { unfold p2. destruct (isDeletionWithoutTarget cChange); [|done].
    destruct (find_insertion _ _ _); [|done]. by eapply inv_units. }
  destruct p2 as [cContent st2]. cbn [snd] in H2. clear H1 Hinv.
  cbv zeta.
  set (wm := WordMerge.wordMerge3Way (content aUnit) bContent cContent).
  set (cRemovedUnit := negb (truthy cContent) || _).
  destruct (negb (WordMerge.hasConflict wm)
            && (negb (WordMerge.hasConflict wm)
                && (bool_decide (WordMerge.merged wm = bContent)
                    || bool_decide (WordMerge.merged wm = cContent)))) eqn:Eclean.
  { apply processC_target_inv.
    set (mergedContent := if _ && _ && _ then bContent else _).
    destruct (truthy mergedContent).
    - destruct (cRemovedUnit && _); eapply inv_units; try exact H2;
        try reflexivity; cbn; try lia; intros u Hu; apply elem_of_app; by left.
    - destruct cRemovedUnit; eapply inv_units; try exact H2;
        try reflexivity; cbn; try lia; done. }
  destruct (negb (WordMerge.hasConflict wm) && bool_decide (strategy = Defer))
    eqn:Edefer.
  { apply processC_target_inv.
    destruct (truthy (WordMerge.merged wm)).
    - destruct H2 as (G1 & G2 & G3 & G4 & G5). unfold state_inv. cbn.
      rewrite length_app. cbn [length]. split; [done|]. split; [lia|].
      split; [lia|]. split; [|done].
      eapply Forall_impl; [exact G4|]. intros c (u & Hin & Hc).
      exists u. split; [|done]. apply elem_of_app. by left.
    - destruct cRemovedUnit; eapply inv_units; try exact H2;
        try reflexivity; cbn; try lia; done. }
  set (conflict := mkConflict _ _ _ _ _ _ _ _ _).
  destruct (tryAutoResolve conflict strategy) as [resolution|] eqn:Eres.
  - apply processC_target_inv, processB_target_inv.
    assert (H5 : state_inv (with_stats inc_autoResolved
                        (push_resolution resolution
                           (count_generated (with_stats inc_conflicts st2))))).
    { destruct H2 as (G1 & G2 & G3 & G4 & G5). unfold state_inv. cbn.
      rewrite length_app. cbn [length]. split; [lia|]. split; [lia|].
      split; [lia|]. done. }
    destruct (truthy (resolved resolution)).
    + destruct (cRemovedUnit && _); eapply inv_units; try exact H5;
        try reflexivity; cbn; try lia; intros u Hu; apply elem_of_app; by left.
    + destruct cRemovedUnit; eapply inv_units; try exact H5;
        try reflexivity; cbn; try lia; done.
  - apply processC_target_inv.
    destruct H2 as (G1 & G2 & G3 & G4 & G5). unfold state_inv. cbn.
    rewrite length_app. cbn [length]. split; [lia|]. split; [lia|].
    split; [lia|]. split.
    + apply Forall_app. split.
      * eapply Forall_impl; [exact G4|]. intros c (u & Hin & Hc).
        exists u. split; [|done]. apply elem_of_app. by left.
      * constructor; [|done]. eexists. split.
        { apply elem_of_app. right. by left. }
        reflexivity.
    + intros Hs. destruct (tryAutoResolve_some conflict strategy Hs) as [r Hr].
      congruence.
Qed.

Lemma inv_push_unit u st : state_inv st -> state_inv (push_unit u st).
Proof.
  intros H. eapply inv_units; [exact H|done..|].
  intros v Hv. apply elem_of_app. by left.
Qed.

Lemma inv_with_stats f st :
  (forall s, stats_conflicts (f s) = stats_conflicts s
             /\ autoResolved s <= autoResolved (f s)) ->
  state_inv st -> state_inv (with_stats f st).
Proof.
  intros Hf H. destruct (Hf (st_stats st)) as [H1 H2].
  by eapply inv_units; [exact H|..].
Qed.

Lemma inv_processB h st : state_inv st -> state_inv (processB h st).
Proof. intros H. by eapply inv_units. Qed.

Lemma inv_processC h st : state_inv st -> state_inv (processC h st).
Proof. intros H. by eapply inv_units. Qed.

Lemma process_unit_inv aToB aToC st aUnit :
  state_inv st ->
  state_inv (process_unit generateConflictId strategy abPairs acPairs aToB aToC st aUnit).
Proof.
  intros H. unfold process_unit. cbv zeta.
  destruct (negb (changed aUnit (aToB !! hash aUnit))
            && negb (changed aUnit (aToC !! hash aUnit))).
  { apply inv_with_stats; [intros ?; cbn; lia|].
    by apply processB_target_inv, inv_push_unit. }
  destruct (changed aUnit (aToB !! hash aUnit)
            && negb (changed aUnit (aToC !! hash aUnit))).
  { destruct (aToB !! hash aUnit ≫= target); [|done].
    apply inv_with_stats; [intros ?; cbn; lia|].
    by apply inv_processB, inv_push_unit. }
  destruct (negb (changed aUnit (aToB !! hash aUnit))
            && changed aUnit (aToC !! hash aUnit)).
  { destruct (aToC !! hash aUnit ≫= target).
    - apply inv_with_stats; [intros ?; cbn; lia|].
      by apply inv_processC, inv_push_unit.
    - by apply inv_with_stats; [intros ?; cbn; lia|]. }
  by apply both_changed_inv.
Qed.

Lemma process_c_insertion_inv st pair :
  state_inv st -> state_inv (process_c_insertion strategy abPairs acPairs st pair).
Proof.
  intros H. unfold process_c_insertion.
  destruct (target pair) as [t|]; [|done].
  destruct (_ && _); [|done].
  destruct (_ && _); [by apply inv_processC|].
  apply inv_with_stats; [intros ?; cbn; lia|].
  by apply inv_processC, inv_push_unit.
Qed.

Lemma process_b_insertion_inv st pair :
  state_inv st -> state_inv (process_b_insertion strategy abPairs acPairs unitsC st pair).
Proof.
  intros H. unfold process_b_insertion.
  destruct (target pair) as [t|]; [|done].
  destruct (_ && _); [|done].
  destruct (_ && _); [by apply inv_processB|].
  destruct (existsb _ _); [done|].
  apply inv_with_stats; [intros ?; cbn; lia|].
  by apply inv_processB, inv_push_unit.
Qed.

Lemma foldl_inv {A} (f : State -> A -> State) (l : list A) : forall st,
  (forall st x, state_inv st -> state_inv (f st x)) -> state_inv st -> state_inv (foldl f st l).
Proof.
  induction l as [|x l IH]; intros st Hf Hst; [done|].
  cbn [foldl]. apply IH; [done|]. by apply Hf.
Qed.

End MergeInvariant.

Lemma merge_state_inv a b c options provider generateConflictId st :
  merge_state a b c options provider generateConflictId = Ok st ->
  length (st_conflicts st) <= stats_conflicts (st_stats st)
  /\ length (st_resolutions st) <= autoResolved (st_stats st)
  /\ stats_conflicts (st_stats st)
     <= length (st_conflicts st) + length (st_resolutions st)
  /\ Forall (fun c => exists u, u ∈ mergedUnits st
                                /\ content u = formatConflictMarker c)
       (st_conflicts st)
  /\ (normalizeStrategy (conflictStrategy options) <> Defer ->
      st_conflicts st = []).
Proof.
  unfold merge_state. cbv zeta.
  destruct (align _ _ _ _ _ provider) as [abAlignment|]; [|done].
  destruct (align _ _ _ _ _ provider) as [acAlignment|]; [|done].
  intros [= <-].
  apply foldl_inv; [intros; by apply process_b_insertion_inv|].
  apply foldl_inv; [intros; by apply process_c_insertion_inv|].
  apply foldl_inv; [intros; by apply process_unit_inv|].
  cbn. split; [lia|]. split; [lia|]. split; [lia|]. done.
Qed.

(** *** Occurrences *)

Lemma startsWith_app (p s : string) : startsWith p (p +:+ s) = true.
Proof. apply startsWith_spec. by rewrite sdrop_app_length. Qed.

Lemma indexOf_from_occurs (p before after : string) : forall pos,
  is_Some (indexOf_from p (before +:+ p +:+ after) pos).
Proof.
  induction before as [|c before IH]; intros pos.
  - rewrite append_nil_l.
    assert (H : startsWith p (p +:+ after) = true) by apply startsWith_app.
    destruct (p +:+ after) as [|d rest]; cbn [indexOf_from]; rewrite H;
      by eexists.
  - rewrite append_cons. cbn [indexOf_from].
    destruct (startsWith p _); [by eexists|]. apply IH.
Qed.

Lemma includes_occurs (p s : string) : occurs_in p s -> includes p s = true.
Proof.
  intros (before & after & ->). unfold includes, indexOf.
  cbn [Nat.leb]. rewrite sdrop_0.
  by destruct (indexOf_from_occurs p before after 0) as [k ->].
Qed.

Lemma occurs_in_app_r (p s t : string) : occurs_in p s -> occurs_in p (s +:+ t).
Proof.
  intros (before & after & ->). exists before, (after +:+ t).
  by rewrite !append_assoc'.
Qed.

Lemma reconstruct_loop_occurs (p : string) units : forall prev result,
  occurs_in p result \/ (exists u, u ∈ units /\ content u = p) ->
  occurs_in p (reconstruct_loop units prev result).
Proof.
  induction units as [|u rest IH]; intros prev result H; cbn [reconstruct_loop].
  - destruct H as [H|(u & Hu & _)]; [done|]. by apply elem_of_nil in Hu.
  - cbv zeta. apply IH.
    set (spacing := match prev with Some _ => _ | None => _ end).
    destruct H as [H|(v & Hv & Hc)].
    + left. rewrite <- !append_assoc'. by do 4 apply occurs_in_app_r.
    + apply elem_of_cons in Hv as [->|Hv]; [|right; by exists v].
      left. exists (result +:+ spacing +:+ prefix u), (suffix u).
      by rewrite Hc, !append_assoc'.
Qed.

(** X16.  [merge] leaves a conflict unresolved only under the strategy
    "defer": under every other strategy, the default "prefer-c" among them,
    the result has no conflict. *)
Theorem merge_conflicts_need_defer (a b c : string) (options : MergeOptions)
    (provider : EmbeddingProvider) (generateConflictId : nat -> string) :
  normalizeStrategy (conflictStrategy options) <> Defer ->
  match merge a b c options provider generateConflictId with
  | Ok result => conflicts result = [] /\ hasConflicts result = false
  | Throw _ => True
  end.
Proof.
  intros Hs. unfold merge.
  destruct (merge_state a b c options provider generateConflictId) as [st|] eqn:E;
    [|done].
  destruct (merge_state_inv _ _ _ _ _ _ _ E) as (_ & _ & _ & _ & Hnone).
  unfold hasConflicts. cbn [assemble conflicts]. by rewrite (Hnone Hs).
Qed.

Lemma merge_conflicts_need_defer_example :
  normalizeStrategy None <> Defer
  /\ exists result,
       merge "The quick fox." "The fast fox." "The slow fox."
         (mkMergeOptions None) constant_provider numbered_id = Ok result
       /\ conflicts result = [] /\ merged result = "The slow fox.".
Proof.
  assert (Hs : normalizeStrategy None <> Defer) by discriminate.
  split; [exact Hs|].
  pose proof (merge_conflicts_need_defer "The quick fox." "The fast fox."
                "The slow fox." (mkMergeOptions None) constant_provider
                numbered_id Hs) as H.
  destruct (merge "The quick fox." "The fast fox." "The slow fox."
              (mkMergeOptions None) constant_provider numbered_id)
    as [result|] eqn:E; [|vm_compute in E; discriminate].
  exists result. split; [reflexivity|]. split; [exact (proj1 H)|].
  apply (f_equal (fun r => match r with Ok x => merged x | Throw _ => "" end)) in E.
  rewrite <- E. vm_compute. reflexivity.
Defined.

(** X17.  The counters of [merge] against its lists: every unresolved
    conflict is counted in [stats.conflicts], every counted conflict is
    either still unresolved or has a resolution, and no resolution goes
    without a count in [stats.autoResolved]. *)
Theorem merge_accounting (a b c : string) (options : MergeOptions)
    (provider : EmbeddingProvider) (generateConflictId : nat -> string) :
  match merge a b c options provider generateConflictId with
  | Ok result =>
      length (conflicts result) <= stats_conflicts (stats result)
      /\ stats_conflicts (stats result)
         <= length (conflicts result) + length (resolutions result)
      /\ length (resolutions result) <= autoResolved (stats result)
  | Throw _ => True
  end.
Proof.
  unfold merge.
  destruct (merge_state a b c options provider generateConflictId) as [st|] eqn:E;
    [|done].
  destruct (merge_state_inv _ _ _ _ _ _ _ E) as (H1 & H2 & H3 & _).
  cbn [assemble conflicts resolutions stats]. done.
Qed.

(** X18.  Every conflict [merge] leaves unresolved has its marker block in
    the merged text, so that [resolveConflict] finds the block it is to
    replace. *)
Theorem merge_markers_in_text (a b c : string) (options : MergeOptions)
    (provider : EmbeddingProvider) (generateConflictId : nat -> string) :
  match merge a b c options provider generateConflictId with
  | Ok result =>
      Forall (fun conflict =>
                includes (formatConflictMarker conflict) (merged result) = true)
        (conflicts result)
  | Throw _ => True
  end.
Proof.
  unfold merge.
  destruct (merge_state a b c options provider generateConflictId) as [st|] eqn:E;
    [|done].
  destruct (merge_state_inv _ _ _ _ _ _ _ E) as (_ & _ & _ & Hmarks & _).
  cbn [assemble conflicts merged].
  eapply Forall_impl; [exact Hmarks|]. intros conflict (u & Hu & Hc).
  apply includes_occurs. unfold reconstruct. apply reconstruct_loop_occurs.
  right. exists u. split; [|done].
  by rewrite <- (stable_sort_Permutation unit_after (mergedUnits st)).
Qed.

Lemma merge_markers_in_text_example :
  exists result conflict,
    merge "The quick fox." "The fast fox." "The slow fox."
      (mkMergeOptions (Some Defer)) constant_provider numbered_id = Ok result
    /\ conflicts result = [conflict]
    /\ id conflict = "conflict-0"
    /\ includes (formatConflictMarker conflict) (merged result) = true.
Proof.
  pose proof (merge_markers_in_text "The quick fox." "The fast fox."
                "The slow fox." (mkMergeOptions (Some Defer)) constant_provider
                numbered_id) as H.
  destruct (merge "The quick fox." "The fast fox." "The slow fox."
              (mkMergeOptions (Some Defer)) constant_provider numbered_id)
    as [result|] eqn:E; [|vm_compute in E; discriminate].
  assert (Hc : conflicts result
               = [mkConflict "conflict-0" "The quick fox." "The fast fox."
                    "The slow fox." "" "" 1 1 0]).
  { apply (f_equal (fun r => match r with Ok x => conflicts x | Throw _ => [] end))
      in E. rewrite <- E. vm_compute. reflexivity. }
  exists result. eexists. split; [reflexivity|]. split; [exact Hc|].
  split; [reflexivity|].
  rewrite Hc in H. by apply Forall_inv in H.
Defined.

(** X19.  A conflict is resolved once: after [resolveConflict] has
    returned for an identifier, no conflict of the result has that
    identifier, and a second call for it throws. *)
Theorem resolveConflict_once (result result' : MergeResult)
    (conflictId text text' : string) :
  resolveConflict result conflictId text = Ok result' ->
  Forall (fun conflict => id conflict <> conflictId) (conflicts result')
  /\ resolveConflict result' conflictId text'
     = Throw ("Conflict not found: " +:+ conflictId).
Proof.
  unfold resolveConflict at 1.
  destruct (List.find _ (conflicts result)) as [conflict|]; [|done].
  cbv zeta. intros [= <-].
  assert (Hall : Forall (fun conflict => id conflict <> conflictId)
            (List.filter (fun c => negb (bool_decide (id c = conflictId)))
               (conflicts result))).
  { apply Forall_forall. intros x Hx.
    apply list_elem_of_In, filter_In in Hx as [_ Hx].
    apply negb_true_iff, bool_decide_eq_false in Hx. exact Hx. }
  split; [exact Hall|].
  unfold resolveConflict. cbn [conflicts].
  destruct (List.find _ _) as [conflict'|] eqn:Hfind; [|done].
  apply find_some in Hfind as [Hin Hid].
  apply bool_decide_eq_true in Hid.
  apply list_elem_of_In in Hin.
  by apply (proj1 (Forall_forall _ _) Hall) in Hin.
Qed.

Lemma resolveConflict_once_example :
  let conflict := mkConflict "c1" "a" "x" "y" "" "" 0 0 0 in
  let result :=
    mkMergeResult (formatConflictMarker conflict) [conflict] []
      (mkStats 0 0 0 0 1 0) in
  exists result',
    resolveConflict result "c1" "z" = Ok result'
    /\ resolveConflict result' "c1" "w" = Throw "Conflict not found: c1".
Proof.
  intros conflict result.
  eexists. split; [vm_compute; reflexivity|].
  refine (proj2 (resolveConflict_once result _ "c1" "z" "w" _)).
  vm_compute. reflexivity.
Defined.

End MergeStateProofs.

(** ** Word-level merge and LCS: proofs *)

Module WordMergeLaws.
Import JS WordMerge WordMergeProofs.

(** *** One side unchanged, or both sides alike *)

Lemma insertAfter_at_empty i : insertAfter_at ∅ i = [].
Proof. unfold insertAfter_at. by rewrite lookup_empty. Qed.

Lemma deleted_at_empty i : deleted_at ∅ i = false.
Proof. unfold deleted_at. by rewrite lookup_empty. Qed.

Lemma conflict_at_empty_l cm i : conflict_at ∅ cm i = false.
Proof. unfold conflict_at. by rewrite insertAfter_at_empty. Qed.

Lemma expected_from_empty_l cm l : forall i,
  expected_from ∅ cm i l = expected_from cm ∅ i l.
Proof.
  induction l as [|t l IH]; intros i; [done|].
  cbn [expected_from]. rewrite IH. f_equal; [|f_equal].
  - unfold kept_part. by rewrite deleted_at_empty, orb_false_r.
  - unfold inserted_part. cbv zeta. rewrite insertAfter_at_empty.
    unfold insertions_conflict. cbn [nonempty andb app].
    by rewrite andb_false_r, app_nil_r.
Qed.

(** X20.  Pass-through of the customised side: when B is the text of A,
    [wordMerge3Way a a c] returns C itself, with no conflict and no
    conflict range. *)
Theorem wordMerge3Way_passthrough_c (a c : string) :
  wordMerge3Way a a c = mkResult c false [].
Proof.
  destruct (wordMerge3Way_unfold a a c) as (-> & Hm & Hc & Hr & _).
  rewrite extract_changes_same in Hm, Hc, Hr.
  cbn [changes insertionAtStart app] in Hm, Hc, Hr.
  f_equal.
  - rewrite Hm, expected_from_empty_l, extract_changes_diff2.
    apply tokenize_join.
  - rewrite Hc. apply existsb_false. intros i. apply conflict_at_empty_l.
  - eapply ranges_nil_of_no_conflict; [|exact Hr].
    intros i _. apply conflict_at_empty_l.
Qed.

Lemma conflict_at_same bm i : conflict_at bm bm i = false.
Proof.
  unfold conflict_at, insertions_conflict.
  rewrite bool_decide_eq_true_2 by done. by rewrite andb_false_r.
Qed.

Lemma foldl_process_no_start ops : forall st,
  no_insert ops = true ->
  insertionAtStart (foldl process_op st ops) = insertionAtStart st.
Proof.
  induction ops as [|[ty toks] ops IH]; intros st Hno; [done|].
  cbn [no_insert forallb] in Hno. apply andb_true_iff in Hno as [Hty Hno].
  cbn [foldl]. rewrite IH by done.
  destruct ty; [| |done]; unfold process_op; cbn [op_type op_tokens]; [done|].
  by destruct (mark_deleted _ _ _).
Qed.

(** X21.  When both sides make the same change, [wordMerge3Way a b b] has
    no conflict, and it writes every insertion twice, once for each side;
    the result is [b] when the change only removes tokens. *)
Theorem wordMerge3Way_same_change (a b : string) :
  let tokensA := tokenize a in
  let abDiff := diff2 tokensA (tokenize b) in
  let bC := extract_changes abDiff in
  let r := wordMerge3Way a b b in
  hasConflict r = false
  /\ conflictRanges r = []
  /\ merged r
     = join (insertionAtStart bC ++ insertionAtStart bC ++
             concat (imap (fun i aToken =>
               (if bool_decide (i ∈ deleted_positions abDiff 0) then []
                else [aToken])
               ++ insertAfter_at (changes bC) i ++ insertAfter_at (changes bC) i)
               tokensA))
  /\ (no_insert abDiff = true -> merged r = b).
Proof.
  cbv zeta.
  destruct (wordMerge3Way_unfold a b b) as (-> & Hm & Hc & Hr & _).
  cbn [merged hasConflict conflictRanges].
  split; [|split; [|split]].
  - rewrite Hc. apply existsb_false. intros i. apply conflict_at_same.
  - eapply ranges_nil_of_no_conflict; [|exact Hr].
    intros i _. apply conflict_at_same.
  - rewrite Hm, expected_from_imap. do 3 f_equal.
    apply imap_concat_ext. intros i t _. cbn beta.
    unfold kept_part, inserted_part. cbv zeta.
    change (0 + i) with i.
    fold (conflict_at (changes (extract_changes (diff2 (tokenize a) (tokenize b))))
            (changes (extract_changes (diff2 (tokenize a) (tokenize b)))) i).
    rewrite conflict_at_same, extract_changes_deleted, orb_diag.
    reflexivity.
  - intros Hno. rewrite Hm.
    set (bC := extract_changes (diff2 (tokenize a) (tokenize b))).
    assert (HS : insertionAtStart bC = [])
      by (unfold bC, extract_changes; by rewrite foldl_process_no_start).
    assert (HE : forall l i,
              expected_from (changes bC) (changes bC) i l
              = expected_from (changes bC) ∅ i l).
    { induction l as [|t l IH]; intros i; [done|].
      cbn [expected_from]. rewrite IH. f_equal; [|f_equal].
      - unfold kept_part. by rewrite deleted_at_empty, orb_diag, orb_false_r.
      - unfold inserted_part. cbv zeta. unfold bC.
        rewrite !extract_changes_no_insert by done.
        by rewrite insertAfter_at_empty. }
    pose proof (extract_changes_diff2 (tokenize a) (tokenize b)) as Hd.
    cbv zeta in Hd. fold bC in Hd. rewrite HS in Hd |- *. cbn [app] in Hd |- *.
    rewrite HE, Hd. apply tokenize_join.
Qed.

Lemma wordMerge3Way_same_change_example :
  no_insert (diff2 (tokenize "Stay very calm") (tokenize "Stay calm")) = true
  /\ merged (wordMerge3Way "Stay very calm" "Stay calm" "Stay calm")
     = "Stay calm".
Proof.
  assert (H : no_insert (diff2 (tokenize "Stay very calm") (tokenize "Stay calm"))
              = true) by (vm_compute; reflexivity).
  split; [exact H|].
  destruct (wordMerge3Way_same_change "Stay very calm" "Stay calm")
    as (_ & _ & _ & Hb).
  exact (Hb H).
Defined.

(** Both sides replace "quick" by "fast": the word is written twice. *)
Lemma wordMerge3Way_same_change_doubles :
  wordMerge3Way "The quick fox" "The fast fox" "The fast fox"
  = mkResult "The fastfast fox" false [].
Proof. vm_compute. reflexivity. Qed.

(** X22.  The flag and the list of [wordMerge3Way] agree: [hasConflict]
    is set exactly when there is a conflict range, and
    [canMergeWithoutConflict] says that there is none. *)
Theorem wordMerge3Way_flag_and_ranges (a b c : string) :
  hasConflict (wordMerge3Way a b c) = nonempty (conflictRanges (wordMerge3Way a b c))
  /\ canMergeWithoutConflict a b c
     = negb (nonempty (conflictRanges (wordMerge3Way a b c))).
Proof.
  assert (H : hasConflict (wordMerge3Way a b c)
              = nonempty (conflictRanges (wordMerge3Way a b c))).
  { destruct (wordMerge3Way_unfold a b c) as (-> & _ & Hc & Hr & _).
    cbn [hasConflict conflictRanges]. rewrite Hc.
    assert (Hne : nonempty (st_ranges (merge_tokens (tokenize a) (tokenize b)
                                         (tokenize c)))
                  = nonempty (map range_contents
                      (st_ranges (merge_tokens (tokenize a) (tokenize b)
                                    (tokenize c)))))
      by (by destruct (st_ranges _)).
    rewrite Hne, Hr. clear.
    induction (seq 0 (length (tokenize a))) as [|i l IH]; [done|].
    cbn [existsb flat_map]. unfold conflict_contents at 1.
    destruct (conflict_at _ _ i); [done|]. exact IH. }
  split; [exact H|]. unfold canMergeWithoutConflict. by rewrite H.
Qed.

(** *** lcs returns a longest common subsequence *)

Lemma lcs_length_nil_r (x : list token) : lcs_length x [] = 0.
Proof. by destruct x. Qed.

Lemma lcs_length_cons (cx cy : token) (x y : list token) :
  lcs_length (cx :: x) (cy :: y)
  = if bool_decide (cx = cy) then S (lcs_length x y)
    else Nat.max (lcs_length x (cy :: y)) (lcs_length (cx :: x) y).
Proof. reflexivity. Qed.

(** No common subsequence is longer than [lcs_length]. *)
Lemma lcs_length_bound (x : list token) : forall y s,
  s `sublist_of` x -> s `sublist_of` y -> length s <= lcs_length x y.
Proof.
  induction x as [|cx x IHx]; intros y s Hx Hy.
  { apply sublist_nil_r in Hx as ->. cbn. lia. }
  induction y as [|cy y IHy].
  { apply sublist_nil_r in Hy as ->. cbn. lia. }
  rewrite lcs_length_cons.
  destruct s as [|t s]; [cbn; lia|].
  assert (Htail : forall k : list token, t :: s `sublist_of` k -> s `sublist_of` k).
  { intros k Hk. transitivity (t :: s); [by apply sublist_cons|exact Hk]. }
  apply sublist_cons_r in Hx as [Hx|(s' & Heq & Hx)].
  - pose proof (IHx (cy :: y) (t :: s) Hx Hy) as H.
    case_bool_decide as Hc; [|lia].
    apply sublist_cons_r in Hy as [Hy|(s' & Heq & Hy)].
    + pose proof (IHx y (t :: s) Hx Hy). lia.
    + simplify_eq. pose proof (IHx y s' (Htail _ Hx) Hy). cbn [length]. lia.
  - simplify_eq.
    apply sublist_cons_r in Hy as [Hy|(s'' & Heq & Hy)].
    + pose proof (IHy Hy) as H.
      case_bool_decide as Hc; [|lia].
      pose proof (IHx y s' Hx (Htail _ Hy)). cbn [length]. lia.
    + simplify_eq. rewrite bool_decide_eq_true_2 by done.
      pose proof (IHx y s'' Hx Hy). cbn [length]. lia.
Qed.

Lemma dp_row_of_lookup G rest : forall yb k,
  k <= length rest ->
  dp_row_of G yb rest !! k = Some (G (rev (take k rest) ++ yb)).
Proof.
  induction rest as [|t rest IH]; intros yb k Hk.
  - cbn [length] in Hk. assert (k = 0) as -> by lia. done.
  - destruct k as [|k]; [done|]. cbn [dp_row_of take rev]. rewrite lookup_cons.
    cbn [length] in Hk. rewrite IH by lia. by rewrite <- app_assoc.
Qed.

Lemma dp_row_of_zero rest : forall yb,
  dp_row_of (lcs_length []) yb rest = replicate (S (length rest)) 0.
Proof.
  induction rest as [|t rest IH]; intros yb; [done|].
  cbn [dp_row_of length]. rewrite IH. done.
Qed.

Lemma lcs_row_spec ai x rest : forall yb,
  lcs_row ai rest (dp_row_of (lcs_length x) yb rest) (lcs_length (ai :: x) yb)
  = tail (dp_row_of (lcs_length (ai :: x)) yb rest).
Proof.
  induction rest as [|bj rest IH]; intros yb; [done|].
  cbn [dp_row_of tail].
  assert (Hrow : dp_row_of (lcs_length x) (bj :: yb) rest
                 = lcs_length x (bj :: yb)
                   :: tail (dp_row_of (lcs_length x) (bj :: yb) rest))
    by (by destruct rest).
  rewrite Hrow. cbn [lcs_row]. cbv zeta. rewrite <- Hrow.
  assert (Hv : (if bool_decide (ai = bj) then lcs_length x yb + 1
                else Nat.max (lcs_length x (bj :: yb)) (lcs_length (ai :: x) yb))
               = lcs_length (ai :: x) (bj :: yb)).
  { rewrite lcs_length_cons. case_bool_decide; lia. }
  rewrite Hv, IH. by destruct rest.
Qed.

(** The rows of the table, one for every prefix of [a]. *)
Lemma lcs_rows_lookup b a : forall x i,
  i < length a ->
  lcs_rows a b (dp_row_of (lcs_length x) [] b) !! i
  = Some (dp_row_of (lcs_length (rev (take (S i) a) ++ x)) [] b).
Proof.
  induction a as [|ai a IH]; intros x i Hi; [cbn in Hi; lia|].
  cbn [lcs_rows]. cbv zeta.
  assert (Hrow : 0 :: lcs_row ai b (dp_row_of (lcs_length x) [] b) 0
                 = dp_row_of (lcs_length (ai :: x)) [] b).
  { pose proof (lcs_row_spec ai x b []) as H.
    rewrite lcs_length_nil_r in H. rewrite H. by destruct b. }
  rewrite Hrow. destruct i as [|i]; [done|].
  rewrite lookup_cons. cbn [length] in Hi. rewrite (IH (ai :: x)) by lia.
  cbn [take rev]. by rewrite <- !app_assoc.
Qed.

Lemma lcs_table_cell a b i j :
  i <= length a -> j <= length b ->
  dp_get (lcs_table a b) i j = lcs_length (rev (take i a)) (rev (take j b)).
Proof.
  intros Hi Hj. unfold dp_get, lcs_table. cbv zeta.
  rewrite <- (dp_row_of_zero b []).
  destruct i as [|i].
  - cbn [lookup list_lookup mbind option_bind take rev].
    rewrite dp_row_of_lookup by done. by rewrite app_nil_r.
  - rewrite lookup_cons, (lcs_rows_lookup b a []) by lia.
    cbn [mbind option_bind]. rewrite dp_row_of_lookup by done.
    by rewrite !app_nil_r.
Qed.

Lemma rev_take_S {A} (l : list A) (i : nat) (x : A) :
  l !! i = Some x -> rev (take (S i) l) = x :: rev (take i l).
Proof. intros H. by rewrite (take_S_r _ _ _ H), rev_app_distr. Qed.

Lemma lcs_backtrack_length a b fuel : forall i j result,
  i + j <= fuel -> i <= length a -> j <= length b ->
  length (lcs_backtrack fuel a b (lcs_table a b) i j result)
  = length result + lcs_length (rev (take i a)) (rev (take j b)).
Proof.
  induction fuel as [|fuel IH]; intros i j result Hf Hi Hj.
  { assert (i = 0) as -> by lia. assert (j = 0) as -> by lia.
    rewrite !take_0. cbn. lia. }
  destruct i as [|i]; [rewrite take_0; cbn; lia|].
  destruct j as [|j];
    [rewrite take_0; cbn [lcs_backtrack rev]; rewrite lcs_length_nil_r; lia|].
  cbn [lcs_backtrack].
  destruct (lookup_lt_is_Some_2 a i) as [x Hx]; [lia|].
  destruct (lookup_lt_is_Some_2 b j) as [y Hy]; [lia|].
  rewrite (rev_take_S a i x Hx), (rev_take_S b j y Hy), lcs_length_cons.
  rewrite Hx, Hy.
  destruct (decide (x = y)) as [->|Hne].
  - rewrite !bool_decide_eq_true_2 by done.
    rewrite IH by lia. cbn [length]. lia.
  - rewrite bool_decide_eq_false_2 by congruence.
    rewrite (bool_decide_eq_false_2 (x = y)) by done.
    rewrite !lcs_table_cell by lia.
    rewrite (rev_take_S a i x Hx), (rev_take_S b j y Hy).
    destruct (_ <? _)%nat eqn:E.
    + apply Nat.ltb_lt in E. rewrite IH by lia.
      rewrite (rev_take_S b j y Hy). lia.
    + apply Nat.ltb_ge in E. rewrite IH by lia.
      rewrite (rev_take_S a i x Hx). lia.
Qed.

Lemma sublist_rev' {A} (s l : list A) :
  s `sublist_of` l -> rev s `sublist_of` rev l.
Proof.
  induction 1 as [|x l1 l2 H IH|x l1 l2 H IH]; cbn [rev]; [done| |].
  - by apply sublist_app.
  - by apply sublist_inserts_r.
Qed.

(** X23.  [lcs] returns a longest common subsequence: what it returns is a
    subsequence of both arrays, and no common subsequence is longer. *)
Theorem lcs_longest (a b s : list token) :
  lcs a b `sublist_of` a /\ lcs a b `sublist_of` b
  /\ (s `sublist_of` a -> s `sublist_of` b -> length s <= length (lcs a b)).
Proof.
  destruct (lcs_sublist a b) as [Ha Hb].
  split; [done|]. split; [done|]. intros Hsa Hsb.
  unfold lcs. cbv zeta. rewrite lcs_backtrack_length by lia.
  rewrite !firstn_all. cbn [length].
  rewrite <- length_rev.
  apply lcs_length_bound; by apply sublist_rev'.
Qed.

(** *** Words and separators alternate in the tokens of a text *)

Lemma is_word_append (s t : string) :
  truthy s = true -> is_word (s +:+ t) = is_word s.
Proof. destruct s as [|c s]; [done|]. intros _. by rewrite append_cons. Qed.

Section Alternation.

Let alternate (l : list token) : Prop :=
  forall i t t', l !! i = Some t -> l !! (S i) = Some t' ->
    is_word t' = negb (is_word t).

Let tokens_inv (tokens : list token) (current : string) (inWord : bool) : Prop :=
  alternate tokens
  /\ if truthy current
     then is_word current = inWord
          /\ forall t, last tokens = Some t -> is_word t = negb inWord
     else tokens = [] /\ inWord = false.

Lemma alternate_snoc tokens current inWord :
  alternate tokens ->
  (forall t, last tokens = Some t -> is_word t = negb inWord) ->
  is_word current = inWord ->
  alternate (tokens ++ [current]).
Proof.
  intros Halt Hlast Hcur i t t' Hi Hi'.
  destruct (decide (S i < length tokens)) as [Hlt|Hge].
  - rewrite lookup_app_l in Hi by lia. rewrite lookup_app_l in Hi' by lia.
    by apply (Halt i).
  - assert (Hlen : S i = length tokens).
    { apply lookup_lt_Some in Hi'. rewrite length_app in Hi'. cbn in Hi'. lia. }
    rewrite lookup_app_l in Hi by lia.
    rewrite lookup_app_r in Hi' by lia.
    replace (S i - length tokens) with 0 in Hi' by lia.
    injection Hi' as <-.
    assert (Hl : last tokens = Some t).
    { rewrite last_lookup. rewrite <- Hlen. exact Hi. }
    rewrite (Hlast t Hl), Hcur. by destruct inWord.
Qed.

Lemma inv_push tokens current inWord :
  tokens_inv tokens current inWord ->
  alternate (push_truthy tokens current)
  /\ forall t, last (push_truthy tokens current) = Some t ->
       is_word t = inWord.
Proof.
  intros [Halt Hcur]. unfold push_truthy.
  destruct (truthy current).
  - destruct Hcur as [Hw Hlast]. split; [by eapply alternate_snoc|].
    intros t. rewrite last_snoc. by intros [= <-].
  - destruct Hcur as [-> ->]. split; [done|]. by intros t.
Qed.

Lemma tokenize_loop_alternate text : forall tokens current inWord,
  tokens_inv tokens current inWord ->
  alternate (tokenize_loop text tokens current inWord).
Proof.
  induction text as [|c rest IH]; intros tokens current inWord Hinv;
    cbn [tokenize_loop].
  { by apply (inv_push tokens current inWord). }
  cbv zeta.
  destruct (inv_push tokens current inWord Hinv) as [Hpush Hlast].
  destruct (isWordChar c) eqn:Hc, inWord; cbn [negb andb].
  - (* a word goes on *)
    apply IH. destruct Hinv as [Halt Hcur]. split; [done|].
    destruct (truthy current) eqn:Ht; [|by destruct Hcur].
    destruct current as [|d current]; [done|].
    rewrite append_cons. cbn [truthy]. done.
  - (* a word starts *)
    apply IH. split; [done|]. cbn [truthy char is_word]. split; [done|].
    intros t Ht. by rewrite (Hlast t Ht).
  - (* a word ends *)
    apply IH. split; [done|]. cbn [truthy char is_word]. split; [done|].
    intros t Ht. by rewrite (Hlast t Ht).
  - (* a separator goes on *)
    apply IH. destruct Hinv as [Halt Hcur]. split; [done|].
    destruct current as [|d current].
    + destruct Hcur as [-> _]. rewrite append_nil_l.
      cbn [truthy char is_word]. split; [done|]. by intros t.
    + rewrite append_cons. cbn [truthy]. done.
Qed.

Lemma tokenize_alternate (text : string) (i : nat) (t t' : token) :
  tokenize text !! i = Some t -> tokenize text !! (S i) = Some t' ->
  is_word t' = negb (is_word t).
Proof.
  apply (tokenize_loop_alternate text [] "" false). split; [|done].
  intros k u u' Hk. by rewrite lookup_nil in Hk.
Qed.

End Alternation.

(** *** Token arrays that differ by replacements *)

Lemma sublist_full {A} (l k : list A) :
  l `sublist_of` k -> length k <= length l -> l = k.
Proof.
  induction 1 as [|x l k H IH|x l k H IH]; cbn [length]; intros Hlen.
  - done.
  - f_equal. apply IH. lia.
  - apply sublist_length in H. lia.
Qed.

Lemma common_tokens_cons (x y : token) (xs ys : list token) :
  common_tokens (x :: xs) (y :: ys)
  = if bool_decide (x = y) then x :: common_tokens xs ys
    else common_tokens xs ys.
Proof.
  unfold common_tokens. cbn [zip zip_with]. rewrite filter_cons. cbn [fst snd].
  case_bool_decide.
  - by rewrite decide_True by done.
  - by rewrite decide_False by done.
Qed.

Lemma common_tokens_nil_r (xs : list token) : common_tokens xs [] = [].
Proof. by destruct xs. Qed.

Lemma common_tokens_sublist (xs : list token) : forall ys,
  common_tokens xs ys `sublist_of` xs /\ common_tokens xs ys `sublist_of` ys.
Proof.
  induction xs as [|x xs IH]; intros ys; [split; [done|apply sublist_nil_l]|].
  destruct ys as [|y ys]; [split; apply sublist_nil_l|].
  rewrite common_tokens_cons. destruct (IH ys) as [H1 H2].
  case_bool_decide as Heq.
  - subst y. split; by apply sublist_skip.
  - split; by apply sublist_cons.
Qed.

Lemma common_tokens_length (xs : list token) : forall ys,
  length (common_tokens xs ys) <= length xs.
Proof. intros ys. apply sublist_length, common_tokens_sublist. Qed.

Lemma common_tokens_all (xs : list token) : forall ys,
  length xs = length ys -> length (common_tokens xs ys) = length xs -> xs = ys.
Proof.
  induction xs as [|x xs IH]; intros [|y ys] Hlen Hall; try done.
  rewrite common_tokens_cons in Hall. cbn [length] in Hlen, Hall.
  case_bool_decide as Heq.
  - subst y. f_equal. apply IH; [lia|]. cbn [length] in Hall. lia.
  - pose proof (common_tokens_length xs ys). lia.
Qed.

(** The positions that changed and the tokens that stayed make up the
    array. *)
Lemma filter_seq_S (P : nat -> Prop) `{!forall i, Decision (P i)} n : forall j,
  filter P (seq (S j) n) = S <$> filter (fun i => P (S i)) (seq j n).
Proof.
  induction n as [|n IH]; intros j; [done|].
  cbn [seq]. rewrite !filter_cons, IH.
  destruct (decide (P (S j))); done.
Qed.

Lemma sublist_tail {A} (x : A) (l k : list A) :
  x :: l `sublist_of` k -> l `sublist_of` k.
Proof. intros H. etrans; [|exact H]. by apply sublist_cons. Qed.

Lemma changed_positions_cons (x y : token) (xs ys : list token) :
  changed_positions (x :: xs) (y :: ys)
  = (if bool_decide (x = y) then [] else [0])
    ++ (S <$> changed_positions xs ys).
Proof.
  unfold changed_positions. cbn [length seq]. rewrite filter_cons.
  rewrite filter_seq_S.
  change ((x :: xs) !! 0) with (Some x). change ((y :: ys) !! 0) with (Some y).
  case_bool_decide as Heq.
  - subst y. by rewrite decide_False by (intros Hn; by apply Hn).
  - by rewrite decide_True by congruence.
Qed.

Lemma changed_common_length (xs : list token) : forall ys,
  length xs = length ys ->
  length (changed_positions xs ys) + length (common_tokens xs ys) = length xs.
Proof.
  induction xs as [|x xs IH]; intros [|y ys] Hlen; try done.
  rewrite changed_positions_cons, common_tokens_cons, length_app, length_fmap.
  cbn [length] in Hlen. specialize (IH ys ltac:(lia)).
  case_bool_decide; cbn [length]; lia.
Qed.

Lemma elem_of_changed_positions (xs ys : list token) (i : nat) :
  i ∈ changed_positions xs ys <-> i < length xs /\ xs !! i <> ys !! i.
Proof.
  unfold changed_positions. rewrite list_elem_of_filter, elem_of_seq.
  split; intros [H1 H2]; (split; [done || lia|done || lia]).
Qed.

(** A common subsequence that misses one token only, of two arrays that
    differ in one place, is the tokens they have in common. *)
Lemma common_unique_single (xs : list token) : forall ys l,
  length xs = length ys ->
  length (common_tokens xs ys) + 1 = length xs ->
  l `sublist_of` xs -> l `sublist_of` ys ->
  length xs <= length l + 1 ->
  l = common_tokens xs ys.
Proof.
  induction xs as [|x xs IH]; intros [|y ys] l Hlen Hone Hx Hy Hl; try done.
  rewrite common_tokens_cons in Hone |- *. cbn [length] in Hlen, Hone, Hl.
  case_bool_decide as Heq.
  - subst y. cbn [length] in Hone.
    apply sublist_cons_r in Hx as [Hx|(l' & -> & Hx)].
    + (* [l] is within both tails: they would be equal *)
      apply sublist_cons_r in Hy as [Hy|(l' & -> & Hy)].
      * assert (l = xs) as -> by (apply sublist_full; [done|lia]).
        assert (xs = ys) as <- by (apply sublist_full; [done|lia]).
        assert (Hc : common_tokens xs xs = xs).
        { apply sublist_full; [apply common_tokens_sublist|].
          clear. induction xs as [|z xs IH]; [done|].
          rewrite common_tokens_cons, bool_decide_eq_true_2 by done.
          cbn [length]. lia. }
        rewrite Hc in Hone. lia.
      * f_equal. apply IH; [lia|lia| |done|cbn [length] in Hl; lia].
        by eapply sublist_tail.
    + f_equal. apply IH; [lia|lia|done| |cbn [length] in Hl; lia].
      apply sublist_cons_r in Hy as [Hy|(l'' & [= <-] & Hy)]; [|done].
      by eapply sublist_tail.
  - (* the one place that differs is the first *)
    assert (xs = ys) as <-.
    { apply common_tokens_all; [lia|].
      pose proof (common_tokens_length xs ys). lia. }
    assert (Hc : common_tokens xs xs = xs).
    { apply sublist_full; [apply common_tokens_sublist|lia]. }
    rewrite Hc.
    apply sublist_cons_r in Hx as [Hx|(l' & -> & Hx)].
    + apply sublist_full; [done|lia].
    + apply sublist_cons_r in Hy as [Hy|(l'' & [= <- <-] & Hy)]; [|done].
      apply sublist_full; [done|]. lia.
Qed.

(** A common subsequence avoids the tokens one array alone has. *)
Lemma sublist_common (P : token -> Prop) (xs : list token) : forall ys l,
  (forall i x y, xs !! i = Some x -> ys !! i = Some y -> x <> y -> ~ P y) ->
  length xs = length ys ->
  l `sublist_of` ys -> Forall P l ->
  l `sublist_of` common_tokens xs ys.
Proof.
  induction xs as [|x xs IH]; intros [|y ys] l Hfresh Hlen Hy HP; try done.
  rewrite common_tokens_cons.
  assert (Hfresh' : forall i x' y', xs !! i = Some x' -> ys !! i = Some y' ->
            x' <> y' -> ~ P y')
    by (intros i; apply (Hfresh (S i))).
  cbn [length] in Hlen.
  apply sublist_cons_r in Hy as [Hy|(l' & -> & Hy)].
  - specialize (IH ys l Hfresh' ltac:(lia) Hy HP).
    case_bool_decide; [by apply sublist_cons|done].
  - apply Forall_cons in HP as [HPy HP].
    case_bool_decide as Heq.
    + subst y. apply sublist_skip. apply IH; (done || lia).
    + exfalso. by apply (Hfresh 0 x y).
Qed.

Lemma lcs_length_lcs (a b : list token) :
  length (lcs a b) = lcs_length (rev a) (rev b).
Proof.
  unfold lcs. cbv zeta. rewrite lcs_backtrack_length by lia.
  by rewrite !firstn_all.
Qed.

Lemma lcs_not_shorter (a b s : list token) :
  s `sublist_of` a -> s `sublist_of` b -> length s <= length (lcs a b).
Proof.
  intros Ha Hb. rewrite lcs_length_lcs, <- length_rev.
  apply lcs_length_bound; by apply sublist_rev'.
Qed.

(** [lcs] returns the tokens the two arrays have in common place by place,
    when one token only was replaced, or when the replacing tokens occur
    nowhere in the first array. *)
Lemma lcs_common_tokens (xs ys : list token) :
  length xs = length ys ->
  length (changed_positions xs ys) = 1
  \/ (forall i y, i ∈ changed_positions xs ys -> ys !! i = Some y -> y ∉ xs) ->
  lcs xs ys = common_tokens xs ys.
Proof.
  intros Hlen Hcase.
  destruct (lcs_sublist xs ys) as [Hx Hy].
  destruct (common_tokens_sublist xs ys) as [Hcx Hcy].
  pose proof (lcs_not_shorter xs ys _ Hcx Hcy) as Hlong.
  pose proof (changed_common_length xs ys Hlen) as Hsum.
  destruct Hcase as [Hone|Hfresh].
  - apply common_unique_single; [done|lia|done|done|lia].
  - apply sublist_full; [|done].
    apply (sublist_common (fun t => t ∈ xs)); [|done|done|].
    + intros i x y Hix Hiy Hne. apply (Hfresh i y); [|done].
      apply elem_of_changed_positions. split.
      * by apply lookup_lt_Some in Hix.
      * rewrite Hix, Hiy. congruence.
    + apply Forall_forall. intros t Ht. exact (sublist_subseteq _ _ Hx t Ht).
Qed.

(** *** The diff of two arrays that differ by isolated replacements *)

Lemma replace_script_cons (x y : token) (xs ys : list token) :
  replace_script (x :: xs) (y :: ys)
  = (if bool_decide (x = y) then [mkDiffOp Keep [x]]
     else [mkDiffOp Delete [x]; mkDiffOp Insert [y]])
    ++ replace_script xs ys.
Proof. reflexivity. Qed.

Lemma collect_head (c : token) (xs : list token) :
  collect (Some c) (c :: xs) = ([], c :: xs).
Proof. cbn [collect]. by rewrite bool_decide_eq_true_2 by done. Qed.

Lemma collect_one (c x : token) (xs : list token) :
  x <> c -> collect (Some c) (x :: c :: xs) = ([x], c :: xs).
Proof.
  intros Hne. cbn [collect].
  rewrite bool_decide_eq_false_2 by congruence.
  by rewrite bool_decide_eq_true_2 by done.
Qed.

(** When every replaced token is followed by a token that stayed and that
    differs from the old and from the new token, the walk of [diff2] over
    the common tokens replaces token by token. *)
Lemma diff2_loop_replace (xs : list token) : forall ys,
  length xs = length ys ->
  (forall i x y x', xs !! i = Some x -> ys !! i = Some y -> x <> y ->
     xs !! (S i) = Some x' -> ys !! (S i) = Some x' /\ x <> x' /\ y <> x') ->
  diff2_loop xs ys (common_tokens xs ys) = replace_script xs ys.
Proof.
  induction xs as [|x xs IH]; intros [|y ys] Hlen Hnext; try done.
  assert (Hnext' : forall i x0 y0 x', xs !! i = Some x0 -> ys !! i = Some y0 ->
            x0 <> y0 -> xs !! (S i) = Some x' ->
            ys !! (S i) = Some x' /\ x0 <> x' /\ y0 <> x')
    by (intros i; apply (Hnext (S i))).
  cbn [length] in Hlen.
  specialize (IH ys ltac:(lia) Hnext').
  rewrite common_tokens_cons, replace_script_cons.
  case_bool_decide as Heq.
  - subst y.
    rewrite (diff2_loop_cons_common _ _ x _ [] xs [] ys)
      by apply collect_head.
    cbn [op_if_nonempty app]. by rewrite IH.
  - destruct xs as [|x' xs].
    + destruct ys; [|done]. by rewrite diff2_loop_nil_common.
    + destruct ys as [|y' ys]; [done|].
      destruct (Hnext 0 x y x') as (Hy' & Hx & Hy); [done..|].
      injection Hy' as ->.
      rewrite <- IH.
      rewrite common_tokens_cons, bool_decide_eq_true_2 by done.
      rewrite (diff2_loop_cons_common _ _ x' _ [x] xs [y] ys)
        by (by apply collect_one).
      rewrite (diff2_loop_cons_common _ _ x' _ [] xs [] ys)
        by apply collect_head.
      done.
Qed.

(** What [extract_changes] records for such a script: every replaced token
    is deleted, and its replacement is the insertion after it. *)
Lemma foldl_process_replace (xs : list token) : forall ys st,
  exists m',
    foldl process_op st (replace_script xs ys)
    = mkChanges (aIdx st + length (zip xs ys)) m' (insertionAtStart st)
    /\ forall k,
         m' !! k
         = match (if decide (aIdx st <= k) then zip xs ys !! (k - aIdx st)
                  else None) with
           | Some (x, y) =>
               if bool_decide (x = y) then changes st !! k
               else Some (mkChange true (Some [y]))
           | None => changes st !! k
           end.
Proof.
  induction xs as [|x xs IH]; intros ys st.
  { exists (changes st). split.
    - destruct st. cbn. f_equal. lia.
    - intros k. by destruct (decide _). }
  destruct ys as [|y ys].
  { exists (changes st). split.
    - destruct st. cbn. f_equal. lia.
    - intros k. by destruct (decide _). }
  rewrite replace_script_cons. cbn [zip zip_with length].
  case_bool_decide as Heq.
  - subst y. cbn [app foldl].
    destruct (IH ys (process_op st (mkDiffOp Keep [x]))) as (m' & -> & Hm').
    exists m'. split.
    + cbn. f_equal. lia.
    + intros k. rewrite Hm'. cbn [process_op op_type op_tokens aIdx changes length].
      destruct (decide (aIdx st + 1 <= k)) as [Hk|Hk].
      * rewrite decide_True by lia.
        replace (k - aIdx st) with (S (k - (aIdx st + 1))) by lia. done.
      * destruct (decide (aIdx st <= k)) as [Hk'|Hk']; [|done].
        replace (k - aIdx st) with 0 by lia. cbn.
        by rewrite bool_decide_eq_true_2 by done.
  - cbn [app foldl].
    set (st2 := process_op (process_op st (mkDiffOp Delete [x]))
                  (mkDiffOp Insert [y])).
    assert (Hst2 : st2 = mkChanges (S (aIdx st))
              (<[aIdx st := mkChange true (Some [y])]>
                 (<[aIdx st := mkChange true None]> (changes st)))
              (insertionAtStart st)).
    { unfold st2. cbn [process_op op_type op_tokens length mark_deleted aIdx
                       changes insertionAtStart].
      cbn [Nat.eqb andb Nat.ltb Nat.leb].
      replace (S (aIdx st) - 1) with (aIdx st) by lia.
      rewrite lookup_insert_eq. done. }
    destruct (IH ys st2) as (m' & -> & Hm').
    exists m'. split.
    + rewrite Hst2. cbn. f_equal. lia.
    + intros k. rewrite Hm', Hst2. cbn [aIdx changes].
      destruct (decide (S (aIdx st) <= k)) as [Hk|Hk].
      * rewrite decide_True by lia.
        replace (k - aIdx st) with (S (k - S (aIdx st))) by lia. cbn.
        rewrite !lookup_insert_ne by lia. done.
      * destruct (decide (aIdx st <= k)) as [Hk'|Hk'].
        -- assert (k = aIdx st) as -> by lia.
           rewrite Nat.sub_diag. cbn.
           rewrite bool_decide_eq_false_2 by done.
           by rewrite lookup_insert_eq.
        -- rewrite !lookup_insert_ne by lia. done.
Qed.

(** *** One side of the merge *)

Lemma zip_lookup_Some {A B} (xs : list A) (ys : list B) k x y :
  xs !! k = Some x -> ys !! k = Some y -> zip xs ys !! k = Some (x, y).
Proof.
  revert ys k. induction xs as [|x0 xs IH]; intros [|y0 ys] [|k]; try done.
  - by intros [= ->] [= ->].
  - cbn. apply IH.
Qed.

(** The change map of a side that replaces words of [a] by words, one word
    only or by words that [a] does not have. *)
Lemma replaced_words_changes (a b : string) :
  let xs := tokenize a in
  let ys := tokenize b in
  length ys = length xs ->
  (forall i, i ∈ changed_positions xs ys ->
     (exists t, xs !! i = Some t /\ is_word t = true)
     /\ (exists t, ys !! i = Some t /\ is_word t = true)) ->
  single_or_fresh a b = true ->
  exists m,
    extract_changes (diff2 xs ys) = mkChanges (length xs) m []
    /\ forall k x y, xs !! k = Some x -> ys !! k = Some y ->
         m !! k = if bool_decide (x = y) then None
                  else Some (mkChange true (Some [y])).
Proof.
  intros xs ys Hlen Hwords Hcase.
  assert (Hlcs : lcs xs ys = common_tokens xs ys).
  { apply lcs_common_tokens; [done|].
    unfold single_or_fresh in Hcase. cbv zeta in Hcase. fold xs ys in Hcase.
    apply orb_prop in Hcase as [Hone|Hfresh].
    - left. by apply Nat.eqb_eq in Hone.
    - right. intros i y Hi Hy.
      rewrite forallb_forall in Hfresh.
      specialize (Hfresh i ltac:(by apply list_elem_of_In)).
      rewrite Hy in Hfresh. apply negb_true_iff in Hfresh.
      by apply bool_decide_eq_false in Hfresh. }
  assert (Hscript : diff2 xs ys = replace_script xs ys).
  { unfold diff2. rewrite Hlcs. apply diff2_loop_replace; [done|].
    intros i x y x' Hx Hy Hne Hx'.
    assert (Hi : i ∈ changed_positions xs ys).
    { apply elem_of_changed_positions. split; [by apply lookup_lt_Some in Hx|].
      rewrite Hx, Hy. congruence. }
    destruct (Hwords i Hi) as [(t & Ht & Hwx) (t' & Ht' & Hwy)].
    rewrite Hx in Ht. injection Ht as <-.
    rewrite Hy in Ht'. injection Ht' as <-.
    pose proof (tokenize_alternate a i x x' Hx Hx') as Halt.
    rewrite Hwx in Halt. cbn in Halt.
    assert (Hsame : ys !! (S i) = Some x').
    { destruct (decide (ys !! (S i) = Some x')) as [|Hdiff]; [done|].
      assert (HSi : S i ∈ changed_positions xs ys).
      { apply elem_of_changed_positions.
        split; [by apply lookup_lt_Some in Hx'|]. rewrite Hx'. congruence. }
      destruct (Hwords (S i) HSi) as [(t & Ht & Hw) _].
      rewrite Hx' in Ht. injection Ht as <-. congruence. }
    split; [done|]. split; intros ->; congruence. }
  destruct (foldl_process_replace xs ys (mkChanges 0 ∅ [])) as (m & Hm & Hlookup).
  exists m. split.
  - unfold extract_changes. rewrite Hscript, Hm. cbn [aIdx insertionAtStart].
    rewrite length_zip. f_equal. lia.
  - intros k x y Hx Hy. rewrite Hlookup. cbn [aIdx changes].
    rewrite decide_True by lia. rewrite Nat.sub_0_r.
    rewrite (zip_lookup_Some xs ys k x y Hx Hy).
    by rewrite lookup_empty.
Qed.

Lemma concat_imap_singleton {A B} (g : nat -> A -> list B) (f : nat -> A -> B)
    (l : list A) :
  (forall i x, l !! i = Some x -> g i x = [f i x]) ->
  concat (imap g l) = imap f l.
Proof.
  revert g f. induction l as [|x l IH]; intros g f H; [done|].
  cbn [imap concat]. rewrite (H 0 x eq_refl). cbn [app]. f_equal.
  apply IH. intros i y Hy. by apply (H (S i)).
Qed.

(** C2, as the code has it.  When B and C keep the number of tokens of A
    and replace words by words, at different positions, and each side
    either replaces one word only or puts in nothing but words that do not
    occur in A, the merge has no conflict and no conflict range, and its
    text is the text of A with every replaced word replaced. *)
Theorem wordMerge3Way_replaced_words (a b c : string) :
  change_disjoint_words a b c = true ->
  single_or_fresh a b = true ->
  single_or_fresh a c = true ->
  let tokensA := tokenize a in
  let tokensB := tokenize b in
  let tokensC := tokenize c in
  hasConflict (wordMerge3Way a b c) = false
  /\ conflictRanges (wordMerge3Way a b c) = []
  /\ merged (wordMerge3Way a b c)
     = join (imap (fun i aToken =>
                     if bool_decide (tokensB !! i = Some aToken)
                     then default aToken (tokensC !! i)
                     else default aToken (tokensB !! i)) tokensA).
Proof.
  intros Hdisjoint HcaseB HcaseC tokensA tokensB tokensC.
  unfold change_disjoint_words in Hdisjoint. cbv zeta in Hdisjoint.
  fold tokensA tokensB tokensC in Hdisjoint.
  apply andb_prop in Hdisjoint as [Hdisjoint Hapart].
  apply andb_prop in Hdisjoint as [Hdisjoint HwordsC].
  apply andb_prop in Hdisjoint as [Hdisjoint HwordsB].
  apply andb_prop in Hdisjoint as [Hdisjoint _].
  apply andb_prop in Hdisjoint as [Hdisjoint _].
  apply andb_prop in Hdisjoint as [HlenB HlenC].
  apply Nat.eqb_eq in HlenB, HlenC.
  assert (Hwords : forall (ys : list token),
            forallb (fun i =>
              match tokensA !! i with Some t => is_word t | None => false end
              && match ys !! i with Some t => is_word t | None => false end)
              (changed_positions tokensA ys) = true ->
            forall i, i ∈ changed_positions tokensA ys ->
              (exists t, tokensA !! i = Some t /\ is_word t = true)
              /\ (exists t, ys !! i = Some t /\ is_word t = true)).
  { intros ys Hall i Hi. rewrite forallb_forall in Hall.
    specialize (Hall i ltac:(by apply list_elem_of_In)).
    apply andb_prop in Hall as [Hw1 Hw2].
    destruct (tokensA !! i) as [t|]; [|done].
    destruct (ys !! i) as [t'|]; [|done]. split; by eexists. }
  destruct (replaced_words_changes a b HlenB (Hwords tokensB HwordsB) HcaseB)
    as (bm & HbC & Hbm).
  destruct (replaced_words_changes a c HlenC (Hwords tokensC HwordsC) HcaseC)
    as (cm & HcC & Hcm).
  fold tokensA tokensB in HbC, Hbm. fold tokensA tokensC in HcC, Hcm.
  (* at every position one side at least has the token of A *)
  assert (Hone : forall i t y z, tokensA !! i = Some t ->
            tokensB !! i = Some y -> tokensC !! i = Some z -> y = t \/ z = t).
  { intros i t y z Ht Hy Hz.
    destruct (decide (y = t)) as [|Hy']; [by left|]. right.
    destruct (decide (z = t)) as [|Hz']; [done|]. exfalso.
    rewrite forallb_forall in Hapart.
    assert (Hi : i ∈ changed_positions tokensA tokensB).
    { apply elem_of_changed_positions. split; [by apply lookup_lt_Some in Ht|].
      rewrite Ht, Hy. congruence. }
    specialize (Hapart i ltac:(by apply list_elem_of_In)).
    apply negb_true_iff, bool_decide_eq_false in Hapart. apply Hapart.
    apply elem_of_changed_positions. split; [by apply lookup_lt_Some in Ht|].
    rewrite Ht, Hz. congruence. }
  assert (Hboth : forall i t, tokensA !! i = Some t ->
            exists y z, tokensB !! i = Some y /\ tokensC !! i = Some z).
  { intros i t Ht. apply lookup_lt_Some in Ht.
    destruct (lookup_lt_is_Some_2 tokensB i) as [y Hy]; [lia|].
    destruct (lookup_lt_is_Some_2 tokensC i) as [z Hz]; [lia|].
    by exists y, z. }
  assert (Hafter : forall (m : gmap nat ChangeInfo) i (x y : token),
            m !! i = (if bool_decide (x = y) then None
                      else Some (mkChange true (Some [y]))) ->
            insertAfter_at m i = (if bool_decide (x = y) then [] else [y])
            /\ deleted_at m i = negb (bool_decide (x = y))).
  { intros m i x y Hm. unfold insertAfter_at, deleted_at. rewrite Hm.
    by case_bool_decide. }
  assert (Hquiet : forall i, conflict_at bm cm i = false).
  { intros i. unfold conflict_at, insertions_conflict.
    destruct (tokensA !! i) as [t|] eqn:Ht.
    - destruct (Hboth i t Ht) as (y & z & Hy & Hz).
      destruct (Hafter bm i t y (Hbm i t y Ht Hy)) as [-> _].
      destruct (Hafter cm i t z (Hcm i t z Ht Hz)) as [-> _].
      destruct (Hone i t y z Ht Hy Hz) as [-> | ->].
      + by rewrite bool_decide_eq_true_2 by done.
      + rewrite (bool_decide_eq_true_2 (t = t)) by done.
        cbn [nonempty]. by rewrite andb_false_r.
    - apply lookup_ge_None in Ht.
      assert (Hnone : insertAfter_at bm i = []).
      { unfold insertAfter_at.
        assert (Hfresh : changes (extract_changes (diff2 tokensA tokensB)) !! i
                         = None).
        { cut (tracks (extract_changes (diff2 tokensA tokensB)) tokensA).
          { intros [Hidx Hno]. apply Hno. rewrite Hidx. lia. }
          unfold extract_changes.
          destruct (extract_changes_rendered (diff2 tokensA tokensB) false
                      (mkChanges 0 ∅ []) [])
            as [Htr _].
          - apply well_shaped_diff2.
          - split; [done|]. intros k _. apply lookup_empty.
          - intros _. split; [done|]. intros k Hk. cbn in Hk. lia.
          - cbn [app] in Htr.
            by rewrite (proj1 (diff2_spec tokensA tokensB)) in Htr. }
        rewrite HbC in Hfresh. cbn [changes] in Hfresh. by rewrite Hfresh. }
      rewrite Hnone. done. }
  destruct (wordMerge3Way_unfold a b c) as (-> & Hmerged & Hconflict & Hranges & _).
  fold tokensA tokensB tokensC in Hmerged, Hconflict, Hranges.
  rewrite HbC, HcC in Hmerged, Hconflict, Hranges.
  cbn [changes insertionAtStart app] in Hmerged, Hconflict, Hranges.
  cbn [hasConflict conflictRanges merged]. fold tokensA tokensB tokensC.
  split; [|split].
  - rewrite Hconflict. by apply existsb_false.
  - eapply ranges_nil_of_no_conflict; [|exact Hranges]. intros i _. apply Hquiet.
  - rewrite Hmerged, expected_from_imap. f_equal.
    apply concat_imap_singleton. intros i t Ht. cbn [Nat.add].
    destruct (Hboth i t Ht) as (y & z & Hy & Hz).
    unfold kept_part, inserted_part.
    fold (conflict_at bm cm i). rewrite Hquiet.
    destruct (Hafter bm i t y (Hbm i t y Ht Hy)) as [-> ->].
    destruct (Hafter cm i t z (Hcm i t z Ht Hz)) as [-> ->].
    rewrite Hy, Hz. cbn [default].
    destruct (Hone i t y z Ht Hy Hz) as [-> | ->];
      repeat case_bool_decide; simplify_eq; cbn; (reflexivity || congruence).
Qed.

(** The sentence of the specification: "quick" becomes "fast" on one side,
    "brown" becomes "red" on the other, and the merge has both. *)
Lemma wordMerge3Way_replaced_words_fox :
  change_disjoint_words "The quick brown fox" "The fast brown fox"
    "The quick red fox" = true
  /\ single_or_fresh "The quick brown fox" "The fast brown fox" = true
  /\ single_or_fresh "The quick brown fox" "The quick red fox" = true
  /\ hasConflict (wordMerge3Way "The quick brown fox" "The fast brown fox"
                    "The quick red fox") = false
  /\ conflictRanges (wordMerge3Way "The quick brown fox" "The fast brown fox"
                       "The quick red fox") = []
  /\ merged (wordMerge3Way "The quick brown fox" "The fast brown fox"
               "The quick red fox") = "The fast red fox".
Proof.
  assert (H1 : change_disjoint_words "The quick brown fox" "The fast brown fox"
                 "The quick red fox" = true) by (vm_compute; reflexivity).
  assert (H2 : single_or_fresh "The quick brown fox" "The fast brown fox" = true)
    by (vm_compute; reflexivity).
  assert (H3 : single_or_fresh "The quick brown fox" "The quick red fox" = true)
    by (vm_compute; reflexivity).
  destruct (wordMerge3Way_replaced_words _ _ _ H1 H2 H3) as (Hc & Hr & Hm).
  split; [exact H1|]. split; [exact H2|]. split; [exact H3|].
  split; [exact Hc|]. split; [exact Hr|].
  rewrite Hm. vm_compute. reflexivity.
Defined.

(** Without the condition the claim fails: in "a b a" against "b a a" one
    side replaces two words by words the text already has, and the merge
    with "a b b" reports a conflict. *)
Lemma wordMerge3Way_replaced_words_needs_condition :
  change_disjoint_words "a b a" "b a a" "a b b" = true
  /\ single_or_fresh "a b a" "b a a" = false
  /\ hasConflict (wordMerge3Way "a b a" "b a a" "a b b") = true.
Proof. repeat split; vm_compute; reflexivity. Qed.

End WordMergeLaws.

(** ** Differences: proofs *)

Module DiffProofs.
Import JS Types Segmentation Alignment Diff WordMergeProofs AlignmentProofs SegmentationProofs.

(** *** wordDiff and tokenDiff: the loop *)

Lemma old_text_app ops1 ops2 :
  old_text (ops1 ++ ops2) = old_text ops1 +:+ old_text ops2.
Proof.
  induction ops1 as [|op ops1 IH]; [done|].
  cbn [app old_text]. by rewrite IH, append_assoc'.
Qed.

Lemma new_text_app ops1 ops2 :
  new_text (ops1 ++ ops2) = new_text ops1 +:+ new_text ops2.
Proof.
  induction ops1 as [|op ops1 IH]; [done|].
  cbn [app new_text]. by rewrite IH, append_assoc'.
Qed.

Lemma change_op_texts deletions insertions :
  old_text (change_op deletions insertions) = join deletions
  /\ new_text (change_op deletions insertions) = join insertions.
Proof.
  unfold change_op.
  destruct deletions as [|d ds], insertions as [|x xs]; cbn [nonempty andb];
    cbn [old_text new_text wd_type wd_content wd_oldContent default];
    by rewrite ?append_empty_r.
Qed.

Lemma diff_loop_nil_common (tokensA tokensB : list string) :
  diff_loop tokensA tokensB [] = change_op tokensA tokensB.
Proof.
  destruct tokensA as [|a tokensA], tokensB as [|b tokensB]; cbn [diff_loop head];
    rewrite ?collect_none; by rewrite ?app_nil_r.
Qed.

Lemma diff_loop_cons_common (tokensA tokensB : list string) (c : string)
    (common pre1 rest1 pre2 rest2 : list string) :
  WordMerge.collect (Some c) tokensA = (pre1, c :: rest1) ->
  WordMerge.collect (Some c) tokensB = (pre2, c :: rest2) ->
  diff_loop tokensA tokensB (c :: common)
  = change_op pre1 pre2
    ++ mkWordDiffOp WKeep c None :: diff_loop rest1 rest2 common.
Proof.
  intros H1 H2.
  destruct tokensA as [|a tokensA]; [done|].
  cbn [diff_loop head]. unfold WordMerge.token in *. by rewrite H1, H2.
Qed.

Lemma diff_loop_texts (common : list string) :
  forall tokensA tokensB : list string,
  common `sublist_of` tokensA -> common `sublist_of` tokensB ->
  old_text (diff_loop tokensA tokensB common) = join tokensA
  /\ new_text (diff_loop tokensA tokensB common) = join tokensB.
Proof.
  induction common as [|c common IH]; intros tokensA tokensB Ha Hb.
  - rewrite diff_loop_nil_common. apply change_op_texts.
  - destruct (collect_sublist _ _ _ Ha) as (pre1 & rest1 & H1 & -> & Ha').
    destruct (collect_sublist _ _ _ Hb) as (pre2 & rest2 & H2 & -> & Hb').
    rewrite (diff_loop_cons_common _ _ _ _ _ _ _ _ H1 H2).
    destruct (IH rest1 rest2 Ha' Hb') as [IHo IHn].
    destruct (change_op_texts pre1 pre2) as [Ho Hn].
    rewrite old_text_app, new_text_app, Ho, Hn.
    cbn [old_text new_text wd_type wd_content]. rewrite IHo, IHn.
    by rewrite !join_app, !join_cons.
Qed.

Lemma wordDiff_texts_aux (original modified : string) :
  old_text (wordDiff original modified) = original
  /\ new_text (wordDiff original modified) = modified.
Proof.
  unfold wordDiff. cbv zeta.
  destruct (lcs_sublist (tokenize original) (tokenize modified)) as [Ha Hb].
  destruct (diff_loop_texts _ _ _ Ha Hb) as [Ho Hn].
  unfold lcs. rewrite Ho, Hn. unfold tokenize. by rewrite !tokenize_join.
Qed.

(** X24.  [wordDiff] describes both texts: the kept, deleted and replaced
    contents, in order, spell the original, and the kept, inserted and
    replacing contents spell the modified text. *)
Theorem wordDiff_texts (original modified : string) :
  old_text (wordDiff original modified) = original
  /\ new_text (wordDiff original modified) = modified.
Proof. apply wordDiff_texts_aux. Qed.

Lemma diff_loop_same (tokens : list string) :
  diff_loop tokens tokens tokens = map (fun t => mkWordDiffOp WKeep t None) tokens.
Proof.
  induction tokens as [|t tokens IH]; [done|].
  rewrite (diff_loop_cons_common (t :: tokens) (t :: tokens) t tokens
             [] tokens [] tokens).
  - cbn [change_op nonempty andb app map]. by rewrite IH.
  - cbn [WordMerge.collect head]. by rewrite bool_decide_eq_true_2.
  - cbn [WordMerge.collect head]. by rewrite bool_decide_eq_true_2.
Qed.

Lemma keeps_same_texts ops :
  Forall (fun op => wd_type op = WKeep) ops -> old_text ops = new_text ops.
Proof.
  induction 1 as [|op ops Hop _ IH]; [done|].
  cbn [old_text new_text]. by rewrite Hop, IH.
Qed.

(** X25.  [wordDiff] keeps everything exactly when the two texts are equal:
    for one text against itself it returns one "keep" for every token, and
    for two different texts at least one operation is not a "keep". *)
Theorem wordDiff_all_keep (original modified : string) :
  wordDiff original original
  = map (fun t => mkWordDiffOp WKeep t None) (tokenize original)
  /\ (Forall (fun op => wd_type op = WKeep) (wordDiff original modified)
      <-> original = modified).
Proof.
  assert (Hsame : forall text,
            wordDiff text text
            = map (fun t => mkWordDiffOp WKeep t None) (tokenize text)).
  { intros text. unfold wordDiff, lcs. cbv zeta. rewrite lcs_same.
    apply diff_loop_same. }
  split; [apply Hsame|]. split.
  - intros Hkeep. apply keeps_same_texts in Hkeep.
    destruct (wordDiff_texts_aux original modified) as [Ho Hn]. congruence.
  - intros <-. rewrite Hsame. apply Forall_forall. intros op Hop.
    by apply list_elem_of_fmap in Hop as (t & -> & _).
Qed.

(** *** tokenizeSemantic *)

Lemma run_le class (s : string) : run class s <= String.length s.
Proof.
  induction s as [|c s IH]; cbn [run String.length]; [done|].
  destruct (class c); lia.
Qed.

Lemma without_underscores_app (s t : string) :
  without_underscores (s +:+ t) = without_underscores s +:+ without_underscores t.
Proof.
  induction s as [|c s IH]; [done|].
  rewrite append_cons. cbn [without_underscores].
  case_bool_decide; [done|]. by rewrite IH, append_cons.
Qed.

Lemma clean_run class (s : string) :
  (forall c, class c = true -> c <> "_"%char) ->
  without_underscores (stake (run class s) s) = stake (run class s) s.
Proof.
  intros Hclass. induction s as [|c s IH]; [done|].
  cbn [run]. destruct (class c) eqn:E; [|done].
  cbn [stake without_underscores].
  rewrite bool_decide_eq_false_2 by (by apply Hclass). by rewrite IH.
Qed.

Lemma with_suffix_spec (q : ascii) class (n : nat) (s : string) :
  q <> "_"%char ->
  (forall c, class c = true -> c <> "_"%char) ->
  0 < n <= String.length s ->
  without_underscores (stake n s) = stake n s ->
  let k := with_suffix q class n s in
  0 < k <= String.length s
  /\ without_underscores (stake k s) = stake k s.
Proof.
  intros Hq Hclass Hn Hclean. cbv zeta. unfold with_suffix.
  destruct (sdrop n s) as [|d after] eqn:Hdrop; [done|].
  destruct (bool_decide (d = q) && (0 <? run class after)%nat) eqn:E; [|done].
  apply andb_true_iff in E as [Hd _]. apply bool_decide_eq_true in Hd. subst d.
  assert (Hlen : String.length s - n = S (String.length after)).
  { rewrite <- sdrop_length, Hdrop. done. }
  pose proof (run_le class after) as Hrun.
  split; [lia|].
  rewrite <- Nat.add_assoc, stake_add, Hdrop. cbn [Nat.add stake].
  rewrite without_underscores_app, Hclean. cbn [without_underscores].
  rewrite bool_decide_eq_false_2 by done. by rewrite clean_run.
Qed.

Lemma isSpace_not_underscore c : isSpace c = true -> c <> "_"%char.
Proof. intros H ->. vm_compute in H. discriminate. Qed.

Lemma isLetter_not_underscore c : isLetter c = true -> c <> "_"%char.
Proof. intros H ->. vm_compute in H. discriminate. Qed.

Lemma isLower_not_underscore c : isLower c = true -> c <> "_"%char.
Proof. intros H ->. vm_compute in H. discriminate. Qed.

Lemma isDigit_not_underscore c : isDigit c = true -> c <> "_"%char.
Proof. intros H ->. vm_compute in H. discriminate. Qed.

Lemma run_pos class (c : ascii) (s : string) :
  class c = true -> 0 < run class (String c s) <= String.length (String c s).
Proof.
  intros H. split; [cbn [run]; rewrite H; lia|apply run_le].
Qed.

(** The pattern fails at a position exactly on an underscore; where it
    matches, the match is not empty and holds no underscore. *)
Lemma semantic_match_spec (c : ascii) (rest : string) :
  let n := semantic_match (String c rest) in
  (n = 0 /\ c = "_"%char)
  \/ (0 < n <= String.length (String c rest)
      /\ without_underscores (stake n (String c rest)) = stake n (String c rest)).
Proof.
  cbv zeta. unfold semantic_match.
  destruct (isSpace c) eqn:Es.
  { right. split; [by apply run_pos|]. apply clean_run, isSpace_not_underscore. }
  destruct (isLetter c) eqn:El.
  { right. apply with_suffix_spec; [done|apply isLower_not_underscore| |].
    - by apply run_pos.
    - apply clean_run, isLetter_not_underscore. }
  destruct (isDigit c) eqn:Ed.
  { right. apply with_suffix_spec; [done|apply isDigit_not_underscore| |].
    - by apply run_pos.
    - apply clean_run, isDigit_not_underscore. }
  destruct (isWordChar c) eqn:Ew; cbn [negb].
  - left. split; [done|].
    unfold isWordChar in Ew. unfold isLetter in El. rewrite Ed in Ew.
    apply orb_false_iff in El as [Eu Elow]. rewrite Eu, Elow in Ew.
    cbn [orb] in Ew. rewrite orb_false_r in Ew. apply Nat.eqb_eq in Ew.
    unfold code in Ew. apply (f_equal ascii_of_nat) in Ew.
    by rewrite ascii_nat_embedding in Ew.
  - right. cbn [String.length]. split; [lia|].
    cbn [stake without_underscores]. rewrite bool_decide_eq_false_2; [done|].
    intros ->. vm_compute in Ew. discriminate.
Qed.

Lemma tokenizeSemantic_loop_join fuel : forall text tokens,
  String.length text <= fuel ->
  join (tokenizeSemantic_loop fuel text tokens)
  = join tokens +:+ without_underscores text.
Proof.
  induction fuel as [|fuel IH]; intros text tokens Hf.
  { destruct text; [|cbn in Hf; lia]. cbn. by rewrite append_empty_r. }
  destruct text as [|c rest]; [cbn; by rewrite append_empty_r|].
  cbn [tokenizeSemantic_loop].
  destruct (semantic_match_spec c rest) as [[Hn Hc]|[Hn Hclean]].
  - rewrite Hn. subst c. cbn [String.length] in Hf.
    rewrite IH by lia. cbn [without_underscores].
    by rewrite bool_decide_eq_true_2.
  - destruct (semantic_match (String c rest)) as [|n] eqn:E; [lia|].
    rewrite IH by (rewrite sdrop_length; cbn [String.length] in *; lia).
    rewrite join_app, join_cons, join_nil, append_empty_r, append_assoc'.
    rewrite <- Hclean, <- without_underscores_app.
    by rewrite stake_sdrop.
Qed.

Lemma tokenizeSemantic_join (text : string) :
  join (tokenizeSemantic text) = without_underscores text.
Proof.
  unfold tokenizeSemantic. by rewrite tokenizeSemantic_loop_join.
Qed.

(** X26.  [tokenDiff] does not see underscores: its tokenizer passes over
    them, so that the tokens of a text, and the operations of a diff, spell
    the texts without their underscores. *)
Theorem tokenDiff_texts (original modified : string) :
  old_text (tokenDiff original modified) = without_underscores original
  /\ new_text (tokenDiff original modified) = without_underscores modified
  /\ join (tokenizeSemantic original) = without_underscores original.
Proof.
  unfold tokenDiff. cbv zeta.
  destruct (lcs_sublist (tokenizeSemantic original) (tokenizeSemantic modified))
    as [Ha Hb].
  destruct (diff_loop_texts _ _ _ Ha Hb) as [Ho Hn].
  unfold lcs. rewrite Ho, Hn. by rewrite !tokenizeSemantic_join.
Qed.

(** "snake_case" against "snakecase": the replacement of "snakecase" by
    "snakecase". *)
Lemma tokenDiff_underscore_example :
  tokenizeSemantic "snake_case 1.5" = ["snake"; "case"; " "; "1.5"]
  /\ tokenDiff "snake_case" "snakecase"
     = [mkWordDiffOp WReplace "snakecase" (Some "snakecase")].
Proof. vm_compute. done. Qed.

(** *** pairsToEdits, diff and extractPatch *)

Lemma Forall_map_all {A B} (P : B -> Prop) (f : A -> B) (l : list A) :
  (forall x, P (f x)) -> Forall P (map f l).
Proof. intros H. induction l; constructor; done. Qed.

Lemma align_ok_well_shaped sa ta source target options provider result :
  align sa ta source target options provider = Ok result ->
  Forall well_shaped_pair (pairs result).
Proof.
  unfold align.
  destruct source as [|s source], target as [|t target].
  - intros [= <-]. constructor.
  - intros [= <-].
    apply (Forall_map_all _ (fun u => mkPair None (Some u) 0%float Insertion)
             (t :: target)).
    intros u. unfold well_shaped_pair. cbn. split; [done|by eexists].
  - intros [= <-].
    apply (Forall_map_all _ (fun u => mkPair (Some u) None 0%float Deletion)
             (s :: source)).
    intros u. unfold well_shaped_pair. cbn. split; [by eexists|done].
  - destruct (provider _) as [allEmbeddings|]; [|done].
    destruct (matrix_rows _ _ _ _ _) as [M|]; [|done].
    destruct (opt_strategy (resolve_options options)); intros Heq;
      apply (f_equal (fun r => match r with
                               | Ok x => pairs x
                               | Throw _ => []
                               end)) in Heq; rewrite <- Heq.
    + apply sequentialAlign_well_shaped.
    + apply semanticAlign_well_shaped.
    + apply hybridAlign_well_shaped.
Qed.

Lemma pair_edits_well_shaped (p : AlignedPair) :
  well_shaped_pair p ->
  exists e, pair_edits p = [e] /\ operation e = operation_of (type p)
            /\ (operation e = INSERT -> anchor e = "").
Proof.
  unfold well_shaped_pair, pair_edits.
  destruct (type p); intros [Hs Ht].
  - destruct Hs as [s ->]. by eexists.
  - destruct Hs as [s ->], Ht as [t ->]. by eexists.
  - destruct Ht as [t ->]. by eexists.
  - destruct Hs as [s ->]. by eexists.
Qed.

Lemma pairsToEdits_operations (ps : list AlignedPair) :
  Forall well_shaped_pair ps ->
  map operation (pairsToEdits ps) = map (fun p => operation_of (type p)) ps
  /\ Forall (fun e => operation e = INSERT -> anchor e = "") (pairsToEdits ps).
Proof.
  induction 1 as [|p ps Hp _ [IH1 IH2]]; [by split|].
  destruct (pair_edits_well_shaped p Hp) as (e & He & Hop & Hanchor).
  unfold pairsToEdits in *. cbn [flat_map]. rewrite He. cbn [app map].
  split; [by rewrite Hop, IH1|]. by constructor.
Qed.

Lemma count_operations (es : list Edit) :
  Forall (fun e => operation e <> MOVE) es ->
  count_operation KEEP es + count_operation INSERT es
  + count_operation DELETE es + count_operation REPLACE es = length es
  /\ count_operation MOVE es = 0.
Proof.
  unfold count_operation.
  induction 1 as [|e es He _ [IH1 IH2]]; [done|].
  cbn [List.filter length].
  destruct (operation e) eqn:Eop; try done;
    repeat case_bool_decide; try done; cbn [length]; split; lia.
Qed.

(** X27.  [diff] gives one edit to every pair of the alignment, in order:
    KEEP for a match, REPLACE for a modification, INSERT for an insertion
    and DELETE for a deletion.  Its four counters add up to the number of
    edits, and [moved] is always 0. *)
Theorem diff_edits (original modified : string) (provider : EmbeddingProvider) :
  match diff original modified provider with
  | Throw message =>
      align distinct_objects distinct_objects
        (units (segment original default_options))
        (units (segment modified default_options)) (mkOptions None None) provider
      = Throw message
  | Ok result =>
      (exists alignment,
         align distinct_objects distinct_objects
           (units (segment original default_options))
           (units (segment modified default_options)) (mkOptions None None)
           provider = Ok alignment
         /\ map operation (edits result)
            = map (fun p => operation_of (type p)) (pairs alignment))
      /\ kept (stats result) + inserted (stats result) + deleted (stats result)
         + replaced (stats result) = length (edits result)
      /\ moved (stats result) = 0
  end.
Proof.
  unfold diff. cbv zeta.
  destruct (align _ _ _ _ _ provider) as [alignment|] eqn:E; [|done].
  cbn [edits stats kept inserted deleted replaced moved].
  destruct (pairsToEdits_operations (pairs alignment)
              (align_ok_well_shaped _ _ _ _ _ _ _ E)) as [Hops _].
  split; [by exists alignment|].
  apply count_operations.
  apply Forall_forall. intros e He Hmove.
  assert (Hin : MOVE ∈ map operation (pairsToEdits (pairs alignment))).
  { rewrite <- Hmove. apply list_elem_of_fmap. by exists e. }
  rewrite Hops in Hin. apply list_elem_of_fmap in Hin as (p & Hp & _).
  by destruct (type p).
Qed.

Lemma diff_edits_example :
  exists result,
    diff "One. Two." "One. Six. Two." initial_provider = Ok result
    /\ map operation (edits result) = [KEEP; INSERT; KEEP]
    /\ stats result = mkDiffStats 2 1 0 0 0.
Proof.
  eexists. split; [vm_compute; reflexivity|]. split; vm_compute; reflexivity.
Qed.




Lemma extractPatch_edits_example :
  exists patch,
    extractPatch "One. Two. Six." "One. Six. Four." initial_provider
    = Ok patch
    /\ map operation (edits patch) = [DELETE; INSERT]
    /\ map anchor (edits patch) = ["be248829"; "be248829"]
    /\ kept (stats patch) = 2.
Proof.
  eexists. split; [vm_compute; reflexivity|].
  repeat split; vm_compute; reflexivity.
Qed.

End DiffProofs.
